(** * Ukkonen suffix-tree construction (ukkonen_algorithm.py)

    A shallow embedding of the classes [SuffixTreeNode] and [SuffixTree].
    Python objects live in an append-only object store addressed by handles;
    every attribute assignment of the source is one store update, so the
    aliasing of the source (active node, last new node, suffix links, the
    shared one-element list [leaf_end]) is kept. *)

From Stdlib Require Import ZArith Ascii String Lia Bool.
From stdpp Require Import base option list.

Local Open Scope Z_scope.

(** ** Python values used by the source *)

(** Handle of a [SuffixTreeNode] object in the store. *)
Abbreviation handle := nat (only parsing).

(** Outcome of running source code: a value, or the way it fails.
    [IndexError] is Python's string-index error; [OutOfFuel] and [BadHandle]
    belong to the embedding (loop/recursion bound, dangling handle). *)
Inductive error := IndexError | OutOfFuel | BadHandle.

Inductive result (A : Type) :=
| Ok (a : A)
| Err (e : error).
Arguments Ok {A} a.
Arguments Err {A} e.

(** [s[i]] on a Python string: negative indices count from the end. *)
Definition py_index (s : list ascii) (i : Z) : option ascii :=
  let n := Z.of_nat (length s) in
  if (0 <=? i) && (i <? n) then s !! Z.to_nat i
  else if (- n <=? i) && (i <? 0) then s !! Z.to_nat (n + i)
  else None.

(** A Python [dict] keyed by characters: insertion ordered, an assignment to
    a present key keeps its place. [children.values()] iterates in this
    order. *)
Fixpoint dict_get {V : Type} (k : ascii) (d : list (ascii * V)) : option V :=
  match d with
  | [] => None
  | (k', v) :: d' => if Ascii.eqb k k' then Some v else dict_get k d'
  end.

Fixpoint dict_set {V : Type} (k : ascii) (v : V) (d : list (ascii * V))
  : list (ascii * V) :=
  match d with
  | [] => [(k, v)]
  | (k', v') :: d' =>
      if Ascii.eqb k k' then (k', v) :: d' else (k', v') :: dict_set k v d'
  end.

Definition dict_values {V : Type} (d : list (ascii * V)) : list V := map snd d.

(** ** class SuffixTreeNode *)

(** The [end] attribute: an integer for closed edges, or a reference to the
    tree's one-element list [leaf_end] for leaves. *)
Inductive edge_end :=
| EndInt (e : Z)
| EndLeaf.

Record SuffixTreeNode := mkNode {
  children : list (ascii * handle);
  suffix_link : option handle;
  start : Z;
  end_ : edge_end;
  index : Z
}.

(** [SuffixTreeNode.__init__(start, end)] *)
Definition new_node (s : Z) (e : edge_end) : SuffixTreeNode :=
  {| children := []; suffix_link := None; start := s; end_ := e; index := -1 |}.

Definition node_set_child (c : ascii) (h : handle) (n : SuffixTreeNode) :=
  {| children := dict_set c h (children n); suffix_link := suffix_link n;
     start := start n; end_ := end_ n; index := index n |}.

Definition node_set_suffix_link (l : option handle) (n : SuffixTreeNode) :=
  {| children := children n; suffix_link := l;
     start := start n; end_ := end_ n; index := index n |}.

Definition node_set_start (s : Z) (n : SuffixTreeNode) :=
  {| children := children n; suffix_link := suffix_link n;
     start := s; end_ := end_ n; index := index n |}.

Definition node_set_index (i : Z) (n : SuffixTreeNode) :=
  {| children := children n; suffix_link := suffix_link n;
     start := start n; end_ := end_ n; index := i |}.

(** ** class SuffixTree *)

(** [leaf_end] is the content of the shared one-element list.
    [leaf_end_writes] is a history variable: every store to [leaf_end[0]]
    is appended to it; the source has no such field and nothing reads it. *)
Record SuffixTree := mkTree {
  text : list ascii;
  size : Z;
  nodes : list SuffixTreeNode;
  root : handle;
  active_node : handle;
  active_edge : Z;
  active_length : Z;
  remaining_suffix_count : Z;
  leaf_end : Z;
  last_new_node : option handle;
  leaf_end_writes : list Z
}.

Definition set_text (v : list ascii) (t : SuffixTree) :=
  mkTree v (size t) (nodes t) (root t) (active_node t) (active_edge t)
    (active_length t) (remaining_suffix_count t) (leaf_end t)
    (last_new_node t) (leaf_end_writes t).
Definition set_size (v : Z) (t : SuffixTree) :=
  mkTree (text t) v (nodes t) (root t) (active_node t) (active_edge t)
    (active_length t) (remaining_suffix_count t) (leaf_end t)
    (last_new_node t) (leaf_end_writes t).
Definition set_nodes (v : list SuffixTreeNode) (t : SuffixTree) :=
  mkTree (text t) (size t) v (root t) (active_node t) (active_edge t)
    (active_length t) (remaining_suffix_count t) (leaf_end t)
    (last_new_node t) (leaf_end_writes t).
Definition set_active_node (v : handle) (t : SuffixTree) :=
  mkTree (text t) (size t) (nodes t) (root t) v (active_edge t)
    (active_length t) (remaining_suffix_count t) (leaf_end t)
    (last_new_node t) (leaf_end_writes t).
Definition set_active_edge (v : Z) (t : SuffixTree) :=
  mkTree (text t) (size t) (nodes t) (root t) (active_node t) v
    (active_length t) (remaining_suffix_count t) (leaf_end t)
    (last_new_node t) (leaf_end_writes t).
Definition set_active_length (v : Z) (t : SuffixTree) :=
  mkTree (text t) (size t) (nodes t) (root t) (active_node t) (active_edge t)
    v (remaining_suffix_count t) (leaf_end t)
    (last_new_node t) (leaf_end_writes t).
Definition set_remaining_suffix_count (v : Z) (t : SuffixTree) :=
  mkTree (text t) (size t) (nodes t) (root t) (active_node t) (active_edge t)
    (active_length t) v (leaf_end t)
    (last_new_node t) (leaf_end_writes t).
(** [self.leaf_end[0] = v] *)
Definition set_leaf_end (v : Z) (t : SuffixTree) :=
  mkTree (text t) (size t) (nodes t) (root t) (active_node t) (active_edge t)
    (active_length t) (remaining_suffix_count t) v
    (last_new_node t) (leaf_end_writes t ++ [v]).
Definition set_last_new_node (v : option handle) (t : SuffixTree) :=
  mkTree (text t) (size t) (nodes t) (root t) (active_node t) (active_edge t)
    (active_length t) (remaining_suffix_count t) (leaf_end t)
    v (leaf_end_writes t).

(** Object creation: the new object gets the next free handle. *)
Definition alloc (n : SuffixTreeNode) (t : SuffixTree) : handle * SuffixTree :=
  (length (nodes t), set_nodes (nodes t ++ [n]) t).

(** Attribute update of the object behind handle [h]. *)
Definition update_node (h : handle) (f : SuffixTreeNode -> SuffixTreeNode)
  (t : SuffixTree) : SuffixTree :=
  set_nodes (alter f h (nodes t)) t.

(** [SuffixTreeNode.edge_length]: a leaf reads the shared [leaf_end]. *)
Definition edge_length (t : SuffixTree) (n : SuffixTreeNode) : Z :=
  match end_ n with
  | EndLeaf => leaf_end t - start n + 1
  | EndInt e => e - start n + 1
  end.

(** How one pass through the body of the [while] loop ends. *)
Inductive loop_exit := Continue | Break | Inserted.

(** Lines 105-109: the active-point update after an insertion. *)
Definition update_active_point (pos : Z) (t : SuffixTree) : result SuffixTree :=
  if (active_node t =? root t)%nat && (active_length t >? 0) then
    let t := set_active_length (active_length t - 1) t in
    Ok (set_active_edge (pos - remaining_suffix_count t + 1) t)
  else if negb (active_node t =? root t)%nat then
    match nodes t !! active_node t with
    | None => Err BadHandle
    | Some an =>
        Ok (set_active_node
              (match suffix_link an with Some l => l | None => root t end) t)
    end
  else Ok t.

(** Lines 70-72 and 86-87: the pending internal node, if any, gets its
    suffix link and is forgotten. *)
Definition link_last_new_node (target : handle) (t : SuffixTree) : SuffixTree :=
  match last_new_node t with
  | Some l =>
      set_last_new_node None
        (update_node l (node_set_suffix_link (Some target)) t)
  | None => t
  end.

(** Lines 68-72: a new leaf below the active node. *)
Definition add_leaf (pos : Z) (current_char : ascii) (t : SuffixTree)
  : SuffixTree :=
  let '(leaf, t) := alloc (new_node pos EndLeaf) t in
  let t := update_node (active_node t) (node_set_child current_char leaf) t in
  link_last_new_node (active_node t) t.

(** Lines 85-88: the next symbol is on the edge already. *)
Definition stop_phase (t : SuffixTree) : SuffixTree :=
  let t :=
    if negb (active_node t =? root t)%nat
    then link_last_new_node (active_node t) t
    else t in
  set_active_length (active_length t + 1) t.

(** Lines 92-101: the edge into [next_node] is split; [nn] is the object
    behind [next_node] and [c2] is [self.text[pos]]. *)
Definition split_edge (pos : Z) (current_char c2 : ascii)
  (next_node : handle) (nn : SuffixTreeNode) (t : SuffixTree)
  : result SuffixTree :=
  let split_end := start nn + active_length t - 1 in
  let '(split_node, t) := alloc (new_node (start nn) (EndInt split_end)) t in
  let t :=
    update_node (active_node t) (node_set_child current_char split_node) t in
  let '(leaf, t) := alloc (new_node pos EndLeaf) t in
  let t := update_node split_node (node_set_child c2 leaf) t in
  let t :=
    update_node next_node
      (fun n => node_set_start (start n + active_length t) n) t in
  match nodes t !! next_node with
  | None => Err BadHandle
  | Some nn' =>
      match py_index (text t) (start nn') with
      | None => Err IndexError
      | Some c3 =>
          let t := update_node split_node (node_set_child c3 next_node) t in
          let t :=
            match last_new_node t with
            | Some l =>
                update_node l (node_set_suffix_link (Some split_node)) t
            | None => t
            end in
          Ok (set_last_new_node (Some split_node) t)
      end
  end.

(** Lines 78-80: the skip/count step onto [next_node]. *)
Definition skip_edge (next_node : handle) (len : Z) (t : SuffixTree)
  : SuffixTree :=
  let t := set_active_edge (active_edge t + len) t in
  let t := set_active_length (active_length t - len) t in
  set_active_node next_node t.

(** Lines 62-101: the body of the [while] loop up to the insertion. *)
Definition extend_insert (pos : Z) (t : SuffixTree)
  : result (loop_exit * SuffixTree) :=
  let t := if active_length t =? 0 then set_active_edge pos t else t in
  match py_index (text t) (active_edge t) with
  | None => Err IndexError
  | Some current_char =>
  match nodes t !! active_node t with
  | None => Err BadHandle
  | Some an =>
  match dict_get current_char (children an) with
  | None => Ok (Inserted, add_leaf pos current_char t)
  | Some next_node =>
  match nodes t !! next_node with
  | None => Err BadHandle
  | Some nn =>
      let len := edge_length t nn in
      if active_length t >=? len then Ok (Continue, skip_edge next_node len t)
      else
      match py_index (text t) (start nn + active_length t),
            py_index (text t) pos with
      | Some c1, Some c2 =>
          if Ascii.eqb c1 c2 then Ok (Break, stop_phase t)
          else
            match split_edge pos current_char c2 next_node nn t with
            | Ok t => Ok (Inserted, t)
            | Err e => Err e
            end
      | _, _ => Err IndexError
      end
  end
  end
  end
  end.

(** One pass through the body of the [while] loop (lines 62-109). *)
Definition extend_body (pos : Z) (t : SuffixTree)
  : result (loop_exit * SuffixTree) :=
  match extend_insert pos t with
  | Ok (Inserted, t) =>
      let t :=
        set_remaining_suffix_count (remaining_suffix_count t - 1) t in
      match update_active_point pos t with
      | Ok t => Ok (Inserted, t)
      | Err e => Err e
      end
  | r => r
  end.

(** The [while self.remaining_suffix_count > 0] loop. *)
Fixpoint extend_loop (fuel : nat) (pos : Z) (t : SuffixTree)
  : result SuffixTree :=
  if remaining_suffix_count t >? 0 then
    match fuel with
    | O => Err OutOfFuel
    | S fuel =>
        match extend_body pos t with
        | Ok (Break, t) => Ok t
        | Ok (_, t) => extend_loop fuel pos t
        | Err e => Err e
        end
    end
  else Ok t.

(** Lines 57-59: what a phase does before its loop. *)
Definition phase_prologue (pos : Z) (t : SuffixTree) : SuffixTree :=
  let t := set_leaf_end pos t in
  let t := set_remaining_suffix_count (remaining_suffix_count t + 1) t in
  set_last_new_node None t.

(** [SuffixTree._extend_suffix_tree(pos)] *)
Definition _extend_suffix_tree (fuel : nat) (pos : Z) (t : SuffixTree)
  : result SuffixTree :=
  extend_loop fuel pos (phase_prologue pos t).

(** [SuffixTree._build_suffix_tree]: [for pos in range(self.size)], the
    range being fixed when the loop starts. *)
Fixpoint build_from (fuel : nat) (positions : list Z) (t : SuffixTree)
  : result SuffixTree :=
  match positions with
  | [] => Ok t
  | pos :: rest =>
      match _extend_suffix_tree fuel pos t with
      | Ok t => build_from fuel rest t
      | Err e => Err e
      end
  end.

Definition py_range (n : Z) : list Z := map Z.of_nat (seq 0 (Z.to_nat n)).

Definition _build_suffix_tree (fuel : nat) (t : SuffixTree) : result SuffixTree :=
  build_from fuel (py_range (size t)) t.

(** [SuffixTree.__init__] up to the call of [_build_suffix_tree]. *)
Definition init_tree (s : list ascii) : SuffixTree :=
  {| text := s;
     size := Z.of_nat (length s);
     nodes := [node_set_suffix_link (Some 0%nat) (new_node (-1) (EndInt (-1)))];
     root := 0%nat;
     active_node := 0%nat;
     active_edge := -1;
     active_length := 0;
     remaining_suffix_count := 0;
     leaf_end := -1;
     last_new_node := None;
     leaf_end_writes := [] |}.

(** [SuffixTree(text)] *)
Definition SuffixTree_new (fuel : nat) (s : list ascii) : result SuffixTree :=
  _build_suffix_tree fuel (init_tree s).

Definition terminator : ascii := "$"%char.

(** [SuffixTree.make_explicit] *)
Definition make_explicit (fuel : nat) (t : SuffixTree) : result SuffixTree :=
  let pos := size t in
  let t := set_text (text t ++ [terminator]) t in
  let t := set_size (size t + 1) t in
  let t := set_leaf_end pos t in
  let t := set_remaining_suffix_count (remaining_suffix_count t + 1) t in
  let t := set_last_new_node None t in
  _extend_suffix_tree fuel pos t.

(** The [for child in node.children.values()] loop of
    [set_suffix_index_by_dfs]; [visit] is the recursive call. *)
Fixpoint visit_children
  (visit : handle -> Z -> SuffixTree -> result SuffixTree)
  (label_length : Z) (cs : list handle) (t : SuffixTree) : result SuffixTree :=
  match cs with
  | [] => Ok t
  | child :: cs =>
      match nodes t !! child with
      | None => Err BadHandle
      | Some cn =>
          match visit child (label_length + edge_length t cn) t with
          | Ok t => visit_children visit label_length cs t
          | Err e => Err e
          end
      end
  end.

(** [SuffixTree.set_suffix_index_by_dfs(node, label_length)]; [node] may be
    [None]. *)
Fixpoint set_suffix_index_by_dfs (fuel : nat) (node : option handle)
  (label_length : Z) (t : SuffixTree) : result SuffixTree :=
  match fuel with
  | O => Err OutOfFuel
  | S fuel =>
      match node with
      | None => Ok t
      | Some h =>
          match nodes t !! h with
          | None => Err BadHandle
          | Some n =>
              if (length (children n) =? 0)%nat then
                Ok (update_node h (node_set_index (size t - label_length)) t)
              else
                visit_children
                  (fun child l t => set_suffix_index_by_dfs fuel (Some child) l t)
                  label_length (dict_values (children n)) t
          end
      end
  end.

(** ** Observations on a tree *)

(** [s[a:b]] on a Python string. *)
Definition py_slice (s : list ascii) (a b : Z) : list ascii :=
  let n := Z.of_nat (length s) in
  let clamp i := if i <? 0 then Z.max 0 (i + n) else Z.min i n in
  take (Z.to_nat (clamp b - clamp a)) (drop (Z.to_nat (clamp a)) s).

(** The label of the edge into a node, as [_print_tree] and [visualize]
    compute it: [self.text[child.start: end_index + 1]]. *)
Definition edge_label (t : SuffixTree) (n : SuffixTreeNode) : list ascii :=
  let end_index := match end_ n with EndLeaf => leaf_end t | EndInt e => e end in
  py_slice (text t) (start n) (end_index + 1).

(** The child handles of the object behind [h], in [children.values()]
    order. *)
Definition kids (t : SuffixTree) (h : handle) : list handle :=
  match nodes t !! h with
  | Some n => dict_values (children n)
  | None => []
  end.

Definition is_leaf (t : SuffixTree) (h : handle) : Prop :=
  exists n, nodes t !! h = Some n /\ children n = [].

Definition is_internal (t : SuffixTree) (h : handle) : Prop :=
  exists n, nodes t !! h = Some n /\ children n <> [].

Definition index_of (t : SuffixTree) (h : handle) : option Z :=
  index <$> nodes t !! h.

(** [path_length t u h L]: [h] is reached from [u] along child edges, and
    the edge lengths on the way add up to [L] (the [label_length] that
    [set_suffix_index_by_dfs] accumulates). *)
Inductive path_length (t : SuffixTree) (u : handle) : handle -> Z -> Prop :=
| path_here : path_length t u u 0
| path_step p c cn L :
    path_length t u p L ->
    c ∈ kids t p ->
    nodes t !! c = Some cn ->
    path_length t u c (L + edge_length t cn).

(** The object graph is a forest hanging off the root: child handles are
    allocated, a node has one parent at most and the root none, no node
    lists a child twice, and child edges are well founded. *)
Record tree_shaped (t : SuffixTree) : Prop := {
  ts_root : (root t < length (nodes t))%nat;
  ts_closed : forall p c, c ∈ kids t p -> (c < length (nodes t))%nat;
  ts_root_orphan : forall p, root t ∉ kids t p;
  ts_one_parent : forall p1 p2 c, c ∈ kids t p1 -> c ∈ kids t p2 -> p1 = p2;
  ts_nodup : forall p, NoDup (kids t p);
  ts_ranked : exists rank : handle -> nat,
      forall p c, c ∈ kids t p -> (rank c < rank p)%nat
}.

(** No node carries a suffix index yet. *)
Definition unindexed (t : SuffixTree) : Prop :=
  forall h n, nodes t !! h = Some n -> index n = -1.

(** The strings read from [node] down to each leaf below it, [acc] being
    the string read so far; leaves in [children.values()] order. *)
Fixpoint leaf_strings (fuel : nat) (t : SuffixTree) (node : handle)
  (acc : list ascii) : list (list ascii) :=
  match fuel with
  | O => []
  | S fuel =>
      match kids t node with
      | [] => [acc]
      | cs =>
          flat_map
            (fun c =>
               match nodes t !! c with
               | Some cn => leaf_strings fuel t c (acc ++ edge_label t cn)
               | None => []
               end) cs
      end
  end.

(** All suffixes of a string, the empty one excluded. *)
Fixpoint suffixes (s : list ascii) : list (list ascii) :=
  match s with
  | [] => []
  | _ :: s' => s :: suffixes s'
  end.

(** Number of leaf objects: nodes without children. *)
Definition leaf_count (t : SuffixTree) : nat :=
  length (filter (fun n => children n = []) (nodes t)).

(** Fields that only the phase driver and [make_explicit] assign. *)
Definition same_globals (t t' : SuffixTree) : Prop :=
  text t' = text t /\ size t' = size t /\ root t' = root t /\
  leaf_end t' = leaf_end t /\ leaf_end_writes t' = leaf_end_writes t.

(** [t'] differs from [t] in [index] attributes at most. *)
Definition same_shape (t t' : SuffixTree) : Prop :=
  same_globals t t' /\
  active_node t' = active_node t /\
  active_edge t' = active_edge t /\
  active_length t' = active_length t /\
  remaining_suffix_count t' = remaining_suffix_count t /\
  last_new_node t' = last_new_node t /\
  length (nodes t') = length (nodes t) /\
  forall h n, nodes t !! h = Some n ->
    exists n', nodes t' !! h = Some n' /\
      children n' = children n /\ suffix_link n' = suffix_link n /\
      start n' = start n /\ end_ n' = end_ n.

(** ... and only in the [index] of nodes without children. *)
Definition only_leaf_index_changed (t t' : SuffixTree) : Prop :=
  same_shape t t' /\
  forall h n n', nodes t !! h = Some n -> nodes t' !! h = Some n' ->
    children n <> [] -> index n' = index n.

(** ** Finalization as the specification words it *)

(** Section 4.4: append the terminator, then run one phase of section 4.3
    for its position. *)
Definition finalize_spec (fuel : nat) (t : SuffixTree) : result SuffixTree :=
  let pos := size t in
  let t := set_text (text t ++ [terminator]) t in
  let t := set_size (size t + 1) t in
  _extend_suffix_tree fuel pos t.

(** Section 4.2: the two rules for the active point, relating the state
    [tm] after the insertion (and the decrement of the counter) to the
    state [t'] after the update. *)
Definition active_point_rules (pos : Z) (tm t' : SuffixTree) : Prop :=
  (active_node tm = root tm /\ active_length tm > 0 ->
     active_length t' = active_length tm - 1 /\
     active_edge t' = pos - remaining_suffix_count tm + 1 /\
     active_node t' = active_node tm) /\
  (active_node tm <> root tm ->
     active_node t' =
       match nodes tm !! active_node tm with
       | Some an =>
           match suffix_link an with Some l => l | None => root tm end
       | None => root tm
       end /\
     active_edge t' = active_edge tm /\
     active_length t' = active_length tm) /\
  (active_node tm = root tm /\ active_length tm <= 0 ->
     active_node t' = active_node tm /\
     active_edge t' = active_edge tm /\
     active_length t' = active_length tm).

(** ** Queries *)

Fixpoint is_prefix (p s : list ascii) : bool :=
  match p, s with
  | [], _ => true
  | a :: p', b :: s' => Ascii.eqb a b && is_prefix p' s'
  | _ :: _, [] => false
  end.

(** Brute-force scan: the start indices at which [p] occurs in [s]. *)
Fixpoint occurrences_from (i : Z) (p s : list ascii) : list Z :=
  (if is_prefix p s then [i] else []) ++
  match s with
  | [] => []
  | _ :: s' => occurrences_from (i + 1) p s'
  end.

Definition occurrences (p s : list ascii) : list Z := occurrences_from 0 p s.

(** Modelled from the spec: the walk of the queries [contains] and
    [find_all] (sections 4.4 and 6), which the source does not define. It
    goes down from [node], matching the pattern symbol by symbol against
    edge labels, and returns the node below the edge on which the pattern
    ends. *)
Fixpoint locate (fuel : nat) (t : SuffixTree) (node : handle)
  (p : list ascii) : option handle :=
  match p with
  | [] => Some node
  | c :: _ =>
      match fuel with
      | O => None
      | S fuel =>
          match nodes t !! node with
          | None => None
          | Some n =>
              match dict_get c (children n) with
              | None => None
              | Some ch =>
                  match nodes t !! ch with
                  | None => None
                  | Some cn =>
                      let lab := edge_label t cn in
                      if is_prefix p lab then Some ch
                      else if is_prefix lab p
                           then locate fuel t ch (drop (length lab) p)
                           else None
                  end
              end
          end
      end
  end.

(** Modelled from the spec: the suffix indices of all leaves in the
    subtree of [node] (section 4.4, the enumeration step of [find_all]). *)
Fixpoint leaf_indices (fuel : nat) (t : SuffixTree) (node : handle) : list Z :=
  match fuel with
  | O => []
  | S fuel =>
      match nodes t !! node with
      | None => []
      | Some n =>
          match children n with
          | [] => [index n]
          | cs => flat_map (leaf_indices fuel t) (dict_values cs)
          end
      end
  end.

(** Modelled from the spec: [contains(tree, pattern)] of section 6. *)
Definition contains (fuel : nat) (t : SuffixTree) (p : list ascii) : bool :=
  match locate fuel t (root t) p with Some _ => true | None => false end.

(** Modelled from the spec: [find_all(tree, pattern)] of section 6, on a
    finalized tree whose leaves carry their suffix indices. *)
Definition find_all (fuel : nat) (t : SuffixTree) (p : list ascii) : list Z :=
  match locate fuel t (root t) p with
  | Some v => leaf_indices fuel t v
  | None => []
  end.

(** ** Pipelines used by the examples *)

Definition chars (s : string) : list ascii := list_ascii_of_string s.

(** [st = SuffixTree(s); st.make_explicit()] *)
Definition build_explicit (fuel : nat) (s : list ascii) : result SuffixTree :=
  match SuffixTree_new fuel s with
  | Ok t => make_explicit fuel t
  | Err e => Err e
  end.

(** ... followed by [st.set_suffix_index_by_dfs(st.root, 0)] *)
Definition build_indexed (fuel : nat) (s : list ascii) : result SuffixTree :=
  match build_explicit fuel s with
  | Ok t => set_suffix_index_by_dfs fuel (Some (root t)) 0 t
  | Err e => Err e
  end.

(** The same with the finalization of section 4.4. *)
Definition build_explicit_spec (fuel : nat) (s : list ascii)
  : result SuffixTree :=
  match SuffixTree_new fuel s with
  | Ok t => finalize_spec fuel t
  | Err e => Err e
  end.

Definition build_indexed_spec (fuel : nat) (s : list ascii)
  : result SuffixTree :=
  match build_explicit_spec fuel s with
  | Ok t => set_suffix_index_by_dfs fuel (Some (root t)) 0 t
  | Err e => Err e
  end.

Definition on_ok {A B : Type} (f : A -> B) (r : result A) : option B :=
  match r with Ok a => Some (f a) | Err _ => None end.

(** ** Auxiliary definitions of the proofs *)

(** Every index the traversal from [u] leaves behind is either the old one
    or [size - label_length] for a leaf below [u]. *)
Definition writes_ok (u : handle) (l : Z) (t0 t t' : SuffixTree) : Prop :=
  forall h, index_of t' h = index_of t h \/
    (is_leaf t0 h /\ exists L, path_length t0 u h L /\
       index_of t' h = Some (size t0 - (l + L))).

(** Every leaf below [u] has been given its index. *)
Definition visited_ok (u : handle) (l : Z) (t0 t' : SuffixTree) : Prop :=
  forall h L, path_length t0 u h L -> is_leaf t0 h ->
    exists L', path_length t0 u h L' /\
      index_of t' h = Some (size t0 - (l + L')).

(** The store after [split_edge], written out. *)
Definition split_nodes (pos : Z) (cur c2 c3 : ascii) (next : nat)
  (nn : SuffixTreeNode) (t : SuffixTree) : list SuffixTreeNode :=
  let N := length (nodes t) in
  let ns :=
    alter (node_set_child c3 next) N
      (alter (fun n => node_set_start (start n + active_length t) n) next
         (alter (node_set_child c2 (S N)) N
            (alter (node_set_child cur N) (active_node t)
               (nodes t ++
                  [new_node (start nn)
                     (EndInt (start nn + active_length t - 1))])
             ++ [new_node pos EndLeaf]))) in
  match last_new_node t with
  | Some l => alter (node_set_suffix_link (Some N)) l ns
  | None => ns
  end.

(** The store after [add_leaf], written out. *)
Definition leaf_nodes (pos : Z) (cur : ascii) (t : SuffixTree)
  : list SuffixTreeNode :=
  let N := length (nodes t) in
  let ns :=
    alter (node_set_child cur N) (active_node t)
      (nodes t ++ [new_node pos EndLeaf]) in
  match last_new_node t with
  | Some l => alter (node_set_suffix_link (Some (active_node t))) l ns
  | None => ns
  end.

(** The [children] attribute of the object behind a handle. *)
Definition och (ns : list SuffixTreeNode) (x : nat)
  : option (list (ascii * nat)) :=
  children <$> ns !! x.

(** No node of [t] has fewer children in [t']. *)
Definition children_kept (t t' : SuffixTree) : Prop :=
  forall h, (length (kids t h) <= length (kids t' h))%nat.

(** The state in which the final phase of "abab" enters its loop. *)
Definition abab_final_phase : SuffixTree :=
  match SuffixTree_new 20 (chars "abab") with
  | Ok t =>
      phase_prologue 4 (set_size 5 (set_text (text t ++ [terminator]) t))
  | Err _ => init_tree []
  end.

(** C5 as the specification states it: finalization fails on every input
    that contains the terminator. *)
Definition finalize_rejects_terminator : Prop :=
  forall fuel s t, terminator ∈ s -> SuffixTree_new fuel s = Ok t ->
    exists e, make_explicit fuel t = Err e.

(** ** The suffix-tree invariant of the construction *)

(** [self.text[i]] *)
Definition chr (t : SuffixTree) (i : Z) : option ascii := py_index (text t) i.

(** The text agrees on [a, a+d) and [b, b+d). *)
Definition eqs (t : SuffixTree) (a b d : Z) : Prop :=
  forall i, 0 <= i < d -> chr t (a + i) = chr t (b + i).

(** The last text position of the label of the edge into a node. *)
Definition eend (t : SuffixTree) (n : SuffixTreeNode) : Z :=
  match end_ n with EndLeaf => leaf_end t | EndInt e => e end.

(** Ghost description of the tree: the parent of a node, the length of
    the string read from the root down to it, a text position where that
    string occurs, and whether the node is one of the leaves that the
    final phase hangs below a wrong locus. *)
Record ghost := mkGhost {
  gpar : nat -> nat;
  gdep : nat -> Z;
  ghd : nat -> Z;
  gjk : nat -> bool
}.

Record node_ok (t : SuffixTree) (g : ghost) (x : nat) (nx : SuffixTreeNode)
  : Prop := {
  no_parent : exists nu key,
      nodes t !! gpar g x = Some nu /\ chr t (start nx) = Some key /\
      dict_get key (children nu) = Some x;
  no_range : 0 <= start nx /\ start nx <= eend t nx /\ eend t nx <= leaf_end t;
  no_pdep : 0 <= gdep g (gpar g x);
  no_dep : gdep g x = gdep g (gpar g x) + edge_length t nx;
  no_leaf : end_ nx = EndLeaf -> children nx = [];
  no_int : forall e, end_ nx = EndInt e ->
      e < leaf_end t /\ (2 <= length (children nx))%nat;
  no_junk : gjk g x = true -> end_ nx = EndLeaf /\ start nx = leaf_end t;
  no_good : gjk g x = false ->
      ghd g x = start nx - gdep g (gpar g x) /\ 0 <= ghd g x /\
      eqs t (ghd g x) (ghd g (gpar g x)) (gdep g (gpar g x))
}.

(** The node has a closed edge: it is an internal node (or the root). *)
Definition internal (t : SuffixTree) (x : nat) : Prop :=
  exists nx e, nodes t !! x = Some nx /\ end_ nx = EndInt e.

(** Number of nodes with an open edge, that is, of leaves. *)
Definition is_open (n : SuffixTreeNode) : bool :=
  match end_ n with EndLeaf => true | EndInt _ => false end.

Definition opens (ns : list SuffixTreeNode) : nat :=
  length (filter (fun n => is_open n = true) ns).

Record store_ok (t : SuffixTree) (g : ghost) : Prop := {
  so_root : root t = 0%nat;
  so_root_node : internal t 0%nat;
  so_dep0 : gdep g 0%nat = 0;
  so_size : size t = Z.of_nat (length (text t));
  so_leaf_end : -1 <= leaf_end t < size t;
  so_node : forall x nx, (1 <= x)%nat -> nodes t !! x = Some nx ->
      node_ok t g x nx;
  so_child : forall u nu k c, nodes t !! u = Some nu ->
      dict_get k (children nu) = Some c ->
      exists nc, (1 <= c)%nat /\ nodes t !! c = Some nc /\ gpar g c = u /\
        chr t (start nc) = Some k
}.

(** A node other than the root whose string is a slice of the text. *)
Definition gnode (t : SuffixTree) (g : ghost) (x : nat) : Prop :=
  exists nx, (1 <= x)%nat /\ nodes t !! x = Some nx /\ gjk g x = false.

(** The string of length [k] ends on the edge into [c] (or at [c]). *)
Definition locus (t : SuffixTree) (g : ghost) (c : nat) (k : Z) : Prop :=
  gnode t g c /\ gdep g (gpar g c) < k <= gdep g c.

(** Every substring of the first [P] symbols can be read from the root. *)
Definition complete (t : SuffixTree) (g : ghost) (P : Z) : Prop :=
  forall i k, 0 <= i -> 1 <= k -> i + k <= P ->
    exists c, locus t g c k /\ eqs t (ghd g c) i k.

(** [a] is [x] or lies above it. *)
Inductive anc (g : ghost) : nat -> nat -> Prop :=
| anc_refl x : anc g x x
| anc_step x a : x <> 0%nat -> anc g (gpar g x) a -> anc g x a.

(** Length of the string at which the active point stands. *)
Definition pdepth (t : SuffixTree) (g : ghost) : Z :=
  gdep g (active_node t) + active_length t.

(** The suffix link of an internal node leads to the node whose string is
    the node's string without its first symbol; internal nodes without a
    link are the one still waiting for it, or have a string of length 1. *)
Definition link_ok (t : SuffixTree) (g : ghost) (x : nat)
  (nx : SuffixTreeNode) : Prop :=
  match suffix_link nx with
  | Some l =>
      (l = 0%nat \/ (gnode t g l /\ internal t l)) /\
      gdep g l = gdep g x - 1 /\
      (l <> 0%nat -> eqs t (ghd g l) (ghd g x + 1) (gdep g l))
  | None => last_new_node t = Some x \/ gdep g x = 1
  end.

(** The invariant of the [while] loop of phase [pos]. [delta] is 1 in the
    phase that [make_explicit] runs (its counter is one too high) and 0
    otherwise; [sh] tells whether the active point has been shifted one
    symbol to the left by line 107 using that counter. The active point
    stands at the string of length [pdepth] that starts at text position
    [J = pos - sh - pdepth]. *)
Record inv (pos delta sh : Z) (t : SuffixTree) (g : ghost) : Prop := {
  iv_store : store_ok t g;
  iv_pos : leaf_end t = pos;
  iv_flags : 0 <= sh /\ sh <= delta /\ delta <= 1;
  iv_complete : complete t g pos;
  iv_an : active_node t = 0%nat \/
          (gnode t g (active_node t) /\ internal t (active_node t) /\
           eqs t (ghd g (active_node t)) (pos - sh - pdepth t g)
             (gdep g (active_node t)));
  iv_al : 0 <= active_length t;
  iv_pd : pdepth t g = remaining_suffix_count t - 1 - delta;
  iv_J : 0 <= pos - sh - pdepth t g;
  iv_ae : 0 < active_length t ->
          active_edge t = pos - sh - pdepth t g + gdep g (active_node t);
  iv_nojunk : sh = 0 -> forall x, gjk g x = false;
  iv_leaves : delta = 0 -> forall i, 0 <= i < pos - sh - pdepth t g ->
      exists x nx, gnode t g x /\ nodes t !! x = Some nx /\
        end_ nx = EndLeaf /\ ghd g x = i;
  iv_leafdep : forall x nx, (1 <= x)%nat -> nodes t !! x = Some nx ->
      end_ nx = EndLeaf -> pdepth t g + 2 <= gdep g x;
  iv_count : Z.of_nat (opens (nodes t)) = pos - pdepth t g;
  iv_links : forall x nx e, (1 <= x)%nat -> nodes t !! x = Some nx ->
      end_ nx = EndInt e -> (delta = 0 \/ gdep g x <= pdepth t g) ->
      link_ok t g x nx;
  iv_pending : forall v, last_new_node t = Some v ->
      exists nv e, (1 <= v)%nat /\ nodes t !! v = Some nv /\
        end_ nv = EndInt e /\ gdep g v = pdepth t g + 1 /\
        (delta = 0 ->
           eqs t (ghd g v + 1) (pos - sh - pdepth t g) (pdepth t g) /\
           exists y ny, gnode t g y /\ nodes t !! y = Some ny /\
             gpar g y = v /\ ghd g y + pdepth t g + 2 <= pos /\
             chr t (start ny) <> chr t pos)
}.

(** The state between phases, [P] symbols having been processed. *)
Record ready (P : Z) (t : SuffixTree) (g : ghost) : Prop := {
  rd_store : store_ok t g;
  rd_pos : leaf_end t = P - 1;
  rd_complete : complete t g P;
  rd_an : active_node t = 0%nat \/
          (gnode t g (active_node t) /\ internal t (active_node t) /\
           eqs t (ghd g (active_node t)) (P - pdepth t g)
             (gdep g (active_node t)));
  rd_al : 0 <= active_length t;
  rd_pd : pdepth t g = remaining_suffix_count t;
  rd_J : 0 <= P - pdepth t g;
  rd_ae : 0 < active_length t ->
          active_edge t = P - pdepth t g + gdep g (active_node t);
  rd_nojunk : forall x, gjk g x = false;
  rd_leaves : forall i, 0 <= i < P - pdepth t g ->
      exists x nx, gnode t g x /\ nodes t !! x = Some nx /\
        end_ nx = EndLeaf /\ ghd g x = i;
  rd_leafdep : forall x nx, (1 <= x)%nat -> nodes t !! x = Some nx ->
      end_ nx = EndLeaf -> pdepth t g + 1 <= gdep g x;
  rd_count : Z.of_nat (opens (nodes t)) = P - pdepth t g;
  rd_links : forall x nx e, (1 <= x)%nat -> nodes t !! x = Some nx ->
      end_ nx = EndInt e ->
      match suffix_link nx with
      | Some l =>
          (l = 0%nat \/ (gnode t g l /\ internal t l)) /\
          gdep g l = gdep g x - 1 /\
          (l <> 0%nat -> eqs t (ghd g l) (ghd g x + 1) (gdep g l))
      | None => gdep g x = 1
      end
}.

(** The state after an insertion, before the counter is decremented and
    the active point updated. *)
Record mid (pos delta sh : Z) (t : SuffixTree) (g : ghost) : Prop := {
  md_store : store_ok t g;
  md_pos : leaf_end t = pos;
  md_flags : 0 <= sh /\ sh <= delta /\ delta <= 1;
  md_complete : complete t g pos;
  md_an : active_node t = 0%nat \/
          (gnode t g (active_node t) /\ internal t (active_node t) /\
           eqs t (ghd g (active_node t)) (pos - sh - pdepth t g)
             (gdep g (active_node t)));
  md_al : 0 <= active_length t;
  md_pd : pdepth t g = remaining_suffix_count t - 1 - delta;
  md_J : 0 <= pos - sh - pdepth t g;
  md_ae : 0 < active_length t ->
          active_edge t = pos - sh - pdepth t g + gdep g (active_node t);
  md_nojunk : sh = 0 -> forall x, gjk g x = false;
  md_leaves : delta = 0 -> forall i, 0 <= i < pos - sh - pdepth t g + 1 ->
      exists x nx, gnode t g x /\ nodes t !! x = Some nx /\
        end_ nx = EndLeaf /\ ghd g x = i;
  md_leafdep : forall x nx, (1 <= x)%nat -> nodes t !! x = Some nx ->
      end_ nx = EndLeaf -> pdepth t g + 1 <= gdep g x;
  md_count : Z.of_nat (opens (nodes t)) = pos - pdepth t g + 1;
  md_links : forall x nx e, (1 <= x)%nat -> nodes t !! x = Some nx ->
      end_ nx = EndInt e -> (delta = 0 \/ gdep g x <= pdepth t g) ->
      link_ok t g x nx;
  md_pending : forall v, last_new_node t = Some v ->
      exists nv e, (1 <= v)%nat /\ nodes t !! v = Some nv /\
        end_ nv = EndInt e /\ gdep g v = pdepth t g /\
        v <> active_node t /\
        (delta = 0 ->
           eqs t (ghd g v + 1) (pos - sh - pdepth t g + 1) (pdepth t g - 1) /\
           exists y ny, gnode t g y /\ nodes t !! y = Some ny /\
             gpar g y = v /\ ghd g y + pdepth t g + 1 <= pos /\
             chr t (start ny) <> chr t pos);
  md_new : pdepth t g = 0 ->
      exists nr cur x nx, nodes t !! 0%nat = Some nr /\
        chr t pos = Some cur /\ dict_get cur (children nr) = Some x /\
        nodes t !! x = Some nx /\ start nx = pos /\ end_ nx = EndLeaf
}.

(** The state in which the phase of [make_explicit] makes its last pass
    through the loop: all suffixes have their leaves, and the counter is
    still 1. *)
Record last_pass (pos : Z) (t : SuffixTree) (g : ghost) : Prop := {
  lp_store : store_ok t g;
  lp_pos : leaf_end t = pos;
  lp_an : active_node t = 0%nat;
  lp_al : active_length t = 0;
  lp_rem : remaining_suffix_count t = 1;
  lp_count : Z.of_nat (opens (nodes t)) = pos + 1;
  lp_new : exists nr cur x nx, nodes t !! 0%nat = Some nr /\
        chr t pos = Some cur /\ dict_get cur (children nr) = Some x /\
        nodes t !! x = Some nx /\ start nx = pos /\ end_ nx = EndLeaf
}.

(** [relink o l ns]: the node behind [o], if any, gets suffix link [l]. *)
Definition relink (o : option nat) (l : option nat)
  (ns : list SuffixTreeNode) : list SuffixTreeNode :=
  match o with
  | Some h => alter (node_set_suffix_link l) h ns
  | None => ns
  end.

(** Two states with the same store, text and leaf end. *)
Definition same_store (t t' : SuffixTree) : Prop :=
  nodes t' = nodes t /\ text t' = text t /\ size t' = size t /\
  root t' = root t /\ leaf_end t' = leaf_end t.

(** [t'] has the nodes of [t] up to their suffix links, and the same text
    and leaf end. *)
Definition same_edges (t t' : SuffixTree) : Prop :=
  (forall x, nodes t' !! x = None <-> nodes t !! x = None) /\
  (forall x n n', nodes t !! x = Some n -> nodes t' !! x = Some n' ->
     children n' = children n /\ start n' = start n /\ end_ n' = end_ n) /\
  text t' = text t /\ size t' = size t /\ root t' = root t /\
  leaf_end t' = leaf_end t.

(** The node that [stop_phase] links to the active node, if any. *)
Definition stop_linked (t : SuffixTree) : option nat :=
  if negb (active_node t =? root t)%nat then last_new_node t else None.

(** [t1] keeps the nodes of [t] with their edge ends, and their suffix
    links but for the pending node; the ghost [g1] agrees with [g] on
    them. *)
Record grows (t t1 : SuffixTree) (g g1 : ghost) : Prop := {
  gw_text : text t1 = text t;
  gw_size : size t1 = size t;
  gw_root : root t1 = root t;
  gw_leaf_end : leaf_end t1 = leaf_end t;
  gw_old : forall x nx, nodes t !! x = Some nx ->
      exists nx', nodes t1 !! x = Some nx' /\ end_ nx' = end_ nx /\
        (last_new_node t <> Some x -> suffix_link nx' = suffix_link nx);
  gw_dep : forall x, (x < length (nodes t))%nat -> gdep g1 x = gdep g x;
  gw_hd : forall x, (x < length (nodes t))%nat -> ghd g1 x = ghd g x;
  gw_jk : forall x, (x < length (nodes t))%nat -> gjk g1 x = gjk g x
}.

(** The ghost of the new leaf: it hangs below the active node; in the
    shifted part of the final phase it is not where its string is. *)
Definition leaf_ghost (pos sh : Z) (t : SuffixTree) (g : ghost) : ghost :=
  let N := length (nodes t) in
  {| gpar := fun x => if decide (x = N) then active_node t else gpar g x;
     gdep := fun x => if decide (x = N) then pdepth t g + 1 else gdep g x;
     ghd := fun x => if decide (x = N) then pos - pdepth t g else ghd g x;
     gjk := fun x => if decide (x = N) then sh =? 1 else gjk g x |}.

(** The state in which [split_edge] ends. *)
Definition split_state (pos : Z) (cur c2 c3 : ascii) (next : nat)
  (nn : SuffixTreeNode) (t : SuffixTree) : SuffixTree :=
  set_last_new_node (Some (length (nodes t)))
    (set_nodes (split_nodes pos cur c2 c3 next nn t) t).

(** The ghost of the split node, of the new leaf below it, and of the
    node [next] that now hangs below the split node. *)
Definition split_ghost (pos sh : Z) (next : nat) (t : SuffixTree) (g : ghost)
  : ghost :=
  let N := length (nodes t) in
  {| gpar := fun x =>
       if decide (x = N) then active_node t
       else if decide (x = S N) then N
       else if decide (x = next) then N else gpar g x;
     gdep := fun x =>
       if decide (x = N) then pdepth t g
       else if decide (x = S N) then pdepth t g + 1 else gdep g x;
     ghd := fun x =>
       if decide (x = N) then ghd g next
       else if decide (x = S N) then pos - pdepth t g else ghd g x;
     gjk := fun x =>
       if decide (x = N) then false
       else if decide (x = S N) then sh =? 1 else gjk g x |}.

(** The symbol at [pos] does not occur before [pos]. *)
Definition fresh_at (s : list ascii) (pos : Z) : Prop :=
  forall i, 0 <= i < pos -> py_index s i <> py_index s pos.

(** What a pass through the loop body of phase [pos] leads to, from a
    state [t] to a state [t'] described by the ghost [g']. *)
Definition pass_post (pos delta sh : Z) (t : SuffixTree) (g : ghost)
  (e : loop_exit) (t' : SuffixTree) (g' : ghost) : Prop :=
  match e with
  | Continue =>
      g' = g /\ inv pos delta sh t' g /\
      active_length t' < active_length t /\
      remaining_suffix_count t' = remaining_suffix_count t
  | Break =>
      store_ok t' g' /\ (delta = 0 -> ready (pos + 1) t' g') /\
      ~ fresh_at (text t) pos
  | Inserted =>
      remaining_suffix_count t' = remaining_suffix_count t - 1 /\
      active_length t' <= active_length t /\
      ((exists sh', inv pos delta sh' t' g') \/
       (remaining_suffix_count t' = delta /\
        (delta = 0 -> ready (pos + 1) t' g') /\
        (delta = 1 -> last_pass pos t' g')))
  end.

(** What the loop of phase [pos] ends in; [s] is the text. *)
Definition phase_post (pos delta : Z) (s : list ascii) (t' : SuffixTree)
  (g' : ghost) : Prop :=
  store_ok t' g' /\ text t' = s /\
  (delta = 0 -> ready (pos + 1) t' g') /\
  (delta = 1 -> fresh_at s pos ->
     Z.of_nat (opens (nodes t')) = pos + 1 /\
     exists nr cur x nx, nodes t' !! 0%nat = Some nr /\
       chr t' pos = Some cur /\ dict_get cur (children nr) = Some x /\
       nodes t' !! x = Some nx /\ start nx = pos /\ end_ nx = EndLeaf).

Definition open_at (t : SuffixTree) (x : nat) : bool :=
  match nodes t !! x with Some n => is_open n | None => false end.

(** The store of [leaf_end] makes every open edge one symbol longer. *)
Definition open_ghost (t : SuffixTree) (g : ghost) : ghost :=
  {| gpar := gpar g;
     gdep := fun x => gdep g x + (if open_at t x then 1 else 0);
     ghd := ghd g;
     gjk := gjk g |}.

(** The ghost of the tree of [__init__]: there is the root only. *)
Definition init_ghost : ghost :=
  {| gpar := fun _ => 0%nat; gdep := fun _ => 0; ghd := fun _ => 0;
     gjk := fun _ => false |}.

(** Every node with children, the root apart, has at least two. *)
Definition branching (t : SuffixTree) : Prop :=
  forall h, h <> root t -> is_internal t h -> (2 <= length (kids t h))%nat.

(** C2 as the specification states it, for every input sequence. *)
Definition leaf_count_claim : Prop :=
  forall fuel s t, build_explicit fuel s = Ok t ->
    leaf_count t = S (length s).

(** ** Definitions for the further properties *)

(** ** Strings read along paths *)

(** [s[a : a + d]] for [0 <= a] and [0 <= d]. *)
Definition seg (s : list ascii) (a d : Z) : list ascii :=
  take (Z.to_nat d) (drop (Z.to_nat a) s).

(** [path_label t u h w]: [h] is reached from [u] along child edges, and
    the edge labels on the way, as [_print_tree] and [visualize] compute
    them, concatenate to [w]. *)
Inductive path_label (t : SuffixTree) (u : handle)
  : handle -> list ascii -> Prop :=
| label_here : path_label t u u []
| label_step p c cn w :
    path_label t u p w ->
    c ∈ kids t p ->
    nodes t !! c = Some cn ->
    path_label t u c (w ++ edge_label t cn).

(** [w] occurs in [s]. *)
Definition substring (w s : list ascii) : Prop :=
  exists pre post, s = pre ++ w ++ post.

(** Every node other than the root is listed as a child. *)
Definition attached (t : SuffixTree) : Prop :=
  forall h, (1 <= h < length (nodes t))%nat -> exists p, h ∈ kids t p.

(** The edge into each node other than the root is a non-empty piece of
    the text; open edges run up to the last symbol, closed ones end
    before it; and [children[k]] is a node whose edge starts with [k]. *)
Definition edges_in_text (t : SuffixTree) : Prop :=
  (forall h n, h <> root t -> nodes t !! h = Some n ->
     0 <= start n /\ 1 <= edge_length t n /\
     start n + edge_length t n <= size t /\
     (children n = [] -> start n + edge_length t n = size t) /\
     (children n <> [] -> start n + edge_length t n < size t)) /\
  (forall p np k c, nodes t !! p = Some np ->
     dict_get k (children np) = Some c ->
     exists nc, nodes t !! c = Some nc /\
       py_index (text t) (start nc) = Some k).

(** ** [SuffixTree._print_tree] *)

(** [' ' * n] *)
Definition spaces (n : Z) : list ascii := replicate (Z.to_nat n) " "%char.

(** The [for child in node.children.values()] loop of [_print_tree];
    [visit] is the recursive call. The result is the list of the lines
    that are printed, in order. *)
Fixpoint print_children
  (visit : handle -> Z -> result (list (list ascii)))
  (t : SuffixTree) (indent : Z) (cs : list handle)
  : result (list (list ascii)) :=
  match cs with
  | [] => Ok []
  | child :: cs =>
      match nodes t !! child with
      | None => Err BadHandle
      | Some cn =>
          let line := spaces indent ++ edge_label t cn in
          match visit child (indent + 4) with
          | Ok sub =>
              match print_children visit t indent cs with
              | Ok rest => Ok (line :: sub ++ rest)
              | Err e => Err e
              end
          | Err e => Err e
          end
      end
  end.

(** [SuffixTree._print_tree(node, indent)] *)
Fixpoint _print_tree (fuel : nat) (t : SuffixTree) (node : handle)
  (indent : Z) : result (list (list ascii)) :=
  match fuel with
  | O => Err OutOfFuel
  | S fuel =>
      match nodes t !! node with
      | None => Err BadHandle
      | Some n =>
          print_children (fun c i => _print_tree fuel t c i) t indent
            (dict_values (children n))
      end
  end.

(** [depth_of t h d]: [h] is [d] child edges below the root. *)
Inductive depth_of (t : SuffixTree) : handle -> nat -> Prop :=
| depth_root : depth_of t (root t) 0
| depth_child p c d : depth_of t p d -> c ∈ kids t p -> depth_of t c (S d).

(** The line that [_print_tree] prints for the edge into [h], which is
    [S d] edges below the root. *)
Definition printed_for (t : SuffixTree) (line : list ascii)
  (hd : handle * nat) : Prop :=
  exists nh, nodes t !! hd.1 = Some nh /\ depth_of t hd.1 (S hd.2) /\
    line = spaces (4 * Z.of_nat hd.2) ++ edge_label t nh.

(** [_print_tree(root)] returns, and prints one line for each node other
    than the root: in some order, lines and nodes match. *)
Definition prints_every_edge (t : SuffixTree) : Prop :=
  exists fuel0, forall fuel, (fuel0 <= fuel)%nat ->
    exists lines order,
      _print_tree fuel t (root t) 0 = Ok lines /\
      Forall2 (printed_for t) lines order /\
      order.*1 ≡ₚ seq 1 (length (nodes t) - 1).

(** The [label_length] that [set_suffix_index_by_dfs] accumulates on the
    way to a node is the length of the string that the edge labels spell
    on that way. *)
Definition lengths_agree (t : SuffixTree) : Prop :=
  forall h w, path_label t (root t) h w ->
    path_length t (root t) h (Z.of_nat (length w)).

(** * Lemmas and theorems *)

Lemma lookup_update_node_eq h f t :
  nodes (update_node h f t) !! h = f <$> nodes t !! h.
Proof. apply list_lookup_alter_eq. Qed.

Lemma lookup_update_node_ne h f t x :
  h <> x -> nodes (update_node h f t) !! x = nodes t !! x.
Proof. intros. by apply list_lookup_alter_ne. Qed.

Lemma length_update_node h f t :
  length (nodes (update_node h f t)) = length (nodes t).
Proof. apply length_alter. Qed.

Lemma length_alloc n t :
  length (nodes (alloc n t).2) = S (length (nodes t)).
Proof. cbn. rewrite length_app. cbn. lia. Qed.

Lemma length_link_last_new_node target t :
  length (nodes (link_last_new_node target t)) = length (nodes t).
Proof.
  unfold link_last_new_node. destruct (last_new_node t); [|done].
  cbn. apply length_alter.
Qed.

Lemma active_node_link_last_new_node target t :
  active_node (link_last_new_node target t) = active_node t.
Proof. unfold link_last_new_node. by destruct (last_new_node t). Qed.

Lemma length_add_leaf pos c t :
  length (nodes (add_leaf pos c t)) = S (length (nodes t)).
Proof.
  unfold add_leaf. cbn -[link_last_new_node].
  rewrite length_link_last_new_node. cbn. rewrite length_alter, length_app. cbn. lia.
Qed.

Lemma active_node_add_leaf pos c t :
  active_node (add_leaf pos c t) = active_node t.
Proof. unfold add_leaf. cbn -[link_last_new_node]. by rewrite active_node_link_last_new_node. Qed.

Lemma split_edge_active_node pos cur c2 nx nn t t' :
  split_edge pos cur c2 nx nn t = Ok t' ->
  active_node t' = active_node t /\ (length (nodes t) <= length (nodes t'))%nat.
Proof.
  unfold split_edge. cbn.
  repeat case_match; try discriminate; intros [= <-]; cbn;
    rewrite ?length_alter, ?length_app, ?length_alter, ?length_app; cbn; split; try done; lia.
Qed.

Lemma extend_insert_inserted_valid pos t ti :
  extend_insert pos t = Ok (Inserted, ti) ->
  (active_node ti < length (nodes ti))%nat.
Proof.
  unfold extend_insert.
  set (t0 := if active_length t =? 0 then set_active_edge pos t else t).
  destruct (py_index (text t0) (active_edge t0)) as [c|]; [|discriminate].
  destruct (nodes t0 !! active_node t0) as [an|] eqn:Han; [|discriminate].
  apply lookup_lt_Some in Han.
  destruct (dict_get c (children an)) as [nx|].
  - destruct (nodes t0 !! nx) as [nn|]; [|discriminate].
    case_match; [discriminate|].
    repeat case_match; try discriminate.
    intros [= <-].
    match goal with H : split_edge _ _ _ _ _ _ = Ok _ |- _ =>
      apply split_edge_active_node in H as [-> ?] end. lia.
  - intros [= <-]. rewrite active_node_add_leaf, length_add_leaf. lia.
Qed.

(** C7. After an insertion (new leaf or split) the loop body decrements the
    counter and then updates the active point by the rules of section 4.2:
    at the root with a positive active length, the length drops by one and
    the active edge becomes [pos - remaining_suffix_count + 1]; away from
    the root, the active node follows its suffix link (the root when there
    is none) and edge and length stay; otherwise nothing moves. Nothing
    else of the tree changes in the update, and the update does not fail. *)
Theorem active_point_update_rules pos t ti :
  extend_insert pos t = Ok (Inserted, ti) ->
  let tm := set_remaining_suffix_count (remaining_suffix_count ti - 1) ti in
  exists t',
    extend_body pos t = Ok (Inserted, t') /\
    active_point_rules pos tm t' /\
    nodes t' = nodes tm /\
    remaining_suffix_count t' = remaining_suffix_count tm /\
    last_new_node t' = last_new_node tm /\
    leaf_end t' = leaf_end tm /\
    text t' = text tm.
Proof.
  intros Hins tm. unfold extend_body. rewrite Hins.
  pose proof (extend_insert_inserted_valid _ _ _ Hins) as Hv.
  fold tm. unfold update_active_point.
  destruct (nodes tm !! active_node tm) as [an|] eqn:Han.
  2:{ apply lookup_ge_None in Han. subst tm. cbn in Han. lia. }
  assert (Hrt : root tm = root ti) by done.
  assert (Hat : active_node tm = active_node ti) by done.
  assert (Hlt : active_length tm = active_length ti) by done.
  destruct (Nat.eqb_spec (active_node tm) (root tm)) as [Hr|Hr]; cbn [andb negb].
  - destruct (Z.gtb_spec (active_length tm) 0) as [Hl|Hl];
      (eexists; split; [reflexivity|]);
      (split; [|by repeat split]);
      unfold active_point_rules; cbn; rewrite Hrt, Hat, Hlt in *;
      (split; [|split]); intros; try (exfalso; tauto); try (exfalso; lia); auto.
  - eexists; split; [reflexivity|].
    split; [|by repeat split].
    unfold active_point_rules; cbn; rewrite Hrt, Hat in *.
    split; [|split]; intros; try (exfalso; tauto).
    cbn in Han. by rewrite Han.
Qed.

Lemma same_globals_refl t : same_globals t t.
Proof. by repeat split. Qed.

Lemma same_globals_trans t1 t2 t3 :
  same_globals t1 t2 -> same_globals t2 t3 -> same_globals t1 t3.
Proof. unfold same_globals. intros (?&?&?&?&?) (?&?&?&?&?). repeat split; congruence. Qed.

Lemma link_last_new_node_globals target t :
  same_globals t (link_last_new_node target t).
Proof. unfold link_last_new_node. destruct (last_new_node t); by repeat split. Qed.

Lemma add_leaf_globals pos c t : same_globals t (add_leaf pos c t).
Proof.
  unfold add_leaf. cbn -[link_last_new_node].
  eapply same_globals_trans; [|apply link_last_new_node_globals]. by repeat split.
Qed.

Lemma stop_phase_globals t : same_globals t (stop_phase t).
Proof.
  unfold stop_phase. destruct (negb _); [|by repeat split].
  eapply same_globals_trans; [apply (link_last_new_node_globals (active_node t))|].
  by repeat split.
Qed.

Lemma split_edge_globals pos cur c2 nx nn t t' :
  split_edge pos cur c2 nx nn t = Ok t' -> same_globals t t'.
Proof.
  unfold split_edge. cbn.
  repeat case_match; try discriminate; intros [= <-]; by repeat split.
Qed.

Lemma extend_insert_globals pos t r ti :
  extend_insert pos t = Ok (r, ti) -> same_globals t ti.
Proof.
  unfold extend_insert.
  set (t0 := if active_length t =? 0 then set_active_edge pos t else t).
  assert (H0 : same_globals t t0).
  { subst t0. destruct (_ =? _); by repeat split. }
  intros H. eapply same_globals_trans; [exact H0|]. clear H0. revert H.
  generalize t0. clear t0 t. intros t.
  repeat case_match; try discriminate; intros [= <- <-].
  - by repeat split.
  - apply stop_phase_globals.
  - by eapply split_edge_globals.
  - apply add_leaf_globals.
Qed.

Lemma update_active_point_globals pos t t' :
  update_active_point pos t = Ok t' -> same_globals t t'.
Proof.
  unfold update_active_point.
  repeat case_match; try discriminate; intros [= <-]; by repeat split.
Qed.

Lemma extend_body_globals pos t r t' :
  extend_body pos t = Ok (r, t') -> same_globals t t'.
Proof.
  unfold extend_body.
  destruct (extend_insert pos t) as [[[] ti]|] eqn:Hi; try discriminate.
  - intros [= <- <-]. by eapply extend_insert_globals.
  - intros [= <- <-]. by eapply extend_insert_globals.
  - destruct (update_active_point _ _) as [tu|] eqn:Hu; [|discriminate].
    intros [= <- <-].
    eapply same_globals_trans; [by eapply extend_insert_globals|].
    eapply same_globals_trans; [|by eapply update_active_point_globals].
    by repeat split.
Qed.

Lemma extend_loop_globals fuel pos t t' :
  extend_loop fuel pos t = Ok t' -> same_globals t t'.
Proof.
  revert t. induction fuel as [|fuel IH]; intros t; cbn.
  - destruct (_ >? _); [discriminate|]. intros [= <-]. apply same_globals_refl.
  - destruct (_ >? _); [|intros [= <-]; apply same_globals_refl].
    destruct (extend_body pos t) as [[r tb]|] eqn:Hb; [|discriminate].
    apply extend_body_globals in Hb.
    destruct r; intros H.
    + eapply same_globals_trans; [exact Hb|]. by apply IH.
    + injection H as <-. exact Hb.
    + eapply same_globals_trans; [exact Hb|]. by apply IH.
Qed.

(** A phase stores to the shared [leaf_end] once, first thing, and that
    store is the phase position. *)
Lemma phase_writes_leaf_end_once fuel pos t t' :
  _extend_suffix_tree fuel pos t = Ok t' ->
  leaf_end_writes t' = leaf_end_writes t ++ [pos] /\ leaf_end t' = pos.
Proof.
  unfold _extend_suffix_tree. intros H.
  apply extend_loop_globals in H as (_&_&_&Hl&Hw).
  rewrite Hl, Hw. done.
Qed.

Lemma make_explicit_writes_leaf_end_twice fuel t t' :
  make_explicit fuel t = Ok t' ->
  leaf_end_writes t' = leaf_end_writes t ++ [size t; size t].
Proof.
  unfold make_explicit. intros H.
  apply phase_writes_leaf_end_once in H as [-> _]. cbn.
  by rewrite <- app_assoc.
Qed.

Lemma make_explicit_appends_terminator fuel t t' :
  make_explicit fuel t = Ok t' ->
  text t' = text t ++ [terminator] /\ size t' = size t + 1.
Proof.
  unfold make_explicit, _extend_suffix_tree. intros H.
  apply extend_loop_globals in H as (Ht&Hs&_). by rewrite Ht, Hs.
Qed.

(** ** Frame of the suffix-index traversal *)

Lemma same_shape_refl t : same_shape t t.
Proof.
  unfold same_shape. repeat split; try done. intros h n Hn. by exists n.
Qed.

Lemma same_shape_trans t1 t2 t3 :
  same_shape t1 t2 -> same_shape t2 t3 -> same_shape t1 t3.
Proof.
  intros (Hg1&?&?&?&?&?&?&Hn1) (Hg2&?&?&?&?&?&?&Hn2).
  split; [by eapply same_globals_trans|].
  repeat split; try congruence.
  intros h n Hn. destruct (Hn1 _ _ Hn) as (n'&Hn'&?&?&?&?).
  destruct (Hn2 _ _ Hn') as (n''&Hn''&?&?&?&?).
  exists n''. repeat split; congruence.
Qed.

Lemma same_shape_sym t t' : same_shape t t' -> same_shape t' t.
Proof.
  intros ((?&?&?&?&?)&?&?&?&?&?&Hlen&Hn).
  repeat split; try congruence.
  intros h n' Hn'.
  destruct (nodes t !! h) as [n|] eqn:E.
  - destruct (Hn _ _ E) as (n2&Hn2&?&?&?&?).
    exists n. rewrite Hn' in Hn2. injection Hn2 as <-. by repeat split.
  - apply lookup_ge_None in E. apply lookup_lt_Some in Hn'. lia.
Qed.

Lemma same_shape_kids t t' h : same_shape t t' -> kids t' h = kids t h.
Proof.
  intros (_&_&_&_&_&_&Hlen&Hn). unfold kids.
  destruct (nodes t !! h) as [n|] eqn:E.
  - destruct (Hn _ _ E) as (n'&E'&Hc&_). rewrite E'. by rewrite Hc.
  - apply lookup_ge_None in E. rewrite <- Hlen in E.
    apply lookup_ge_None in E. by rewrite E.
Qed.

Lemma same_shape_edge_length t t' h n n' :
  same_shape t t' -> nodes t !! h = Some n -> nodes t' !! h = Some n' ->
  edge_length t' n' = edge_length t n.
Proof.
  intros ((_&_&_&Hle&_)&_&_&_&_&_&_&Hn) E E'.
  destruct (Hn _ _ E) as (n2&E2&_&_&Hs&He).
  rewrite E' in E2. injection E2 as <-.
  unfold edge_length. by rewrite Hs, He, Hle.
Qed.

Lemma same_shape_lookup t t' h n :
  same_shape t t' -> nodes t !! h = Some n ->
  exists n', nodes t' !! h = Some n' /\ children n' = children n.
Proof.
  intros (_&_&_&_&_&_&_&Hn) E. destruct (Hn _ _ E) as (n'&?&?&_). eauto.
Qed.

Lemma same_shape_path t t' u h L :
  same_shape t t' -> path_length t u h L -> path_length t' u h L.
Proof.
  intros Hs. induction 1 as [|p c cn L Hp IH Hc Hn].
  - constructor.
  - destruct (same_shape_lookup _ _ _ _ Hs Hn) as (cn'&Hn'&_).
    rewrite <- (same_shape_edge_length _ _ _ _ _ Hs Hn Hn').
    econstructor; eauto. by rewrite (same_shape_kids _ _ _ Hs).
Qed.

Lemma same_shape_is_leaf t t' h :
  same_shape t t' -> is_leaf t h -> is_leaf t' h.
Proof.
  intros Hs (n&Hn&Hc). destruct (same_shape_lookup _ _ _ _ Hs Hn) as (n'&?&Hc').
  exists n'. split; [done|congruence].
Qed.

Lemma same_shape_index_of_some t t' h :
  same_shape t t' -> is_Some (index_of t h) -> is_Some (index_of t' h).
Proof.
  unfold index_of. intros Hs [i Hi].
  destruct (nodes t !! h) as [n|] eqn:E; [|done].
  destruct (same_shape_lookup _ _ _ _ Hs E) as (n'&->&_). by eexists.
Qed.

Lemma only_leaf_index_changed_refl t : only_leaf_index_changed t t.
Proof.
  split; [apply same_shape_refl|]. intros h n n' E E' _. congruence.
Qed.

Lemma only_leaf_index_changed_trans t1 t2 t3 :
  only_leaf_index_changed t1 t2 -> only_leaf_index_changed t2 t3 ->
  only_leaf_index_changed t1 t3.
Proof.
  intros [Hs1 Hi1] [Hs2 Hi2]. split; [by eapply same_shape_trans|].
  intros h n n'' E E'' Hc.
  destruct (same_shape_lookup _ _ _ _ Hs1 E) as (n'&E'&Hc').
  rewrite (Hi2 h n' n'' E' E''), (Hi1 h n n' E E'); [done|done|congruence].
Qed.

Lemma set_index_only_leaf h n i t :
  nodes t !! h = Some n -> children n = [] ->
  only_leaf_index_changed t (update_node h (node_set_index i) t).
Proof.
  intros E Hc. split.
  - repeat split; try done.
    + cbn. apply length_alter.
    + intros x m Hm. destruct (decide (h = x)) as [->|Hne].
      * rewrite lookup_update_node_eq, Hm. cbn. eexists. by repeat split.
      * rewrite lookup_update_node_ne by done. exists m. by repeat split.
  - intros x m m' Hm Hm' Hne.
    destruct (decide (h = x)) as [->|Hx].
    + congruence.
    + rewrite lookup_update_node_ne in Hm' by done. congruence.
Qed.

Lemma visit_children_frame visit :
  (forall c l t t', visit c l t = Ok t' -> only_leaf_index_changed t t') ->
  forall cs l t t',
    visit_children visit l cs t = Ok t' -> only_leaf_index_changed t t'.
Proof.
  intros Hv cs l. induction cs as [|c cs IH]; intros t t'; cbn.
  - intros [= <-]. apply only_leaf_index_changed_refl.
  - destruct (nodes t !! c) as [cn|]; [|discriminate].
    destruct (visit c _ t) as [t1|] eqn:E1; [|discriminate].
    intros H. eapply only_leaf_index_changed_trans; eauto.
Qed.

Lemma dfs_frame fuel node l t t' :
  set_suffix_index_by_dfs fuel node l t = Ok t' ->
  only_leaf_index_changed t t'.
Proof.
  revert node l t t'. induction fuel as [|fuel IH]; intros node l t t'; cbn.
  - discriminate.
  - destruct node as [h|]; [|intros [= <-]; apply only_leaf_index_changed_refl].
    destruct (nodes t !! h) as [n|] eqn:E; [|discriminate].
    destruct (Nat.eqb_spec (length (children n)) 0) as [Hc|Hc].
    + intros [= <-]. apply (set_index_only_leaf h n); [done|].
      by apply nil_length_inv.
    + apply visit_children_frame. intros c l' t1 t2. apply IH.
Qed.

(** ** What the traversal writes *)

Lemma path_cons t u c cn h L :
  c ∈ kids t u -> nodes t !! c = Some cn ->
  path_length t c h L -> path_length t u h (edge_length t cn + L).
Proof.
  intros Hc Hn. induction 1 as [|p x xn L Hp IH Hx Hxn].
  - replace (edge_length t cn + 0) with (0 + edge_length t cn) by lia.
    econstructor; eauto. constructor.
  - rewrite Z.add_assoc. econstructor; eauto.
Qed.

Lemma path_inv t u h L :
  path_length t u h L ->
  (h = u /\ L = 0) \/
  exists c cn L', c ∈ kids t u /\ nodes t !! c = Some cn /\
    path_length t c h L' /\ L = edge_length t cn + L'.
Proof.
  induction 1 as [|p x xn L Hp IH Hx Hxn].
  - by left.
  - right. destruct IH as [[-> ->]|(c&cn&L'&Hc&Hn&Hp'&->)].
    + exists x, xn, 0. repeat split; try done; [constructor|lia].
    + exists c, cn, (L' + edge_length t xn). repeat split; try done; [|lia].
      econstructor; eauto.
Qed.

Lemma visit_children_writes visit u l t0 :
  (forall c l' t t', same_shape t0 t ->
     visit c l' t = Ok t' -> writes_ok c l' t t t') ->
  (forall c l' t t', visit c l' t = Ok t' -> only_leaf_index_changed t t') ->
  forall cs t t',
    same_shape t0 t -> (forall c, c ∈ cs -> c ∈ kids t0 u) ->
    visit_children visit l cs t = Ok t' -> writes_ok u l t0 t t'.
Proof.
  intros Hw Hf cs. induction cs as [|c cs IH]; intros t t' Hs Hin; cbn.
  - intros [= <-] h. by left.
  - destruct (nodes t !! c) as [cn|] eqn:Ecn; [|discriminate].
    destruct (visit c _ t) as [t1|] eqn:E1; [|discriminate].
    intros H.
    pose proof (Hf _ _ _ _ E1) as [Hs1 _].
    assert (Hs01 : same_shape t0 t1) by (by eapply same_shape_trans).
    specialize (IH t1 t' Hs01 (fun x Hx => Hin x (list_elem_of_further _ _ _ Hx)) H).
    intros h. destruct (IH h) as [Heq|Hnew]; [|by right].
    rewrite Heq.
    destruct (Hw _ _ _ _ Hs E1 h) as [Heq1|(Hl&L&Hp&Hi)]; [by left|right].
    pose proof (same_shape_sym _ _ Hs) as Hs'.
    split; [by eapply same_shape_is_leaf|].
    destruct (same_shape_lookup _ _ _ _ Hs' Ecn) as (cn0&Ecn0&_).
    exists (edge_length t0 cn0 + L). split.
    + eapply (path_cons t0 u c cn0);
        [apply Hin; left|exact Ecn0|by eapply same_shape_path].
    + rewrite Hi. destruct Hs as ((_&Hsz&_)&_).
      rewrite (same_shape_edge_length _ _ _ _ _ Hs' Ecn Ecn0), Hsz.
      f_equal. lia.
Qed.

Lemma dfs_writes fuel u l t t' :
  set_suffix_index_by_dfs fuel (Some u) l t = Ok t' -> writes_ok u l t t t'.
Proof.
  revert u l t t'. induction fuel as [|fuel IH]; intros u l t t'; cbn.
  - discriminate.
  - destruct (nodes t !! u) as [n|] eqn:E; [|discriminate].
    destruct (Nat.eqb_spec (length (children n)) 0) as [Hc|Hc].
    + intros [= <-] h. apply nil_length_inv in Hc.
      destruct (decide (u = h)) as [<-|Hne].
      * right. split; [by exists n|]. exists 0. split; [constructor|].
        unfold index_of. rewrite lookup_update_node_eq, E. cbn.
        f_equal. lia.
      * left. unfold index_of. by rewrite lookup_update_node_ne.
    + intros H.
      eapply (visit_children_writes _ u l t); [| |apply same_shape_refl| |exact H].
      * intros c l' t1 t2 _. apply IH.
      * intros c l' t1 t2. apply dfs_frame.
      * unfold kids. rewrite E. done.
Qed.

Lemma visit_children_visited visit u l t0 :
  (forall c l' t t', same_shape t0 t ->
     visit c l' t = Ok t' -> writes_ok c l' t t t' /\ visited_ok c l' t t') ->
  (forall c l' t t', visit c l' t = Ok t' -> only_leaf_index_changed t t') ->
  forall cs t t',
    same_shape t0 t -> (forall c, c ∈ cs -> c ∈ kids t0 u) ->
    visit_children visit l cs t = Ok t' ->
    forall c cn h L, c ∈ cs -> nodes t0 !! c = Some cn ->
      path_length t0 c h L -> is_leaf t0 h ->
      exists L', path_length t0 u h L' /\
        index_of t' h = Some (size t0 - (l + L')).
Proof.
  intros Hv Hf cs. induction cs as [|c cs IH]; intros t t' Hs Hin; cbn.
  - intros _ c cn h L Hc. by apply not_elem_of_nil in Hc.
  - destruct (nodes t !! c) as [cn|] eqn:Ecn; [|discriminate].
    destruct (visit c _ t) as [t1|] eqn:E1; [|discriminate].
    intros H x xn h L Hx Exn Hp Hl.
    pose proof (Hf _ _ _ _ E1) as [Hs1 _].
    assert (Hs01 : same_shape t0 t1) by (by eapply same_shape_trans).
    assert (Hin' : forall y, y ∈ cs -> y ∈ kids t0 u)
      by (intros y Hy; apply Hin; by right).
    pose proof (same_shape_sym _ _ Hs) as Hs'.
    (* what the later siblings do to [h] *)
    assert (Hlater : writes_ok u l t0 t1 t').
    { eapply (visit_children_writes visit u l t0); eauto.
      intros; by eapply Hv. }
    (* [h] was visited below [c], or is below a later sibling *)
    assert (Hnow : x = c \/ x ∈ cs).
    { apply elem_of_cons in Hx. tauto. }
    destruct (decide (x = c)) as [->|Hxc].
    + destruct (Hv _ _ _ _ Hs E1) as [_ Hvis].
      destruct (Hvis h L) as (L'&Hp'&Hi').
      { by eapply same_shape_path. } { by eapply same_shape_is_leaf. }
      destruct (Hlater h) as [Heq|(_&L2&Hp2&Hi2)]; [|eauto].
      destruct (same_shape_lookup _ _ _ _ Hs' Ecn) as (cn0&Ecn0&_).
      exists (edge_length t0 cn0 + L'). split.
      * eapply (path_cons t0 u c cn0);
          [apply Hin; left|exact Ecn0|by eapply same_shape_path].
      * rewrite Heq, Hi'. destruct Hs as ((_&Hsz&_)&_).
        rewrite (same_shape_edge_length _ _ _ _ _ Hs' Ecn Ecn0), Hsz.
        f_equal. lia.
    + destruct Hnow as [?|Hx']; [done|].
      eapply (IH t1 t' Hs01 Hin' H); eauto.
Qed.

Lemma dfs_visited fuel u l t t' :
  set_suffix_index_by_dfs fuel (Some u) l t = Ok t' -> visited_ok u l t t'.
Proof.
  revert u l t t'. induction fuel as [|fuel IH]; intros u l t t'; cbn.
  - discriminate.
  - destruct (nodes t !! u) as [n|] eqn:E; [|discriminate].
    destruct (Nat.eqb_spec (length (children n)) 0) as [Hc|Hc].
    + intros [= <-] h L Hp Hl. apply nil_length_inv in Hc.
      apply path_inv in Hp as [[-> ->]|(c&cn&L'&Hck&_)].
      * exists 0. split; [constructor|].
        unfold index_of. rewrite lookup_update_node_eq, E. cbn. f_equal. lia.
      * unfold kids in Hck. rewrite E, Hc in Hck. by apply not_elem_of_nil in Hck.
    + intros H h L Hp Hl.
      apply path_inv in Hp as [[-> ->]|(c&cn&L'&Hck&Hcn&Hp'&->)].
      * destruct Hl as (n'&En'&Hn'). rewrite E in En'. injection En' as <-.
        rewrite Hn' in Hc. done.
      * eapply (visit_children_visited _ u l t);
          [| |apply same_shape_refl| |exact H| |exact Hcn|exact Hp'|exact Hl].
        -- intros x l' t1 t2 _ Hx.
           split; [exact (dfs_writes _ _ _ _ _ Hx)|exact (IH _ _ _ _ Hx)].
        -- intros x l' t1 t2. apply dfs_frame.
        -- unfold kids. rewrite E. done.
        -- unfold kids in Hck. by rewrite E in Hck.
Qed.

(** ** Dictionaries *)

Lemma dict_get_elem {V} k (d : list (ascii * V)) v :
  dict_get k d = Some v -> v ∈ dict_values d.
Proof.
  induction d as [|[k' v'] d IH]; cbn; [done|].
  destruct (Ascii.eqb k k').
  - intros [= ->]. left.
  - intros H. right. by apply IH.
Qed.

Lemma dict_set_present {V} k (d : list (ascii * V)) v v' :
  dict_get k d = Some v ->
  exists l1 l2, dict_values d = l1 ++ v :: l2 /\
    dict_values (dict_set k v' d) = l1 ++ v' :: l2.
Proof.
  induction d as [|[k' w] d IH]; cbn; [done|].
  destruct (Ascii.eqb k k').
  - intros [= ->]. by exists [], (dict_values d).
  - intros H. destruct (IH H) as (l1&l2&E1&E2).
    exists (w :: l1), l2. cbn. split; by f_equal.
Qed.

Lemma dict_set_absent {V} k (d : list (ascii * V)) v :
  dict_get k d = None -> dict_values (dict_set k v d) = dict_values d ++ [v].
Proof.
  induction d as [|[k' w] d IH]; cbn; [done|].
  destruct (Ascii.eqb k k'); [done|]. intros H. cbn. f_equal. by apply IH.
Qed.

Lemma dict_set_length {V} k (d : list (ascii * V)) v :
  (length d <= length (dict_set k v d))%nat.
Proof.
  induction d as [|[k' w] d IH]; cbn; [lia|].
  destruct (Ascii.eqb k k'); cbn; lia.
Qed.

(** ** Children under store updates *)

Lemma kids_update_node_ne h f t x :
  h <> x -> kids (update_node h f t) x = kids t x.
Proof. intros. unfold kids. by rewrite lookup_update_node_ne. Qed.

Lemma kids_update_node_keep h f t x :
  (forall n, children (f n) = children n) ->
  kids (update_node h f t) x = kids t x.
Proof.
  intros Hf. destruct (decide (h = x)) as [->|]; [|by apply kids_update_node_ne].
  unfold kids. rewrite lookup_update_node_eq.
  destruct (nodes t !! x); cbn; [by rewrite Hf|done].
Qed.

Lemma kids_out_of_range t x :
  (length (nodes t) <= x)%nat -> kids t x = [].
Proof. intros. unfold kids. by rewrite (proj2 (lookup_ge_None _ _)). Qed.

Lemma kids_link_last_new_node target t x :
  kids (link_last_new_node target t) x = kids t x.
Proof.
  unfold link_last_new_node. destruct (last_new_node t); [|done].
  change (kids (update_node n (node_set_suffix_link (Some target)) t) x = kids t x).
  by apply kids_update_node_keep.
Qed.

(** ** The tree shape is kept by every step of a phase *)

Lemma tree_shaped_same_kids t t' :
  root t' = root t -> length (nodes t') = length (nodes t) ->
  (forall x, kids t' x = kids t x) ->
  tree_shaped t -> tree_shaped t'.
Proof.
  intros Hr Hl Hk [H1 H2 H3 H4 H5 [rank H6]].
  split; rewrite ?Hr, ?Hl; try setoid_rewrite Hk; eauto.
Qed.

Lemma tree_shaped_attach_leaf t t' an :
  tree_shaped t ->
  root t' = root t ->
  length (nodes t') = S (length (nodes t)) ->
  (an < length (nodes t))%nat ->
  kids t' an = kids t an ++ [length (nodes t)] ->
  (forall x, x <> an -> kids t' x = kids t x) ->
  tree_shaped t'.
Proof.
  intros [H1 H2 H3 H4 H5 [rank H6]] Hr Hl Han Hk Ho.
  set (N := length (nodes t)) in *.
  assert (Hin : forall p c, c ∈ kids t' p ->
            (c = N /\ p = an) \/ (c ∈ kids t p /\ (c < N)%nat)).
  { intros p c Hc. destruct (decide (p = an)) as [->|Hp].
    - rewrite Hk in Hc. apply elem_of_app in Hc as [Hc|Hc].
      + right. split; [done|]. by eapply H2.
      + apply list_elem_of_singleton in Hc. by left.
    - rewrite Ho in Hc by done. right. split; [done|]. by eapply H2. }
  split.
  - rewrite Hr, Hl. lia.
  - intros p c Hc. rewrite Hl. destruct (Hin _ _ Hc) as [[-> _]|[_ ?]]; lia.
  - intros p Hc. rewrite Hr in Hc.
    destruct (Hin _ _ Hc) as [[? _]|[? _]]; [lia|]. by eapply H3.
  - intros p1 p2 c Hc1 Hc2.
    destruct (Hin _ _ Hc1) as [[? ?]|[? ?]], (Hin _ _ Hc2) as [[? ?]|[? ?]];
      try lia; try congruence. by eapply H4.
  - intros p. destruct (decide (p = an)) as [->|Hp].
    + rewrite Hk. apply NoDup_app. split; [apply H5|]. split.
      * intros x Hx Hx'. apply list_elem_of_singleton in Hx'. subst x.
        apply H2 in Hx. lia.
      * apply NoDup_singleton.
    + rewrite Ho by done. apply H5.
  - exists (fun x => if decide (x = N) then 0%nat else S (rank x)).
    intros p c Hc.
    destruct (Hin _ _ Hc) as [[-> ->]|[Hc' ?]].
    + rewrite decide_True by done. rewrite decide_False by lia. lia.
    + rewrite (decide_False (P := c = N)) by lia.
      destruct (decide (p = N)) as [->|].
      * rewrite kids_out_of_range in Hc' by (subst N; lia).
        by apply not_elem_of_nil in Hc'.
      * apply H6 in Hc'. lia.
Qed.

Lemma tree_shaped_split t t' an next l1 l2 :
  tree_shaped t ->
  root t' = root t ->
  length (nodes t') = S (S (length (nodes t))) ->
  (an < length (nodes t))%nat ->
  kids t an = l1 ++ next :: l2 ->
  kids t' an = l1 ++ length (nodes t) :: l2 ->
  (kids t' (length (nodes t)) = [S (length (nodes t)); next] \/
   kids t' (length (nodes t)) = [next]) ->
  kids t' (S (length (nodes t))) = [] ->
  (forall x, x <> an -> x <> length (nodes t) -> x <> S (length (nodes t)) ->
     kids t' x = kids t x) ->
  tree_shaped t'.
Proof.
  intros [H1 H2 H3 H4 H5 [rank H6]] Hr Hl Han Hk Hk' Hs Hlf Ho.
  set (N := length (nodes t)) in *.
  assert (Hnext : next ∈ kids t an).
  { rewrite Hk. apply elem_of_app. right. left. }
  assert (HnextN : (next < N)%nat) by (by eapply H2).
  pose proof (H5 an) as Hnd. rewrite Hk in Hnd.
  assert (Hin : forall p c, c ∈ kids t' p ->
            (c = N /\ p = an) \/ (c = S N /\ p = N) \/ (c = next /\ p = N) \/
            (c ∈ kids t p /\ (c < N)%nat /\ c <> next /\ (p < N)%nat)).
  { intros p c Hc. destruct (decide (p = an)) as [->|Hp].
    - rewrite Hk' in Hc. apply elem_of_app in Hc.
      rewrite elem_of_cons in Hc.
      destruct Hc as [Hc|[->|Hc]]; [|by left|].
      + right; right; right.
        assert (c ∈ kids t an) by (rewrite Hk; apply elem_of_app; by left).
        repeat split; try done; [by eapply H2|].
        intros ->. apply NoDup_app in Hnd as (_&Hd&_).
        apply (Hd next); [done|left].
      + right; right; right.
        assert (c ∈ kids t an)
          by (rewrite Hk; apply elem_of_app; right; by right).
        repeat split; try done; [by eapply H2|].
        intros ->. apply NoDup_app in Hnd as (_&_&Hd).
        apply NoDup_cons in Hd as [Hd _]. done.
    - destruct (decide (p = N)) as [->|HpN].
      { destruct Hs as [Hs|Hs]; rewrite Hs in Hc.
        - apply elem_of_cons in Hc as [->|Hc]; [tauto|].
          apply list_elem_of_singleton in Hc. tauto.
        - apply list_elem_of_singleton in Hc. tauto. }
      destruct (decide (p = S N)) as [->|HpS].
      { rewrite Hlf in Hc. by apply not_elem_of_nil in Hc. }
      rewrite Ho in Hc by done.
      right; right; right.
      assert (p < N)%nat.
      { destruct (decide (p < N)%nat); [done|].
        rewrite kids_out_of_range in Hc by (subst N; lia).
        by apply not_elem_of_nil in Hc. }
      repeat split; try done; [by eapply H2|].
      intros ->. apply Hp. by eapply H4. }
  split.
  - rewrite Hr, Hl. lia.
  - intros p c Hc. rewrite Hl.
    destruct (Hin _ _ Hc) as [[-> _]|[[-> _]|[[-> _]|(_&?&_)]]]; lia.
  - intros p Hc. rewrite Hr in Hc.
    destruct (Hin _ _ Hc) as [[? _]|[[? _]|[[? _]|(?&_)]]]; try lia.
    + subst next. by eapply H3.
    + by eapply H3.
  - intros p1 p2 c Hc1 Hc2.
    destruct (Hin _ _ Hc1) as [[? ?]|[[? ?]|[[? ?]|(?&?&?&?)]]],
             (Hin _ _ Hc2) as [[? ?]|[[? ?]|[[? ?]|(?&?&?&?)]]];
      try lia; try congruence. by eapply H4.
  - intros p. destruct (decide (p = an)) as [->|Hp].
    + rewrite Hk'. apply NoDup_app in Hnd as (Hd1&Hd2&Hd3).
      apply NoDup_cons in Hd3 as [Hd3 Hd4].
      apply NoDup_app. split; [done|]. split.
      * intros x Hx Hx'. apply elem_of_cons in Hx' as [->|Hx'].
        -- assert (N ∈ kids t an) by (rewrite Hk; apply elem_of_app; by left).
           apply H2 in H. lia.
        -- apply (Hd2 x Hx). by right.
      * apply NoDup_cons. split; [|done].
        intros Hx.
        assert (N ∈ kids t an)
          by (rewrite Hk; apply elem_of_app; right; by right).
        apply H2 in H. lia.
    + destruct (decide (p = N)) as [->|HpN].
      { destruct Hs as [-> | ->].
        - apply NoDup_cons. split; [|apply NoDup_singleton].
          intros Hx. apply list_elem_of_singleton in Hx. lia.
        - apply NoDup_singleton. }
      destruct (decide (p = S N)) as [->|HpS].
      { rewrite Hlf. apply NoDup_nil_2. }
      rewrite Ho by done. apply H5.
  - exists (fun x => if decide (x = N) then (2 * rank next + 3)%nat
                     else if decide (x = S N) then 0%nat
                     else (2 * rank x + 2)%nat).
    intros p c Hc.
    destruct (Hin _ _ Hc) as [[-> ->]|[[-> ->]|[[-> ->]|(Hc'&?&?&?)]]].
    + rewrite decide_True by done.
      rewrite (decide_False (P := an = N)) by lia.
      rewrite (decide_False (P := an = S N)) by lia.
      apply H6 in Hnext. lia.
    + rewrite (decide_False (P := S N = N)) by lia.
      rewrite (decide_True (P := S N = S N)) by done.
      rewrite (decide_True (P := N = N)) by done. lia.
    + rewrite (decide_False (P := next = N)) by lia.
      rewrite (decide_False (P := next = S N)) by lia.
      rewrite (decide_True (P := N = N)) by done. lia.
    + rewrite (decide_False (P := c = N)) by lia.
      rewrite (decide_False (P := c = S N)) by lia.
      rewrite (decide_False (P := p = N)) by lia.
      rewrite (decide_False (P := p = S N)) by lia.
      apply H6 in Hc'. lia.
Qed.

Lemma split_edge_spec pos cur c2 next nn t t' :
  nodes t !! next = Some nn ->
  split_edge pos cur c2 next nn t = Ok t' ->
  exists c3,
    py_index (text t) (start nn + active_length t) = Some c3 /\
    t' = set_last_new_node (Some (length (nodes t)))
           (set_nodes (split_nodes pos cur c2 c3 next nn t) t).
Proof.
  intros Hnn. unfold split_edge. cbn.
  pose proof (lookup_lt_Some _ _ _ Hnn) as Hlt.
  match goal with |- context [alter ?f next ?l !! next] =>
    destruct (alter f next l !! next) as [nn'|] eqn:E; [|discriminate] end.
  assert (Hst : start nn' = start nn + active_length t).
  { revert E. rewrite list_lookup_alter_eq.
    rewrite list_lookup_alter_ne by lia.
    rewrite lookup_app_l by (rewrite length_alter, length_app; cbn; lia).
    rewrite list_lookup_alter.
    case_decide as Hd; [rewrite Hd|];
      rewrite (lookup_app_l (nodes t)) by lia;
      rewrite Hnn; cbn; by intros [= <-]. }
  rewrite Hst.
  destruct (py_index _ _) as [c3|]; [|discriminate].
  intros [= <-]. exists c3. split; [done|].
  unfold split_nodes.
  rewrite length_alter, length_app. cbn [length].
  replace (length (nodes t) + 1)%nat with (S (length (nodes t))) by lia.
  by destruct (last_new_node t).
Qed.

Lemma add_leaf_spec pos cur t :
  add_leaf pos cur t =
    match last_new_node t with
    | Some _ => set_last_new_node None (set_nodes (leaf_nodes pos cur t) t)
    | None => set_nodes (leaf_nodes pos cur t) t
    end.
Proof.
  unfold add_leaf, leaf_nodes, link_last_new_node. cbn.
  by destruct (last_new_node t).
Qed.

Lemma kids_och t x : kids t x = from_option dict_values [] (och (nodes t) x).
Proof. unfold kids, och. by destruct (nodes t !! x). Qed.

Lemma och_alter_ne f h ns x : h <> x -> och (alter f h ns) x = och ns x.
Proof. intros. unfold och. by rewrite list_lookup_alter_ne. Qed.

Lemma och_alter_keep f h ns x :
  (forall n, children (f n) = children n) -> och (alter f h ns) x = och ns x.
Proof.
  intros Hf. unfold och. rewrite list_lookup_alter. case_decide; [subst|done].
  destruct (ns !! x); cbn; [by rewrite Hf|done].
Qed.

Lemma och_alter_set_child c v h ns :
  och (alter (node_set_child c v) h ns) h = dict_set c v <$> och ns h.
Proof. unfold och. rewrite list_lookup_alter_eq. by destruct (ns !! h). Qed.

Lemma och_app_old ns n x :
  x <> length ns -> och (ns ++ [n]) x = och ns x.
Proof.
  intros Hx. unfold och. destruct (decide (x < length ns)%nat).
  - by rewrite lookup_app_l.
  - rewrite !(proj2 (lookup_ge_None _ _)); [done|lia|].
    rewrite length_app. cbn. lia.
Qed.

Lemma och_app_new ns n : och (ns ++ [n]) (length ns) = Some (children n).
Proof. unfold och. rewrite lookup_app_r by lia. by rewrite Nat.sub_diag. Qed.

Lemma och_link (o : option nat) l ns x :
  och (match o with
       | Some h => alter (node_set_suffix_link l) h ns
       | None => ns
       end) x = och ns x.
Proof. destruct o; [|done]. by apply och_alter_keep. Qed.

Lemma length_link (o : option nat) l (ns : list SuffixTreeNode) :
  length (match o with
          | Some h => alter (node_set_suffix_link l) h ns
          | None => ns
          end) = length ns.
Proof. destruct o; [|done]. apply length_alter. Qed.

Lemma och_leaf_nodes pos cur t x :
  och (leaf_nodes pos cur t) x =
    if decide (x = active_node t)
    then dict_set cur (length (nodes t)) <$>
           och (nodes t ++ [new_node pos EndLeaf]) x
    else och (nodes t ++ [new_node pos EndLeaf]) x.
Proof.
  unfold leaf_nodes. rewrite och_link. case_decide as Hx.
  - subst x. apply och_alter_set_child.
  - by rewrite och_alter_ne.
Qed.

Lemma length_leaf_nodes pos cur t :
  length (leaf_nodes pos cur t) = S (length (nodes t)).
Proof.
  unfold leaf_nodes. rewrite length_link, length_alter, length_app. cbn. lia.
Qed.

Lemma tree_shaped_set_nodes_leaf pos cur t an :
  tree_shaped t ->
  nodes t !! active_node t = Some an ->
  dict_get cur (children an) = None ->
  tree_shaped (set_nodes (leaf_nodes pos cur t) t).
Proof.
  intros Ht Han Hget.
  pose proof (lookup_lt_Some _ _ _ Han) as Hlt.
  apply (tree_shaped_attach_leaf t _ (active_node t)); try done.
  - cbn. apply length_leaf_nodes.
  - rewrite !kids_och. cbn [nodes set_nodes]. rewrite och_leaf_nodes.
    rewrite decide_True by done. rewrite och_app_old by lia.
    unfold och. rewrite Han. cbn. by apply dict_set_absent.
  - intros x Hx. rewrite !kids_och. cbn [nodes set_nodes].
    rewrite och_leaf_nodes. rewrite decide_False by done.
    destruct (decide (x = length (nodes t))) as [->|Hn].
    + rewrite och_app_new. unfold och.
      by rewrite (proj2 (lookup_ge_None _ _)).
    + by rewrite och_app_old.
Qed.

Lemma tree_shaped_add_leaf pos cur t an :
  tree_shaped t ->
  nodes t !! active_node t = Some an ->
  dict_get cur (children an) = None ->
  tree_shaped (add_leaf pos cur t).
Proof.
  intros Ht Han Hget. rewrite add_leaf_spec.
  pose proof (tree_shaped_set_nodes_leaf pos cur t an Ht Han Hget) as H.
  destruct (last_new_node t); [|done].
  revert H. by apply tree_shaped_same_kids.
Qed.

Lemma length_split_nodes pos cur c2 c3 next nn t :
  length (split_nodes pos cur c2 c3 next nn t) = S (S (length (nodes t))).
Proof.
  unfold split_nodes.
  rewrite length_link, !length_alter, length_app, length_alter, length_app.
  cbn. lia.
Qed.

Lemma och_split_nodes pos cur c2 c3 next nn t x :
  (active_node t < length (nodes t))%nat ->
  och (split_nodes pos cur c2 c3 next nn t) x =
    if decide (x = length (nodes t))
    then Some (dict_set c3 next (dict_set c2 (S (length (nodes t))) []))
    else if decide (x = S (length (nodes t))) then Some []
    else if decide (x = active_node t)
    then dict_set cur (length (nodes t)) <$> och (nodes t) x
    else och (nodes t) x.
Proof.
  intros Han. unfold split_nodes. rewrite och_link.
  set (N := length (nodes t)).
  set (Z0 := nodes t ++ [new_node (start nn) (EndInt (start nn + active_length t - 1))]).
  assert (HZ : length (alter (node_set_child cur N) (active_node t) Z0) = S N).
  { rewrite length_alter. subst Z0. rewrite length_app. cbn. lia. }
  case_decide as H1.
  - subst x. rewrite och_alter_set_child. rewrite och_alter_keep by done.
    rewrite och_alter_set_child.
    rewrite och_app_old by lia.
    rewrite och_alter_ne by lia.
    subst Z0. by rewrite och_app_new.
  - rewrite och_alter_ne by done. rewrite och_alter_keep by done.
    rewrite och_alter_ne by done.
    case_decide as H2.
    + subst x. rewrite <- HZ. by rewrite och_app_new.
    + rewrite och_app_old by lia.
      case_decide as H3.
      * subst x. rewrite och_alter_set_child. subst Z0.
        by rewrite och_app_old by lia.
      * rewrite och_alter_ne by done. subst Z0. by rewrite och_app_old.
Qed.

Lemma tree_shaped_split_edge pos cur c2 next nn an t t' :
  tree_shaped t ->
  nodes t !! active_node t = Some an ->
  dict_get cur (children an) = Some next ->
  nodes t !! next = Some nn ->
  split_edge pos cur c2 next nn t = Ok t' ->
  tree_shaped t'.
Proof.
  intros Ht Han Hget Hnn Hsp.
  apply split_edge_spec in Hsp as (c3&_&->); [|done].
  pose proof (lookup_lt_Some _ _ _ Han) as Hlt.
  destruct (dict_set_present cur (children an) next (length (nodes t)) Hget)
    as (l1&l2&E1&E2).
  apply (tree_shaped_split t _ (active_node t) next l1 l2); try done.
  - cbn. apply length_split_nodes.
  - unfold kids. by rewrite Han.
  - rewrite kids_och. cbn [nodes set_nodes set_last_new_node].
    rewrite och_split_nodes by done.
    rewrite decide_False by lia. rewrite decide_False by lia.
    rewrite decide_True by done. unfold och. rewrite Han. cbn. done.
  - rewrite kids_och. cbn [nodes set_nodes set_last_new_node].
    rewrite och_split_nodes by done. rewrite decide_True by done.
    cbn. destruct (Ascii.eqb c3 c2); cbn; tauto.
  - rewrite kids_och. cbn [nodes set_nodes set_last_new_node].
    rewrite och_split_nodes by done. rewrite decide_False by lia.
    by rewrite decide_True.
  - intros x ? ? ?. rewrite !kids_och. cbn [nodes set_nodes set_last_new_node].
    rewrite och_split_nodes by done. by rewrite !decide_False.
Qed.

Lemma tree_shaped_init s : tree_shaped (init_tree s).
Proof.
  assert (Hk : forall p, kids (init_tree s) p = []).
  { intros [|p]; [done|]. unfold kids. cbn. done. }
  split; try setoid_rewrite Hk.
  - cbn. lia.
  - intros p c Hc. by apply not_elem_of_nil in Hc.
  - intros p. apply not_elem_of_nil.
  - intros p1 p2 c Hc. by apply not_elem_of_nil in Hc.
  - intros p. apply NoDup_nil_2.
  - exists (fun _ => 0%nat). intros p c Hc. by apply not_elem_of_nil in Hc.
Qed.

(** ** Invariants of the object store through construction *)

Section StoreInvariant.
Variable P : SuffixTree -> Prop.
Hypothesis P_store : forall t t',
  nodes t' = nodes t -> root t' = root t -> P t -> P t'.
Hypothesis P_link : forall target t, P t -> P (link_last_new_node target t).
Hypothesis P_add_leaf : forall pos cur t an,
  P t -> nodes t !! active_node t = Some an ->
  dict_get cur (children an) = None -> P (add_leaf pos cur t).
Hypothesis P_split_edge : forall pos cur c2 next nn an t t',
  P t -> nodes t !! active_node t = Some an ->
  dict_get cur (children an) = Some next -> nodes t !! next = Some nn ->
  split_edge pos cur c2 next nn t = Ok t' -> P t'.

Lemma inv_extend_insert pos t r t' :
  P t -> extend_insert pos t = Ok (r, t') -> P t'.
Proof using P_store P_link P_add_leaf P_split_edge.
  intros Ht. unfold extend_insert.
  set (t0 := if active_length t =? 0 then set_active_edge pos t else t).
  assert (H0 : P t0).
  { subst t0. destruct (_ =? _); [|done]. by apply (P_store t). }
  clearbody t0. clear t Ht.
  destruct (py_index (text t0) (active_edge t0)) as [cur|]; [|discriminate].
  destruct (nodes t0 !! active_node t0) as [an|] eqn:Han; [|discriminate].
  destruct (dict_get cur (children an)) as [next|] eqn:Hget.
  - destruct (nodes t0 !! next) as [nn|] eqn:Hnn; [|discriminate].
    destruct (_ >=? _).
    { intros [= <- <-]. by apply (P_store t0). }
    destruct (py_index _ _) as [c1|]; [|discriminate].
    destruct (py_index _ _) as [c2|]; [|discriminate].
    destruct (Ascii.eqb c1 c2).
    + intros [= <- <-]. unfold stop_phase.
      destruct (negb _).
      * eapply P_store; [| |apply (P_link (active_node t0)); exact H0]; done.
      * by apply (P_store t0).
    + destruct (split_edge _ _ _ _ _ _) as [ts|] eqn:Hs; [|discriminate].
      intros [= <- <-]. eapply P_split_edge; eauto.
  - intros [= <- <-]. by eapply P_add_leaf.
Qed.

Lemma inv_extend_body pos t r t' :
  P t -> extend_body pos t = Ok (r, t') -> P t'.
Proof using P_store P_link P_add_leaf P_split_edge.
  intros Ht. unfold extend_body.
  destruct (extend_insert pos t) as [[e ti]|] eqn:Hi; [|discriminate].
  apply inv_extend_insert in Hi; [|done].
  destruct e; try (intros [= <- <-]; done).
  set (tm := set_remaining_suffix_count _ ti).
  assert (Hm : P tm) by (by apply (P_store ti)).
  clearbody tm.
  destruct (update_active_point pos tm) as [tu|] eqn:Hu; [|discriminate].
  intros [= <- <-]. revert Hu. unfold update_active_point.
  repeat case_match; try discriminate; intros [= <-];
    by apply (P_store tm).
Qed.

Lemma inv_extend_loop fuel pos t t' :
  P t -> extend_loop fuel pos t = Ok t' -> P t'.
Proof using P_store P_link P_add_leaf P_split_edge.
  revert t. induction fuel as [|fuel IH]; intros t Ht; cbn.
  - destruct (_ >? _); [discriminate|]. by intros [= <-].
  - destruct (_ >? _); [|by intros [= <-]].
    destruct (extend_body pos t) as [[e tb]|] eqn:Hb; [|discriminate].
    apply inv_extend_body in Hb; [|done].
    destruct e; [by apply IH|by intros [= <-]|by apply IH].
Qed.

Lemma inv_phase fuel pos t t' :
  P t -> _extend_suffix_tree fuel pos t = Ok t' -> P t'.
Proof using P_store P_link P_add_leaf P_split_edge.
  intros Ht. apply inv_extend_loop. by apply (P_store t).
Qed.

Lemma inv_build_from fuel ps t t' :
  P t -> build_from fuel ps t = Ok t' -> P t'.
Proof using P_store P_link P_add_leaf P_split_edge.
  revert t. induction ps as [|pos ps IH]; intros t Ht; cbn.
  - by intros [= <-].
  - destruct (_extend_suffix_tree fuel pos t) as [t1|] eqn:E; [|discriminate].
    apply IH. by eapply inv_phase.
Qed.

Lemma inv_make_explicit fuel t t' :
  P t -> make_explicit fuel t = Ok t' -> P t'.
Proof using P_store P_link P_add_leaf P_split_edge.
  intros Ht. apply inv_phase. by apply (P_store t).
Qed.

Lemma inv_finalize_spec fuel t t' :
  P t -> finalize_spec fuel t = Ok t' -> P t'.
Proof using P_store P_link P_add_leaf P_split_edge.
  intros Ht. apply inv_phase. by apply (P_store t).
Qed.

Lemma inv_build_explicit fuel s t :
  P (init_tree s) -> build_explicit fuel s = Ok t -> P t.
Proof using P_store P_link P_add_leaf P_split_edge.
  intros H0. unfold build_explicit, SuffixTree_new, _build_suffix_tree.
  destruct (build_from _ _ _) as [t0|] eqn:E; [|discriminate].
  apply inv_make_explicit. by eapply inv_build_from.
Qed.
End StoreInvariant.

Lemma tree_shaped_store t t' :
  nodes t' = nodes t -> root t' = root t -> tree_shaped t -> tree_shaped t'.
Proof.
  intros Hn Hr. apply tree_shaped_same_kids; [done|by rewrite Hn|].
  intros x. unfold kids. by rewrite Hn.
Qed.

Lemma tree_shaped_link target t :
  tree_shaped t -> tree_shaped (link_last_new_node target t).
Proof.
  apply tree_shaped_same_kids.
  - apply link_last_new_node_globals.
  - apply length_link_last_new_node.
  - apply kids_link_last_new_node.
Qed.

Lemma build_explicit_tree_shaped fuel s t :
  build_explicit fuel s = Ok t -> tree_shaped t.
Proof.
  apply (inv_build_explicit tree_shaped).
  - apply tree_shaped_store.
  - apply tree_shaped_link.
  - apply tree_shaped_add_leaf.
  - apply tree_shaped_split_edge.
  - apply tree_shaped_init.
Qed.

Lemma unindexed_forall t :
  unindexed t <-> Forall (fun n => index n = -1) (nodes t).
Proof. unfold unindexed. by rewrite Forall_lookup. Qed.

Lemma Forall_alter_keep {A} (Q : A -> Prop) f i (l : list A) :
  (forall x, Q x -> Q (f x)) -> Forall Q l -> Forall Q (alter f i l).
Proof.
  intros Hf. rewrite !Forall_lookup. intros H j y.
  rewrite list_lookup_alter. case_decide; [subst|by apply H].
  destruct (l !! j) eqn:E; cbn; [|done]. intros [= <-]. eauto.
Qed.

Lemma unindexed_link target t :
  unindexed t -> unindexed (link_last_new_node target t).
Proof.
  rewrite !unindexed_forall. unfold link_last_new_node.
  destruct (last_new_node t); [|done]. cbn. by apply Forall_alter_keep.
Qed.

Lemma unindexed_add_leaf pos cur t :
  unindexed t -> unindexed (add_leaf pos cur t).
Proof.
  intros H. unfold add_leaf. cbn -[link_last_new_node].
  apply unindexed_link. revert H. rewrite !unindexed_forall. cbn. intros H.
  apply Forall_alter_keep; [done|]. apply Forall_app. split; [done|].
  by repeat constructor.
Qed.

Lemma unindexed_split_edge pos cur c2 next nn t t' :
  unindexed t -> nodes t !! next = Some nn ->
  split_edge pos cur c2 next nn t = Ok t' -> unindexed t'.
Proof.
  intros H Hnn Hs. apply split_edge_spec in Hs as (c3&_&->); [|done].
  revert H. rewrite !unindexed_forall. cbn. intros H. unfold split_nodes.
  assert (forall l, Forall (fun n => index n = -1) l ->
    Forall (fun n => index n = -1)
      match last_new_node t with
      | Some h => alter (node_set_suffix_link (Some (length (nodes t)))) h l
      | None => l
      end) as Hl.
  { intros l Hl. destruct (last_new_node t); [|done]. by apply Forall_alter_keep. }
  apply Hl.
  repeat (apply Forall_alter_keep; [done|]).
  apply Forall_app. split; [|by repeat constructor].
  apply Forall_alter_keep; [done|].
  apply Forall_app. split; [done|]. by repeat constructor.
Qed.

Lemma build_explicit_unindexed fuel s t :
  build_explicit fuel s = Ok t -> unindexed t.
Proof.
  apply (inv_build_explicit unindexed).
  - intros t1 t2 Hn _. unfold unindexed. by rewrite Hn.
  - apply unindexed_link.
  - intros. by apply unindexed_add_leaf.
  - intros. by eapply unindexed_split_edge.
  - intros [|h] n; cbn; [by intros [= <-]|done].
Qed.

(** ** Children are created in pairs and never removed *)

Lemma kids_length_och t x :
  length (kids t x) = from_option length 0%nat (och (nodes t) x).
Proof.
  rewrite kids_och. destruct (och (nodes t) x); [|done].
  cbn. unfold dict_values. by rewrite length_map.
Qed.

Lemma och_out_of_range ns x : (length ns <= x)%nat -> och ns x = None.
Proof. intros. unfold och. by rewrite (proj2 (lookup_ge_None _ _)). Qed.

Lemma och_app_le ns n x :
  (from_option length 0 (och ns x)
   <= from_option length 0 (och (ns ++ [n]) x))%nat.
Proof.
  destruct (decide (x < length ns)%nat).
  - rewrite och_app_old by lia. done.
  - rewrite (och_out_of_range ns) by lia. cbn. lia.
Qed.

Lemma children_kept_refl t : children_kept t t.
Proof. by intros h. Qed.

Lemma children_kept_add_leaf pos cur t :
  children_kept t (add_leaf pos cur t).
Proof.
  intros h. rewrite !kids_length_och.
  assert (nodes (add_leaf pos cur t) = leaf_nodes pos cur t) as ->.
  { rewrite add_leaf_spec. by destruct (last_new_node t). }
  rewrite och_leaf_nodes.
  pose proof (och_app_le (nodes t) (new_node pos EndLeaf) h) as Hle.
  case_decide; [|done].
  destruct (och (nodes t ++ [new_node pos EndLeaf]) h) as [d|]; [|done].
  cbn in *. pose proof (dict_set_length cur d (length (nodes t))). lia.
Qed.

Lemma children_kept_split_edge pos cur c2 next nn an t t' :
  nodes t !! active_node t = Some an -> nodes t !! next = Some nn ->
  split_edge pos cur c2 next nn t = Ok t' -> children_kept t t'.
Proof.
  intros Han Hnn Hsp h.
  apply split_edge_spec in Hsp as (c3&_&->); [|done].
  pose proof (lookup_lt_Some _ _ _ Han) as Hlt.
  rewrite !kids_length_och. cbn [nodes set_nodes set_last_new_node].
  rewrite och_split_nodes by done.
  repeat case_decide; subst.
  - rewrite och_out_of_range by lia. cbn. lia.
  - rewrite och_out_of_range by lia. cbn. lia.
  - destruct (och (nodes t) (active_node t)) as [d|]; [|done].
    cbn. apply dict_set_length.
  - done.
Qed.

Section Kept.
Context (t0 : SuffixTree).

Lemma kept_store t t' :
  nodes t' = nodes t -> root t' = root t ->
  children_kept t0 t -> children_kept t0 t'.
Proof using Type.
  intros Hn _ H h. specialize (H h). unfold kids in *. by rewrite Hn.
Qed.

Lemma kept_link target t :
  children_kept t0 t -> children_kept t0 (link_last_new_node target t).
Proof using Type. intros H h. by rewrite kids_link_last_new_node. Qed.

Lemma kept_add_leaf pos cur t an :
  children_kept t0 t -> nodes t !! active_node t = Some an ->
  dict_get cur (children an) = None ->
  children_kept t0 (add_leaf pos cur t).
Proof using Type.
  intros H _ _ h. etrans; [apply H|apply children_kept_add_leaf].
Qed.

Lemma kept_split_edge pos cur c2 next nn an t t' :
  children_kept t0 t -> nodes t !! active_node t = Some an ->
  dict_get cur (children an) = Some next -> nodes t !! next = Some nn ->
  split_edge pos cur c2 next nn t = Ok t' -> children_kept t0 t'.
Proof using Type.
  intros H Han _ Hnn Hsp h.
  etrans; [apply H|by apply (children_kept_split_edge _ _ _ _ _ _ _ _ Han Hnn Hsp)].
Qed.

End Kept.

(** A pass through the loop body, a phase and [make_explicit] remove no
    child. *)
Lemma extend_body_keeps_children pos t e t' :
  extend_body pos t = Ok (e, t') -> children_kept t t'.
Proof.
  apply (inv_extend_body (children_kept t) (kept_store t) (kept_link t)
           (kept_add_leaf t) (kept_split_edge t)), children_kept_refl.
Qed.

Lemma phase_keeps_children fuel pos t t' :
  _extend_suffix_tree fuel pos t = Ok t' -> children_kept t t'.
Proof.
  apply (inv_phase (children_kept t) (kept_store t) (kept_link t)
           (kept_add_leaf t) (kept_split_edge t)), children_kept_refl.
Qed.

Lemma make_explicit_keeps_children fuel t t' :
  make_explicit fuel t = Ok t' -> children_kept t t'.
Proof.
  apply (inv_make_explicit (children_kept t) (kept_store t) (kept_link t)
           (kept_add_leaf t) (kept_split_edge t)), children_kept_refl.
Qed.

(** A node that an insertion creates has no child, or it is the split
    node and has two. *)
Lemma new_node_has_two_children pos t t' :
  extend_insert pos t = Ok (Inserted, t') ->
  forall h, (length (nodes t) <= h)%nat -> is_internal t' h ->
    length (kids t' h) = 2%nat.
Proof.
  unfold extend_insert.
  set (t0 := if active_length t =? 0 then set_active_edge pos t else t).
  assert (Hn0 : nodes t0 = nodes t).
  { subst t0. by destruct (_ =? _). }
  rewrite <- Hn0. clearbody t0. clear t Hn0.
  destruct (py_index (text t0) (active_edge t0)) as [cur|]; [|discriminate].
  destruct (nodes t0 !! active_node t0) as [an|] eqn:Han; [|discriminate].
  pose proof (lookup_lt_Some _ _ _ Han) as Hlt.
  assert (Hint : forall u h, is_internal u h -> kids u h <> []).
  { intros u h (n&Hn&Hc). unfold kids, dict_values. rewrite Hn.
    by destruct (children n). }
  destruct (dict_get cur (children an)) as [next|] eqn:Hget.
  - destruct (nodes t0 !! next) as [nn|] eqn:Hnn; [|discriminate].
    destruct (_ >=? _); [discriminate|].
    destruct (py_index (text t0) (start nn + active_length t0)) as [c1|]
      eqn:Hc1; [|discriminate].
    destruct (py_index (text t0) pos) as [c2|]; [|discriminate].
    destruct (Ascii.eqb_spec c1 c2) as [?|Hne]; [discriminate|].
    destruct (split_edge _ _ _ _ _ _) as [ts|] eqn:Hs; [|discriminate].
    intros [= <-] h Hh Hi.
    apply split_edge_spec in Hs as (c3&Hc3&->); [|done].
    rewrite Hc1 in Hc3. injection Hc3 as <-.
    apply Hint in Hi. revert Hi.
    rewrite kids_length_och, kids_och. cbn [nodes set_nodes set_last_new_node].
    rewrite och_split_nodes by done.
    repeat case_decide; try lia.
    + intros _. cbn. by rewrite (proj2 (Ascii.eqb_neq c1 c2)).
    + done.
    + by rewrite och_out_of_range by lia.
  - intros [= <-] h Hh Hi. apply Hint in Hi. revert Hi.
    rewrite kids_och.
    assert (nodes (add_leaf pos cur t0) = leaf_nodes pos cur t0) as ->.
    { rewrite add_leaf_spec. by destruct (last_new_node t0). }
    rewrite och_leaf_nodes. rewrite decide_False by lia.
    destruct (decide (h = length (nodes t0))) as [->|Hne].
    + by rewrite och_app_new.
    + rewrite och_out_of_range; [done|]. rewrite length_app. cbn. lia.
Qed.

(** ** Termination of the traversal on a tree-shaped store *)

Lemma visit_children_terminates visit l t0 cs :
  (forall c l' t, c ∈ cs -> same_shape t0 t ->
     exists t', visit c l' t = Ok t' /\ same_shape t t') ->
  (forall c, c ∈ cs -> (c < length (nodes t0))%nat) ->
  forall t, same_shape t0 t ->
    exists t', visit_children visit l cs t = Ok t' /\ same_shape t t'.
Proof.
  induction cs as [|c cs IH]; intros Hv Hlt t Hs; cbn.
  - exists t. split; [done|apply same_shape_refl].
  - assert (Hc : (c < length (nodes t))%nat).
    { destruct Hs as (_&_&_&_&_&_&->&_). apply Hlt. left. }
    apply lookup_lt_is_Some in Hc as [cn ->].
    destruct (Hv c (l + edge_length t cn) t) as (t1&->&Hs1); [left|done|].
    destruct (IH (fun x l' t' Hx => Hv x l' t' (list_elem_of_further _ _ _ Hx))
                 (fun x Hx => Hlt x (list_elem_of_further _ _ _ Hx))
                 t1) as (t'&->&Hs').
    { by eapply same_shape_trans. }
    exists t'. split; [done|by eapply same_shape_trans].
Qed.

Lemma dfs_terminates (rank : nat -> nat) fuel u l t0 t :
  (forall p c, c ∈ kids t0 p -> (c < length (nodes t0))%nat) ->
  (forall p c, c ∈ kids t0 p -> (rank c < rank p)%nat) ->
  same_shape t0 t ->
  (u < length (nodes t0))%nat ->
  (rank u < fuel)%nat ->
  exists t', set_suffix_index_by_dfs fuel (Some u) l t = Ok t' /\
             same_shape t t'.
Proof.
  intros Hcl Hrk. revert u l t.
  induction fuel as [|fuel IH]; intros u l t Hs Hu Hr; [lia|]. cbn.
  assert (Hu' : (u < length (nodes t))%nat).
  { by destruct Hs as (_&_&_&_&_&_&->&_). }
  apply lookup_lt_is_Some in Hu' as [n En]. rewrite En.
  destruct (Nat.eqb_spec (length (children n)) 0) as [Hc|Hc].
  - eexists. split; [done|].
    apply (set_index_only_leaf u n); [done|by apply nil_length_inv].
  - assert (Hk : dict_values (children n) = kids t0 u).
    { rewrite <- (same_shape_kids _ _ _ Hs). unfold kids. by rewrite En. }
    rewrite Hk.
    eapply (visit_children_terminates _ l t0); [| |done].
    + intros c l' t1 Hc1 Hs1. apply IH; [done|by eapply Hcl|].
      apply Hrk in Hc1. lia.
    + intros c Hc1. by eapply Hcl.
Qed.

Lemma dfs_none fuel l t :
  set_suffix_index_by_dfs (S fuel) None l t = Ok t.
Proof. done. Qed.

(** ** Accumulated label lengths are unique in a tree *)

Lemma path_length_unique t h L1 L2 :
  tree_shaped t ->
  path_length t (root t) h L1 -> path_length t (root t) h L2 -> L1 = L2.
Proof.
  intros Ht H1. revert L2.
  induction H1 as [|p c cn L Hp IH Hc Hn]; intros L2 H2.
  - inversion H2 as [|p c cn L Hp Hc Hn]; [done|].
    by apply (ts_root_orphan _ Ht) in Hc.
  - inversion H2 as [E|p' c' cn' L' Hp' Hc' Hn']; subst.
    + by apply (ts_root_orphan _ Ht) in Hc.
    + assert (p' = p) as -> by (by eapply (ts_one_parent _ Ht)).
      rewrite Hn in Hn'. injection Hn' as <-.
      by rewrite (IH L').
Qed.

(** C10. [set_suffix_index_by_dfs] changes nothing but the [index] of nodes
    without children: text, size, leaf end, active point, and every node's
    [children], [start], [end] and [suffix_link] are as before; called on
    [None] it returns the tree as it is; on a tree-shaped store it returns
    once the recursion depth suffices. *)
Theorem dfs_changes_only_leaf_indices t node l :
  tree_shaped t ->
  (forall h, node = Some h -> (h < length (nodes t))%nat) ->
  (exists fuel0, forall fuel, (fuel0 <= fuel)%nat ->
     exists t', set_suffix_index_by_dfs fuel node l t = Ok t') /\
  (forall fuel t', set_suffix_index_by_dfs fuel node l t = Ok t' ->
     only_leaf_index_changed t t') /\
  (forall fuel l', set_suffix_index_by_dfs (S fuel) None l' t = Ok t).
Proof.
  intros Ht Hv. split; [|split].
  - destruct node as [h|].
    + destruct (ts_ranked _ Ht) as [rank Hrk].
      exists (S (rank h)). intros fuel Hf.
      assert (exists t', set_suffix_index_by_dfs fuel (Some h) l t = Ok t'
                         /\ same_shape t t') as (t'&Hd&_); [|by exists t'].
      apply (dfs_terminates rank fuel h l t t);
        [apply (ts_closed _ Ht)|done|apply same_shape_refl|by apply Hv|lia].
    + exists 1%nat. intros [|fuel] Hf; [lia|]. by exists t.
  - intros fuel t'. apply dfs_frame.
  - done.
Qed.

Lemma dfs_changes_only_leaf_indices_witness :
  exists t, build_explicit 20 (chars "banana") = Ok t /\
  (exists fuel0, forall fuel, (fuel0 <= fuel)%nat ->
     exists t', set_suffix_index_by_dfs fuel (Some (root t)) 0 t = Ok t') /\
  (forall fuel t', set_suffix_index_by_dfs fuel (Some (root t)) 0 t = Ok t' ->
     only_leaf_index_changed t t') /\
  (forall fuel l', set_suffix_index_by_dfs (S fuel) None l' t = Ok t).
Proof.
  eexists. split; [vm_compute; reflexivity|].
  apply dfs_changes_only_leaf_indices.
  - apply (build_explicit_tree_shaped 20 (chars "banana")).
    vm_compute. reflexivity.
  - intros h [= <-]. vm_compute. lia.
Defined.

(** C9. [make_explicit] stores to the shared [leaf_end] twice, both times
    the terminator position: once itself (line 119) and once more in the
    phase it calls (line 57). *)
Theorem make_explicit_stores_leaf_end_twice fuel t t' :
  make_explicit fuel t = Ok t' ->
  leaf_end_writes t' = leaf_end_writes t ++ [size t; size t].
Proof. apply make_explicit_writes_leaf_end_twice. Qed.

Lemma make_explicit_stores_leaf_end_twice_witness :
  exists t t', SuffixTree_new 20 (chars "abab") = Ok t /\
    make_explicit 20 t = Ok t' /\
    leaf_end_writes t' = leaf_end_writes t ++ [size t; size t].
Proof.
  eexists. eexists. split; [vm_compute; reflexivity|].
  split; [vm_compute; reflexivity|].
  apply (make_explicit_stores_leaf_end_twice 20).
  vm_compute. reflexivity.
Defined.

(** Closes [x ∉ l] for explicit lists of distinct strings. *)
Ltac list_absent :=
  let H := fresh in
  intros H;
  repeat (apply elem_of_cons in H as [H|H]; [discriminate H|]);
  by apply not_elem_of_nil in H.

Lemma active_point_update_rules_witness :
  exists ti,
    extend_insert 4 abab_final_phase = Ok (Inserted, ti) /\
    let tm := set_remaining_suffix_count (remaining_suffix_count ti - 1) ti in
    exists t',
      extend_body 4 abab_final_phase = Ok (Inserted, t') /\
      active_point_rules 4 tm t' /\
      nodes t' = nodes tm /\
      remaining_suffix_count t' = remaining_suffix_count tm /\
      last_new_node t' = last_new_node tm /\
      leaf_end t' = leaf_end tm /\
      text t' = text tm.
Proof.
  eexists. split; [vm_compute; reflexivity|].
  apply (active_point_update_rules 4 abab_final_phase).
  vm_compute. reflexivity.
Defined.

(** C4. [make_explicit] is the finalization of section 4.4 run on a tree
    whose counter has already been incremented and whose leaf end has
    already been stored: the terminator is counted twice. *)
Lemma make_explicit_double_increment fuel t :
  make_explicit fuel t =
    finalize_spec fuel
      (set_remaining_suffix_count (remaining_suffix_count t + 1)
         (set_leaf_end (size t) t)).
Proof. reflexivity. Qed.

(** C4. On "abab" the counter is 2 after construction; the final phase of
    section 4.3 would raise it to 3 and bring it to 0 with three
    insertions, whereas [make_explicit] raises it to 4, ends at 1, and
    builds a different tree. *)
Theorem make_explicit_abab_differs_from_spec :
  exists t0 tc ts,
    SuffixTree_new 20 (chars "abab") = Ok t0 /\
    make_explicit 20 t0 = Ok tc /\
    finalize_spec 20 t0 = Ok ts /\
    remaining_suffix_count t0 = 2 /\
    remaining_suffix_count tc = 1 /\
    remaining_suffix_count ts = 0 /\
    leaf_strings 20 tc (root tc) [] =
      [chars "a$"; chars "ab$"; chars "abab$"; chars "bab$"; chars "$"] /\
    leaf_strings 20 ts (root ts) [] =
      [chars "ab$"; chars "abab$"; chars "b$"; chars "bab$"; chars "$"].
Proof.
  do 3 eexists.
  split; [vm_compute; reflexivity|].
  split; [vm_compute; reflexivity|].
  split; [vm_compute; reflexivity|].
  vm_compute. by repeat split.
Qed.

(** C3. On "abab" the finalized tree has a leaf that spells "a$", which is
    no suffix of "abab$", and no leaf spells the suffix "b$". *)
Theorem abab_leaves_are_not_the_suffixes :
  exists t,
    build_explicit 20 (chars "abab") = Ok t /\
    text t = chars "abab$" /\
    leaf_strings 20 t (root t) [] =
      [chars "a$"; chars "ab$"; chars "abab$"; chars "bab$"; chars "$"] /\
    suffixes (text t) =
      [chars "abab$"; chars "bab$"; chars "ab$"; chars "b$"; chars "$"] /\
    (chars "a$" ∈ leaf_strings 20 t (root t) []) /\
    (chars "a$" ∉ suffixes (text t)) /\
    (chars "b$" ∈ suffixes (text t)) /\
    (chars "b$" ∉ leaf_strings 20 t (root t) []).
Proof.
  eexists. split; [vm_compute; reflexivity|].
  split; [vm_compute; reflexivity|].
  split; [vm_compute; reflexivity|].
  split; [vm_compute; reflexivity|].
  vm_compute. repeat split.
  - by left.
  - list_absent.
  - do 3 right. by left.
  - list_absent.
Qed.

(** C1. On "abab", finalized and indexed, [find_all] for "b" returns
    position 1 only, where the scan finds 1 and 3; for "a" it returns
    3, 2, 0, where the scan finds 0 and 2. *)
Theorem find_all_abab_disagrees_with_scan :
  exists t,
    build_indexed 20 (chars "abab") = Ok t /\
    find_all 20 t (chars "b") = [1] /\
    occurrences (chars "b") (chars "abab") = [1; 3] /\
    find_all 20 t (chars "a") = [3; 2; 0] /\
    occurrences (chars "a") (chars "abab") = [0; 2].
Proof.
  eexists. split; [vm_compute; reflexivity|].
  vm_compute. by repeat split.
Qed.

(** C5, counterexample. For the input "$", [make_explicit] returns
    normally, and the text is then "$$". *)
Lemma make_explicit_accepts_terminator :
  ~ finalize_rejects_terminator.
Proof.
  intros H.
  assert (Hnew : exists t, SuffixTree_new 20 (chars "$") = Ok t /\
            exists t', make_explicit 20 t = Ok t' /\ text t' = chars "$$").
  { eexists. split; [vm_compute; reflexivity|].
    eexists. split; vm_compute; reflexivity. }
  destruct Hnew as (t&Hn&t'&Hm&_).
  destruct (H 20%nat (chars "$") t) as [e He]; [by left|done|].
  congruence.
Qed.

Lemma edge_length_eend t n : edge_length t n = eend t n - start n + 1.
Proof. unfold edge_length, eend. by destruct (end_ n). Qed.

Lemma eqs_refl t a d : eqs t a a d.
Proof. by intros i _. Qed.

Lemma eqs_sym t a b d : eqs t a b d -> eqs t b a d.
Proof. intros H i Hi. symmetry. by apply H. Qed.

Lemma eqs_trans t a b c d :
  eqs t a b d -> eqs t b c d -> eqs t a c d.
Proof. intros H1 H2 i Hi. rewrite H1 by done. by apply H2. Qed.

Lemma eqs_le t a b d d' : d' <= d -> eqs t a b d -> eqs t a b d'.
Proof. intros Hd H i Hi. apply H. lia. Qed.

Lemma eqs_shift t a b d s :
  0 <= s -> eqs t a b d -> eqs t (a + s) (b + s) (d - s).
Proof.
  intros Hs H i Hi. rewrite <- !Z.add_assoc. apply H. lia.
Qed.

Section Static.
Context (t : SuffixTree) (g : ghost) (Hso : store_ok t g).

Lemma gnode_ok x : gnode t g x -> exists nx, nodes t !! x = Some nx /\ node_ok t g x nx.
Proof using Hso.
  intros (nx&Hx&Hn&_). exists nx. split; [done|]. by apply (so_node _ _ Hso).
Qed.

Lemma node_dep_pos x nx :
  (1 <= x)%nat -> nodes t !! x = Some nx ->
  0 <= gdep g (gpar g x) < gdep g x.
Proof using Hso.
  intros Hx Hn. destruct (so_node _ _ Hso x nx Hx Hn) as [_ Hr Hp Hd _ _ _ _].
  rewrite edge_length_eend in Hd. lia.
Qed.

(** The parent of a node is the root or a sliced node. *)
Lemma parent_good x nx :
  (1 <= x)%nat -> nodes t !! x = Some nx ->
  gpar g x = 0%nat \/ gnode t g (gpar g x).
Proof using Hso.
  intros Hx Hn. destruct (so_node _ _ Hso x nx Hx Hn) as [Hp _ _ _ _ _ _ _].
  destruct Hp as (nu&key&Hu&_&Hget).
  destruct (decide (gpar g x = 0%nat)) as [|Hne]; [by left|right].
  exists nu. split; [lia|]. split; [done|].
  destruct (gjk g (gpar g x)) eqn:Hj; [|done].
  destruct (so_node _ _ Hso (gpar g x) nu ltac:(lia) Hu) as [_ _ _ _ Hl _ Hjk _].
  destruct (Hjk Hj) as [He _]. rewrite (Hl He) in Hget. done.
Qed.

Lemma dep_zero_root x :
  (x = 0%nat \/ gnode t g x) -> gdep g x = 0 -> x = 0%nat.
Proof using Hso.
  intros [->|(nx&Hx&Hn&_)] Hd; [done|].
  pose proof (node_dep_pos x nx Hx Hn). lia.
Qed.

Lemma anc_root a : anc g 0%nat a -> a = 0%nat.
Proof. inversion 1; [done|congruence]. Qed.

Lemma anc_dep x a :
  anc g x a -> (x = 0%nat \/ gnode t g x) ->
  (a = 0%nat \/ gnode t g a) /\ gdep g a <= gdep g x.
Proof using Hso.
  induction 1 as [x|x a Hx Ha IH]; intros Hg.
  - split; [done|lia].
  - destruct Hg as [->|(nx&Hx1&Hn&Hj)]; [done|].
    destruct (IH (parent_good x nx Hx1 Hn)) as [Hga Hd].
    split; [done|]. pose proof (node_dep_pos x nx Hx1 Hn). lia.
Qed.

Lemma anc_eqs x a :
  anc g x a -> gnode t g x -> a <> 0%nat ->
  eqs t (ghd g x) (ghd g a) (gdep g a).
Proof using Hso.
  induction 1 as [x|x a Hx Ha IH]; intros Hg Hne.
  - apply eqs_refl.
  - destruct Hg as (nx&Hx1&Hn&Hj).
    destruct (parent_good x nx Hx1 Hn) as [Hp|Hp].
    { rewrite Hp in Ha. apply anc_root in Ha. done. }
    destruct (so_node _ _ Hso x nx Hx1 Hn) as [_ _ _ _ _ _ _ Hgood].
    destruct (Hgood Hj) as (_&_&He).
    destruct (anc_dep _ _ Ha (or_intror Hp)) as [_ Hd].
    eapply eqs_trans; [eapply eqs_le; [|exact He]; lia|].
    by apply IH.
Qed.

Lemma anc_same_dep x a :
  anc g x a -> gnode t g x -> gdep g a = gdep g x -> a = x.
Proof using Hso.
  inversion 1 as [|x' a' Hx Ha]; subst; [done|].
  intros (nx&Hx1&Hn&Hj) Hd.
  destruct (anc_dep _ _ Ha (parent_good x nx Hx1 Hn)) as [_ Hd'].
  pose proof (node_dep_pos x nx Hx1 Hn). lia.
Qed.

(** Every prefix of a locus string is the string of a locus above it. *)
Lemma cover x k :
  gnode t g x -> 1 <= k <= gdep g x ->
  exists b, anc g x b /\ locus t g b k /\ eqs t (ghd g x) (ghd g b) k.
Proof using Hso.
  remember (Z.to_nat (gdep g x)) as n eqn:En.
  revert x En. induction n as [n IH] using lt_wf_ind. intros x En Hg Hk.
  destruct Hg as (nx&Hx1&Hn&Hj).
  pose proof (node_dep_pos x nx Hx1 Hn) as Hd.
  destruct (Z.lt_ge_cases (gdep g (gpar g x)) k) as [Hlt|Hge].
  - exists x. split; [constructor|]. split; [|apply eqs_refl].
    split; [by exists nx|lia].
  - destruct (parent_good x nx Hx1 Hn) as [Hp|Hp].
    { rewrite Hp, (so_dep0 _ _ Hso) in Hge. lia. }
    destruct (IH (Z.to_nat (gdep g (gpar g x))) ltac:(lia) (gpar g x) eq_refl Hp
                ltac:(lia)) as (b&Hb&Hl&He).
    exists b. split; [constructor; [lia|done]|]. split; [done|].
    destruct (so_node _ _ Hso x nx Hx1 Hn) as [_ _ _ _ _ _ _ Hgood].
    destruct (Hgood Hj) as (_&_&He').
    eapply eqs_trans; [eapply eqs_le; [|exact He']; lia|done].
Qed.

Lemma locus_key c k nc :
  locus t g c k -> nodes t !! c = Some nc ->
  exists nu key, nodes t !! gpar g c = Some nu /\
    chr t (ghd g c + gdep g (gpar g c)) = Some key /\
    dict_get key (children nu) = Some c.
Proof using Hso.
  intros [(nx&Hx1&Hn&Hj) Hk] Hnc. rewrite Hn in Hnc. injection Hnc as ->.
  destruct (so_node _ _ Hso c nc Hx1 Hn) as [Hp _ _ _ _ _ _ Hgood].
  destruct Hp as (nu&key&Hu&Hc&Hget). destruct (Hgood Hj) as (Hh&_&_).
  exists nu, key. split; [done|]. split; [|done].
  rewrite Hh. by replace (start nc - _ + _) with (start nc) by lia.
Qed.

(** Two loci with the same string are the same. *)
Lemma trie k : forall c c',
  locus t g c k -> locus t g c' k -> eqs t (ghd g c) (ghd g c') k -> c = c'.
Proof using Hso.
  remember (Z.to_nat k) as n eqn:En. revert k En.
  induction n as [n IH] using lt_wf_ind. intros k En c c' Hc Hc' He.
  assert (Hpar : forall x y, locus t g x k -> locus t g y k ->
            eqs t (ghd g x) (ghd g y) k -> 1 <= gdep g (gpar g x) ->
            anc g (gpar g y) (gpar g x)).
  { intros x y [Hgx Hkx] [Hgy Hky] Hexy Hd.
    destruct Hgx as (nx&Hx1&Hnx&Hjx).
    destruct (parent_good x nx Hx1 Hnx) as [Hp|Hp].
    { rewrite Hp, (so_dep0 _ _ Hso) in Hd. lia. }
    destruct (cover y (gdep g (gpar g x)) Hgy ltac:(lia)) as (b&Hb&Hlb&Heb).
    assert (b = gpar g x) as ->.
    { symmetry. apply (IH (Z.to_nat (gdep g (gpar g x))) ltac:(lia)
                          (gdep g (gpar g x)) eq_refl); [|done|].
      - split; [done|]. destruct Hp as (np&Hp1&Hnp&_).
        pose proof (node_dep_pos _ _ Hp1 Hnp). lia.
      - destruct (so_node _ _ Hso x nx Hx1 Hnx) as [_ _ _ _ _ _ _ Hgood].
        destruct (Hgood Hjx) as (_&_&He1).
        apply eqs_sym in He1.
        eapply eqs_trans; [exact He1|].
        eapply eqs_trans; [eapply eqs_le; [|exact Hexy]; lia|done]. }
    inversion Hb as [|y' a' Hy Ha]; subst; [|done].
    destruct Hlb as [_ Hlb]. lia. }
  assert (Hsame : gpar g c = gpar g c').
  { destruct Hc as [Hgc Hkc], Hc' as [Hgc' Hkc'].
    pose proof Hgc as (nc&Hc1&Hnc&Hjc). pose proof Hgc' as (nc'&Hc1'&Hnc'&Hjc').
    pose proof (node_dep_pos _ _ Hc1 Hnc) as Hdc.
    pose proof (node_dep_pos _ _ Hc1' Hnc') as Hdc'.
    pose proof (parent_good _ _ Hc1 Hnc) as Hpc.
    pose proof (parent_good _ _ Hc1' Hnc') as Hpc'.
    destruct (Z.eq_dec (gdep g (gpar g c)) 0) as [H0|H0],
             (Z.eq_dec (gdep g (gpar g c')) 0) as [H0'|H0'].
    - rewrite (dep_zero_root _ Hpc H0), (dep_zero_root _ Hpc' H0'). done.
    - assert (Ha : anc g (gpar g c) (gpar g c')).
      { apply (Hpar c' c); [done|done|by apply eqs_sym|lia]. }
      rewrite (dep_zero_root _ Hpc H0) in Ha. apply anc_root in Ha.
      rewrite Ha, (so_dep0 _ _ Hso) in H0'. done.
    - assert (Ha : anc g (gpar g c') (gpar g c)).
      { apply (Hpar c c'); [done|done|done|lia]. }
      rewrite (dep_zero_root _ Hpc' H0') in Ha. apply anc_root in Ha.
      rewrite Ha, (so_dep0 _ _ Hso) in H0. done.
    - assert (Ha : anc g (gpar g c') (gpar g c)).
      { apply (Hpar c c'); [done|done|done|lia]. }
      assert (Ha' : anc g (gpar g c) (gpar g c')).
      { apply (Hpar c' c); [done|done|by apply eqs_sym|lia]. }
      destruct (anc_dep _ _ Ha Hpc') as [_ Hd1].
      destruct (anc_dep _ _ Ha' Hpc) as [_ Hd2].
      destruct Hpc' as [Hz|Hpc']; [rewrite Hz, (so_dep0 _ _ Hso) in H0'; done|].
      apply (anc_same_dep _ _ Ha Hpc'). lia. }
  pose proof Hc as [(nc&Hc1&Hnc&Hjc) Hkc].
  pose proof Hc' as [(nc'&Hc1'&Hnc'&Hjc') Hkc'].
  destruct (locus_key c k nc Hc Hnc) as (nu&key&Hu&Hch&Hget).
  destruct (locus_key c' k nc' Hc' Hnc') as (nu'&key'&Hu'&Hch'&Hget').
  rewrite <- Hsame in Hu', Hch'. rewrite Hu in Hu'. injection Hu' as <-.
  assert (key = key').
  { pose proof (node_dep_pos _ _ Hc1 Hnc).
    rewrite (He (gdep g (gpar g c))) in Hch by lia. congruence. }
  subst key'. congruence.
Qed.

(** The edge on which the active point lies: if the string at [J] of
    length [pd] is in the tree and the active node spells its first [gdep]
    symbols, the active node has a child for the next symbol, and the edge
    to it spells the string further. *)
Lemma active_edge_child P an J pd :
  complete t g P ->
  (an = 0%nat \/ gnode t g an /\ eqs t (ghd g an) J (gdep g an)) ->
  0 <= J -> gdep g an < pd -> J + pd <= P ->
  exists next nan key,
    nodes t !! an = Some nan /\
    chr t (J + gdep g an) = Some key /\
    dict_get key (children nan) = Some next /\
    gnode t g next /\ gpar g next = an /\
    eqs t (ghd g next) J (Z.min (gdep g next) pd).
Proof using Hso.
  intros Hcp Han HJ Hd HP.
  assert (Hd0 : 0 <= gdep g an).
  { destruct Han as [->|[(na&Ha1&Hna&_) _]]; [rewrite (so_dep0 _ _ Hso); lia|].
    pose proof (node_dep_pos _ _ Ha1 Hna). lia. }
  destruct (Hcp J pd HJ ltac:(lia) HP) as (c&Hlc&Hec).
  pose proof Hlc as [Hgc Hkc].
  destruct (cover c (gdep g an + 1) Hgc ltac:(lia)) as (b&Hb&Hlb&Heb).
  pose proof Hlb as [Hgb Hkb].
  pose proof Hgb as (nb&Hb1&Hnb&Hjb).
  assert (Hbd : gdep g b <= gdep g c).
  { by destruct (anc_dep _ _ Hb (or_intror Hgc)). }
  assert (HebJ : eqs t (ghd g b) J (Z.min (gdep g b) pd)).
  { eapply eqs_trans.
    - apply eqs_sym. eapply eqs_le; [|apply (anc_eqs _ _ Hb Hgc); lia]. lia.
    - eapply eqs_le; [|exact Hec]. lia. }
  assert (Hpb : gpar g b = an).
  { destruct (so_node _ _ Hso b nb Hb1 Hnb) as [_ _ _ _ _ _ _ Hgood].
    destruct (Hgood Hjb) as (_&_&Hbp).
    destruct Han as [->|[Hga Hea]].
    - rewrite (so_dep0 _ _ Hso) in Hkb.
      apply dep_zero_root; [by eapply parent_good|].
      pose proof (node_dep_pos _ _ Hb1 Hnb). lia.
    - pose proof Hga as (na&Ha1&Hna&Hja).
      pose proof (node_dep_pos _ _ Ha1 Hna) as Hda.
      assert (Hla : locus t g an (gdep g an)) by (split; [done|lia]).
      destruct (Z.eq_dec (gdep g (gpar g b)) (gdep g an)) as [Heq|Hne].
      + destruct (parent_good _ _ Hb1 Hnb) as [Hz|Hgp].
        { rewrite Hz, (so_dep0 _ _ Hso) in Heq. lia. }
        symmetry. apply (trie (gdep g an)); [done| |].
        * split; [done|]. destruct Hgp as (np&Hp1&Hnp&_).
          pose proof (node_dep_pos _ _ Hp1 Hnp). lia.
        * eapply eqs_trans; [exact Hea|].
          eapply eqs_trans;
            [apply eqs_sym; eapply eqs_le; [|exact HebJ]; lia|].
          rewrite <- Heq. done.
      + assert (an = b) as <-.
        { apply (trie (gdep g an)); [done| |].
          - split; [done|lia].
          - eapply eqs_trans; [exact Hea|].
            apply eqs_sym. eapply eqs_le; [|exact HebJ]. lia. }
        lia. }
  destruct (so_node _ _ Hso b nb Hb1 Hnb) as [Hp _ _ _ _ _ _ Hgood].
  destruct Hp as (nu&key&Hu&Hch&Hget). destruct (Hgood Hjb) as (Hh&_&_).
  rewrite Hpb in Hu, Hh.
  exists b, nu, key. repeat split; try done.
  rewrite <- (HebJ (gdep g an)) by lia.
  rewrite Hh. by replace (start nb - _ + _) with (start nb) by lia.
Qed.
End Static.

Lemma match_relink (o : option nat) l (ns : list SuffixTreeNode) :
  match o with
  | Some h => alter (node_set_suffix_link l) h ns
  | None => ns
  end = relink o l ns.
Proof. done. Qed.

Lemma relink_lookup o l ns x :
  relink o l ns !! x =
    (if decide (o = Some x) then node_set_suffix_link l else id) <$> ns !! x.
Proof.
  unfold relink. destruct o as [h|].
  - rewrite list_lookup_alter. destruct (decide (h = x)) as [->|Hne].
    + by rewrite decide_True.
    + rewrite decide_False by congruence. by destruct (ns !! x).
  - rewrite decide_False by done. by destruct (ns !! x).
Qed.

Lemma dict_get_set_eq {V} k (v : V) d : dict_get k (dict_set k v d) = Some v.
Proof.
  induction d as [|[k' w] d IH]; cbn.
  - by rewrite Ascii.eqb_refl.
  - destruct (Ascii.eqb k k') eqn:E; cbn; rewrite E; [done|exact IH].
Qed.

Lemma dict_get_set_ne {V} k k' (v : V) d :
  k <> k' -> dict_get k (dict_set k' v d) = dict_get k d.
Proof.
  intros Hne. assert (Ascii.eqb k k' = false) as Hf by (by apply Ascii.eqb_neq).
  induction d as [|[k2 w] d IH]; cbn.
  - by rewrite Hf.
  - destruct (Ascii.eqb k' k2) eqn:E; cbn.
    + apply Ascii.eqb_eq in E. subst k2. by rewrite Hf.
    + destruct (Ascii.eqb k k2); [done|exact IH].
Qed.

Lemma dict_set_elem {V} k (v : V) d k' v' :
  (k', v') ∈ dict_set k v d -> (k', v') ∈ d \/ (k', v') = (k, v).
Proof.
  induction d as [|[k2 w] d IH]; cbn.
  - intros H. apply list_elem_of_singleton in H. by right.
  - destruct (Ascii.eqb k k2) eqn:E.
    + apply Ascii.eqb_eq in E. subst k2.
      intros H. apply elem_of_cons in H as [->|H]; [by right|left; by right].
    + intros H. apply elem_of_cons in H as [->|H]; [left; left|].
      destruct (IH H); [left; by right|by right].
Qed.

Lemma dict_get_Some_elem {V} k (v : V) d :
  dict_get k d = Some v -> (k, v) ∈ d.
Proof.
  induction d as [|[k2 w] d IH]; cbn; [done|].
  destruct (Ascii.eqb k k2) eqn:E.
  - apply Ascii.eqb_eq in E. subst k2. intros [= ->]. left.
  - intros H. right. by apply IH.
Qed.

Lemma dict_set_length_absent {V} k (v : V) d :
  dict_get k d = None -> length (dict_set k v d) = S (length d).
Proof.
  induction d as [|[k2 w] d IH]; cbn; [done|].
  destruct (Ascii.eqb k k2); [done|]. intros H. cbn. by rewrite IH.
Qed.

Lemma dict_set_length_present {V} k (v w : V) d :
  dict_get k d = Some w -> length (dict_set k v d) = length d.
Proof.
  induction d as [|[k2 u] d IH]; cbn; [done|].
  destruct (Ascii.eqb k k2); [done|]. intros H. cbn. by rewrite IH.
Qed.

(** The store after [add_leaf], node by node. *)
Lemma add_leaf_lookup pos cur t nan x :
  nodes t !! active_node t = Some nan ->
  nodes (add_leaf pos cur t) !! x =
    (if decide (last_new_node t = Some x)
     then node_set_suffix_link (Some (active_node t)) else id) <$>
    (if decide (x = length (nodes t)) then Some (new_node pos EndLeaf)
     else if decide (x = active_node t)
          then Some (node_set_child cur (length (nodes t)) nan)
          else nodes t !! x).
Proof.
  intros Han. pose proof (lookup_lt_Some _ _ _ Han) as Hlt.
  rewrite add_leaf_spec.
  assert (nodes (match last_new_node t with
                 | Some _ => set_last_new_node None
                               (set_nodes (leaf_nodes pos cur t) t)
                 | None => set_nodes (leaf_nodes pos cur t) t
                 end) = leaf_nodes pos cur t) as -> by (by destruct (last_new_node t)).
  unfold leaf_nodes. cbv zeta. rewrite match_relink.
  rewrite relink_lookup. f_equal.
  rewrite list_lookup_alter.
  destruct (decide (x = length (nodes t))) as [->|Hx].
  - rewrite decide_False by lia. rewrite lookup_app_r by lia.
    by rewrite Nat.sub_diag.
  - destruct (decide (active_node t = x)) as [<-|Hne].
    + rewrite decide_True by done. rewrite lookup_app_l by done.
      by rewrite Han.
    + rewrite decide_False by congruence.
      destruct (decide (x < length (nodes t))%nat).
      * by rewrite lookup_app_l.
      * rewrite !(proj2 (lookup_ge_None _ _)); [done|lia|].
        rewrite length_app. cbn. lia.
Qed.

(** The store after [split_edge], node by node. *)
Lemma split_nodes_lookup pos cur c2 c3 next nn nan t x :
  nodes t !! active_node t = Some nan ->
  nodes t !! next = Some nn ->
  active_node t <> next ->
  split_nodes pos cur c2 c3 next nn t !! x =
    (if decide (last_new_node t = Some x)
     then node_set_suffix_link (Some (length (nodes t))) else id) <$>
    (if decide (x = length (nodes t))
     then Some (mkNode (dict_set c3 next [(c2, S (length (nodes t)))]) None
                  (start nn) (EndInt (start nn + active_length t - 1)) (-1))
     else if decide (x = S (length (nodes t)))
          then Some (new_node pos EndLeaf)
     else if decide (x = active_node t)
          then Some (node_set_child cur (length (nodes t)) nan)
     else if decide (x = next)
          then Some (node_set_start (start nn + active_length t) nn)
     else nodes t !! x).
Proof.
  intros Han Hnn Hne.
  pose proof (lookup_lt_Some _ _ _ Han) as Hlt.
  pose proof (lookup_lt_Some _ _ _ Hnn) as Hlt'.
  unfold split_nodes. cbv zeta. rewrite match_relink.
  rewrite relink_lookup. f_equal.
  set (N := length (nodes t)).
  set (Z0 := nodes t ++ [new_node (start nn) (EndInt (start nn + active_length t - 1))]).
  assert (HZ : length (alter (node_set_child cur N) (active_node t) Z0) = S N).
  { rewrite length_alter. subst Z0. rewrite length_app. cbn. lia. }
  rewrite list_lookup_alter.
  destruct (decide (x = N)) as [->|HxN].
  - rewrite decide_True by done.
    rewrite list_lookup_alter_ne by lia.
    rewrite list_lookup_alter_eq.
    rewrite lookup_app_l by lia.
    rewrite list_lookup_alter_ne by lia.
    subst Z0. rewrite lookup_app_r by lia. subst N.
    rewrite Nat.sub_diag. done.
  - rewrite decide_False by congruence.
    rewrite list_lookup_alter.
    destruct (decide (x = S N)) as [->|HxS].
    + rewrite decide_False by lia.
      rewrite list_lookup_alter_ne by lia.
      rewrite lookup_app_r by lia. rewrite HZ, Nat.sub_diag. done.
    + assert (Hbase : forall y, y <> N -> y <> S N ->
              alter (node_set_child c2 (S N)) N
                (alter (node_set_child cur N) (active_node t) Z0 ++
                        [new_node pos EndLeaf]) !! y =
              if decide (y = active_node t)
              then Some (node_set_child cur N nan) else nodes t !! y).
      { intros y Hy1 Hy2. rewrite list_lookup_alter_ne by congruence.
        destruct (decide (y < S N)%nat).
        - rewrite lookup_app_l by lia. rewrite list_lookup_alter.
          destruct (decide (active_node t = y)) as [<-|Hxa].
          + rewrite decide_True by done. subst Z0.
            rewrite lookup_app_l by lia. by rewrite Han.
          + rewrite decide_False by congruence. subst Z0.
            by rewrite lookup_app_l by lia.
        - rewrite (proj2 (lookup_ge_None _ _)).
          2:{ rewrite length_app, HZ. cbn. lia. }
          rewrite decide_False by lia.
          symmetry. apply lookup_ge_None. lia. }
      destruct (decide (next = x)) as [<-|Hxn].
      * rewrite Hbase by lia.
        rewrite !(decide_False (P := next = active_node t)) by congruence.
        rewrite (decide_True (P := next = next)) by done. by rewrite Hnn.
      * rewrite Hbase by done.
        destruct (decide (x = active_node t)); [done|].
        by rewrite (decide_False (P := x = next)) by congruence.
Qed.

Lemma same_store_refl t : same_store t t.
Proof. by repeat split. Qed.

Lemma chr_ext t t' i : text t' = text t -> chr t' i = chr t i.
Proof. unfold chr. by intros ->. Qed.

Lemma eqs_ext t t' a b d : text t' = text t -> eqs t a b d -> eqs t' a b d.
Proof. intros Ht H i Hi. rewrite !(chr_ext t t') by done. by apply H. Qed.

Lemma node_ok_ext t t' g x nx :
  same_store t t' -> node_ok t g x nx -> node_ok t' g x nx.
Proof.
  intros (Hn&Ht&Hs&Hr&Hl) [H1 H2 H3 H4 H5 H6 H7 H8].
  split; unfold eend, edge_length in *; rewrite ?Hl, ?Hn;
    try setoid_rewrite (chr_ext t t'); try done.
  intros Hj. destruct (H8 Hj) as (?&?&?). repeat split; try done.
  by apply (eqs_ext t).
Qed.

Lemma internal_ext t t' x : nodes t' = nodes t -> internal t x -> internal t' x.
Proof. intros Hn (nx&e&?&?). exists nx, e. by rewrite Hn. Qed.

Lemma store_ok_ext t t' g :
  same_store t t' -> store_ok t g -> store_ok t' g.
Proof.
  intros Hs [H1 H2 H3 H4 H5 H6 H7]. pose proof Hs as (Hn&Ht&Hsz&Hr&Hl).
  split; rewrite ?Hr, ?Hn, ?Ht, ?Hsz, ?Hl; try done.
  - by apply (internal_ext t).
  - intros x nx Hx Hnx. apply (node_ok_ext t); [done|]. by apply H6.
  - intros u nu k c Hu Hc. destruct (H7 u nu k c Hu Hc) as (nc&?&?&?&?).
    exists nc. by rewrite (chr_ext t t').
Qed.

Lemma gnode_ext t t' g x : nodes t' = nodes t -> gnode t g x -> gnode t' g x.
Proof. intros Hn (nx&?&?&?). exists nx. by rewrite Hn. Qed.

Lemma locus_ext t t' g c k : nodes t' = nodes t -> locus t g c k -> locus t' g c k.
Proof. intros Hn [H1 H2]. split; [by apply (gnode_ext t)|done]. Qed.

Lemma complete_ext t t' g P :
  same_store t t' -> complete t g P -> complete t' g P.
Proof.
  intros (Hn&Ht&_) H i k Hi Hk HP. destruct (H i k Hi Hk HP) as (c&Hc&He).
  exists c. split; [by apply (locus_ext t)|by apply (eqs_ext t)].
Qed.

Lemma link_ok_ext t t' g x nx :
  same_store t t' -> last_new_node t' = last_new_node t ->
  link_ok t g x nx -> link_ok t' g x nx.
Proof.
  intros (Hn&Ht&_) Hl. unfold link_ok. destruct (suffix_link nx) as [l|].
  - intros ([->|[H1 H2]]&H3&H4); (split; [|split; [done|]]).
    + by left.
    + intros. by apply (eqs_ext t), H4.
    + right. split; [by apply (gnode_ext t)|by apply (internal_ext t)].
    + intros. by apply (eqs_ext t), H4.
  - by rewrite Hl.
Qed.

Lemma chr_in_range t i :
  0 <= i < Z.of_nat (length (text t)) -> is_Some (chr t i).
Proof.
  intros Hi. unfold chr, py_index.
  replace ((0 <=? i) && (i <? Z.of_nat (length (text t)))) with true
    by (symmetry; apply andb_true_iff; split; [apply Z.leb_le|apply Z.ltb_lt]; lia).
  apply lookup_lt_is_Some. lia.
Qed.

(** ** What the invariant says at the head of the loop body *)

Section Body.
Context (pos delta sh : Z) (t : SuffixTree) (g : ghost)
        (Hinv : inv pos delta sh t g).

Let J := pos - sh - pdepth t g.

Lemma inv_pos_range : 0 <= pos < Z.of_nat (length (text t)).
Proof using Hinv.
  pose proof (iv_store _ _ _ _ _ Hinv) as Hso.
  pose proof (iv_pos _ _ _ _ _ Hinv) as Hp.
  pose proof (iv_flags _ _ _ _ _ Hinv) as Hf.
  pose proof (iv_al _ _ _ _ _ Hinv) as Hal.
  pose proof (iv_J _ _ _ _ _ Hinv) as HJ.
  destruct Hso as [_ _ Hd0 Hs Hl _ _]. rewrite Hp, Hs in Hl.
  assert (0 <= pdepth t g); [|lia].
  unfold pdepth.
  destruct (iv_an _ _ _ _ _ Hinv) as [->|[(nx&Hx&Hn&_) _]]; [lia|].
  pose proof (node_dep_pos t g (iv_store _ _ _ _ _ Hinv) _ _ Hx Hn). lia.
Qed.

Lemma inv_dep_an : 0 <= gdep g (active_node t).
Proof using Hinv.
  destruct (iv_an _ _ _ _ _ Hinv) as [->|[(nx&Hx&Hn&_) _]].
  - rewrite (so_dep0 _ _ (iv_store _ _ _ _ _ Hinv)). lia.
  - pose proof (node_dep_pos t g (iv_store _ _ _ _ _ Hinv) _ _ Hx Hn). lia.
Qed.

Lemma inv_an_node : exists nan, nodes t !! active_node t = Some nan.
Proof using Hinv.
  destruct (iv_an _ _ _ _ _ Hinv) as [->|[(nx&Hx&Hn&_) _]]; [|by exists nx].
  destruct (so_root_node _ _ (iv_store _ _ _ _ _ Hinv)) as (r&e&Hr&_).
  by exists r.
Qed.

(** With a positive active length, the active node has the edge the
    active point lies on. *)
Lemma inv_active_edge :
  0 < active_length t ->
  exists next nan nn key,
    nodes t !! active_node t = Some nan /\
    chr t (active_edge t) = Some key /\
    0 <= active_edge t < pos /\
    dict_get key (children nan) = Some next /\
    nodes t !! next = Some nn /\
    gnode t g next /\ gpar g next = active_node t /\
    eqs t (ghd g next) J (Z.min (gdep g next) (pdepth t g)).
Proof using Hinv.
  intros Hal.
  pose proof inv_dep_an as Hd.
  destruct (active_edge_child t g (iv_store _ _ _ _ _ Hinv) pos (active_node t)
              J (pdepth t g) (iv_complete _ _ _ _ _ Hinv))
    as (next&nan&key&Hnan&Hch&Hget&Hgn&Hpar&He).
  - destruct (iv_an _ _ _ _ _ Hinv) as [?|(?&?&?)]; [by left|by right].
  - apply (iv_J _ _ _ _ _ Hinv).
  - unfold pdepth. lia.
  - subst J. destruct (iv_flags _ _ _ _ _ Hinv). lia.
  - pose proof Hgn as (nn&_&Hnn&_).
    exists next, nan, nn, key. rewrite (iv_ae _ _ _ _ _ Hinv Hal).
    repeat split; try done.
    + pose proof (iv_J _ _ _ _ _ Hinv). lia.
    + fold J. subst J. unfold pdepth. destruct (iv_flags _ _ _ _ _ Hinv). lia.
Qed.
End Body.

(** A leaf's string ends with the symbol read last. *)
Lemma leaf_dep t g x nx :
  store_ok t g -> (1 <= x)%nat -> nodes t !! x = Some nx ->
  end_ nx = EndLeaf -> gjk g x = false ->
  gdep g x = leaf_end t + 1 - ghd g x /\ gdep g (gpar g x) < gdep g x.
Proof.
  intros Hso Hx Hn He Hj.
  destruct (so_node _ _ Hso x nx Hx Hn) as [_ Hr Hp Hd _ _ _ Hg].
  destruct (Hg Hj) as (Hh&_&_). rewrite edge_length_eend in Hd.
  unfold eend in *. rewrite He in *. lia.
Qed.

(** ** The active-point update after an insertion *)

Section Update.
Context (pos delta sh : Z) (t : SuffixTree) (g : ghost)
        (Hmid : mid pos delta sh t g).

Let tm := set_remaining_suffix_count (remaining_suffix_count t - 1) t.

Lemma mid_dep_an : 0 <= gdep g (active_node t).
Proof using Hmid.
  destruct (md_an _ _ _ _ _ Hmid) as [->|[(nx&Hx&Hn&_) _]].
  - rewrite (so_dep0 _ _ (md_store _ _ _ _ _ Hmid)). lia.
  - pose proof (node_dep_pos t g (md_store _ _ _ _ _ Hmid) _ _ Hx Hn). lia.
Qed.

Lemma update_at_root :
  1 <= pdepth t g -> active_node t = 0%nat ->
  exists t', update_active_point pos tm = Ok t' /\
    inv pos delta delta t' g /\
    active_length t' <= active_length t /\
    remaining_suffix_count t' = remaining_suffix_count t - 1.
Proof using Hmid.
  intros Hpd Han.
  pose proof (md_store _ _ _ _ _ Hmid) as Hso.
  pose proof (md_flags _ _ _ _ _ Hmid) as Hf.
  pose proof (md_pd _ _ _ _ _ Hmid) as Hpdr.
  pose proof (md_J _ _ _ _ _ Hmid) as HJ.
  assert (Hd0 : gdep g 0%nat = 0) by apply (so_dep0 _ _ Hso).
  assert (Hal : active_length t = pdepth t g).
  { unfold pdepth. rewrite Han, Hd0. lia. }
  unfold update_active_point. subst tm. cbn.
  rewrite Han, (so_root _ _ Hso). cbn.
  replace (active_length t >? 0) with true by (symmetry; apply Z.gtb_lt; lia).
  eexists. split; [reflexivity|].
  set (t' := set_active_edge _ _).
  assert (Hss : same_store t t') by (by repeat split).
  assert (Hpd' : pdepth t' g = pdepth t g - 1).
  { unfold pdepth. subst t'. cbn. rewrite Han. lia. }
  split; [|split; [subst t'; cbn; lia|done]].
  split; rewrite ?Hpd'.
  - by apply (store_ok_ext t).
  - apply (md_pos _ _ _ _ _ Hmid).
  - lia.
  - apply (complete_ext t); [done|]. apply (md_complete _ _ _ _ _ Hmid).
  - left. subst t'. cbn. done.
  - subst t'. cbn. lia.
  - subst t'. cbn. lia.
  - lia.
  - intros _. subst t'. cbn. rewrite Han, Hd0. lia.
  - intros Hd. apply (md_nojunk _ _ _ _ _ Hmid). lia.
  - intros Hd i Hi.
    destruct (md_leaves _ _ _ _ _ Hmid Hd i ltac:(lia)) as (x&nx&?&?&?&?).
    exists x, nx. split; [by apply (gnode_ext t)|done].
  - intros x nx Hx Hn He.
    pose proof (md_leafdep _ _ _ _ _ Hmid x nx Hx Hn He). lia.
  - pose proof (md_count _ _ _ _ _ Hmid) as Hc.
    change (nodes t') with (nodes t). lia.
  - intros x nx e Hx Hn He Htr.
    apply (link_ok_ext t); [done|done|].
    apply (md_links _ _ _ _ _ Hmid x nx e Hx Hn He). lia.
  - intros v Hv.
    destruct (md_pending _ _ _ _ _ Hmid v Hv) as (nv&e&Hv1&Hnv&He&Hdv&_&Hrest).
    exists nv, e. repeat split; try done; [lia| |].
    + destruct (Hrest H) as [He1 _].
      apply (eqs_ext t); [done|].
      replace (pos - delta - (pdepth t g - 1)) with (pos - sh - pdepth t g + 1) by lia.
      done.
    + destruct (Hrest H) as [_ (y&ny&Hy&Hny&Hpy&Hb&Hc)].
      exists y, ny. split; [by apply (gnode_ext t)|]. repeat split; try done; lia.
Qed.

Lemma update_by_link :
  1 <= pdepth t g -> active_node t <> 0%nat ->
  exists t', update_active_point pos tm = Ok t' /\
    inv pos delta sh t' g /\
    active_length t' <= active_length t /\
    remaining_suffix_count t' = remaining_suffix_count t - 1.
Proof using Hmid.
  intros Hpd Han.
  pose proof (md_store _ _ _ _ _ Hmid) as Hso.
  pose proof (md_flags _ _ _ _ _ Hmid) as Hf.
  pose proof (md_pd _ _ _ _ _ Hmid) as Hpdr.
  pose proof (md_J _ _ _ _ _ Hmid) as HJ.
  pose proof (md_al _ _ _ _ _ Hmid) as Hal.
  assert (Hd0 : gdep g 0%nat = 0) by apply (so_dep0 _ _ Hso).
  destruct (md_an _ _ _ _ _ Hmid) as [?|(Hga&Hia&Hea)]; [done|].
  pose proof Hga as (nan&Ha1&Hnan&Hja).
  pose proof Hia as (nan'&e&Hnan'&Hen). rewrite Hnan in Hnan'.
  injection Hnan' as <-.
  pose proof (node_dep_pos t g Hso _ _ Ha1 Hnan) as Hda.
  (* the node the link leads to *)
  set (l := match suffix_link nan with Some l => l | None => 0%nat end).
  assert (Hl : (l = 0%nat \/ (gnode t g l /\ internal t l)) /\
               gdep g l = gdep g (active_node t) - 1 /\
               (l <> 0%nat -> eqs t (ghd g l) (ghd g (active_node t) + 1) (gdep g l))).
  { pose proof (md_links _ _ _ _ _ Hmid _ _ _ Ha1 Hnan Hen) as Hlk.
    unfold link_ok in Hlk. subst l.
    destruct (suffix_link nan) as [l|].
    - apply Hlk. right. unfold pdepth in *. lia.
    - destruct Hlk as [Hp|Hd1]; [right; unfold pdepth in *; lia| |].
      + destruct (md_pending _ _ _ _ _ Hmid _ Hp) as (?&?&?&?&?&?&?&?). done.
      + split; [by left|]. split; [lia|done]. }
  destruct Hl as (Hl1&Hl2&Hl3).
  unfold update_active_point. subst tm. cbn.
  rewrite (so_root _ _ Hso).
  replace (active_node t =? 0)%nat with false by (symmetry; apply Nat.eqb_neq; lia).
  cbn. rewrite Hnan. fold l.
  eexists. split; [reflexivity|].
  set (t' := set_active_node _ _).
  assert (Hss : same_store t t') by (by repeat split).
  assert (Hpd' : pdepth t' g = pdepth t g - 1).
  { unfold pdepth. subst t'. cbn. lia. }
  split; [|split; [subst t'; cbn; lia|done]].
  split; rewrite ?Hpd'.
  - by apply (store_ok_ext t).
  - apply (md_pos _ _ _ _ _ Hmid).
  - lia.
  - apply (complete_ext t); [done|]. apply (md_complete _ _ _ _ _ Hmid).
  - change (active_node t') with l.
    destruct (decide (l = 0%nat)) as [?|Hl0]; [by left|right].
    destruct Hl1 as [?|[Hgl Hil]]; [done|].
    split; [by apply (gnode_ext t)|]. split; [by apply (internal_ext t)|].
    apply (eqs_ext t); [done|].
    eapply eqs_trans; [by apply Hl3|].
    intros i Hi.
    replace (ghd g (active_node t) + 1 + i) with (ghd g (active_node t) + (1 + i)) by lia.
    rewrite (Hea (1 + i)) by lia. f_equal. lia.
  - done.
  - subst t'. cbn. lia.
  - lia.
  - intros Hp. change (active_node t') with l. change (active_edge t') with (active_edge t).
    rewrite (md_ae _ _ _ _ _ Hmid Hp). lia.
  - apply (md_nojunk _ _ _ _ _ Hmid).
  - intros Hd i Hi.
    destruct (md_leaves _ _ _ _ _ Hmid Hd i ltac:(lia)) as (x&nx&?&?&?&?).
    exists x, nx. split; [by apply (gnode_ext t)|done].
  - intros x nx Hx Hn He.
    pose proof (md_leafdep _ _ _ _ _ Hmid x nx Hx Hn He). lia.
  - pose proof (md_count _ _ _ _ _ Hmid) as Hc.
    change (nodes t') with (nodes t). lia.
  - intros x nx e' Hx Hn He Htr.
    apply (link_ok_ext t); [done|done|].
    apply (md_links _ _ _ _ _ Hmid x nx e' Hx Hn He). lia.
  - intros v Hv.
    destruct (md_pending _ _ _ _ _ Hmid v Hv) as (nv&e'&Hv1&Hnv&He&Hdv&_&Hrest).
    exists nv, e'. repeat split; try done; [lia| |].
    + destruct (Hrest H) as [He1 _].
      apply (eqs_ext t); [done|].
      replace (pos - sh - (pdepth t g - 1)) with (pos - sh - pdepth t g + 1) by lia.
      done.
    + destruct (Hrest H) as [_ (y&ny&Hy&Hny&Hpy&Hb&Hc)].
      exists y, ny. split; [by apply (gnode_ext t)|]. repeat split; try done; lia.
Qed.

Lemma update_at_end :
  pdepth t g = 0 ->
  update_active_point pos tm = Ok tm /\
  (delta = 0 -> ready (pos + 1) tm g) /\
  (delta = 1 -> last_pass pos tm g).
Proof using Hmid.
  intros Hpd.
  pose proof (md_store _ _ _ _ _ Hmid) as Hso.
  pose proof (md_flags _ _ _ _ _ Hmid) as Hf.
  pose proof (md_pd _ _ _ _ _ Hmid) as Hpdr.
  pose proof (md_J _ _ _ _ _ Hmid) as HJ.
  pose proof (md_al _ _ _ _ _ Hmid) as Hal.
  pose proof (md_pos _ _ _ _ _ Hmid) as Hpos.
  pose proof mid_dep_an as Hda.
  assert (Hd0 : gdep g 0%nat = 0) by apply (so_dep0 _ _ Hso).
  assert (Han : active_node t = 0%nat).
  { apply (dep_zero_root t g Hso).
    - destruct (md_an _ _ _ _ _ Hmid) as [?|(?&_)]; [by left|by right].
    - unfold pdepth in Hpd. lia. }
  assert (Hal0 : active_length t = 0) by (unfold pdepth in Hpd; lia).
  assert (Hss : same_store t tm) by (by repeat split).
  assert (Hpm : pdepth tm g = 0) by done.
  split; [|split].
  - unfold update_active_point. subst tm. cbn.
    rewrite Han, (so_root _ _ Hso), Hal0. done.
  - intros Hd. assert (sh = 0) as -> by lia.
    split; rewrite ?Hpm.
    + by apply (store_ok_ext t).
    + subst tm. cbn. lia.
    + intros i k Hi Hk Hik.
      destruct (Z.le_gt_cases (i + k) pos) as [Hle|Hgt].
      * destruct (md_complete _ _ _ _ _ Hmid i k Hi Hk Hle) as (c&Hc&He).
        exists c. split; [by apply (locus_ext t)|by apply (eqs_ext t)].
      * destruct (md_leaves _ _ _ _ _ Hmid Hd i ltac:(lia)) as (x&nx&Hgx&Hnx&Hex&Hhx).
        pose proof Hgx as (nx'&Hx1&Hnx'&Hjx).
        destruct (leaf_dep t g x nx Hso Hx1 Hnx Hex Hjx) as [Hdx Hpx].
        exists x. split; [|rewrite Hhx; apply eqs_refl].
        split; [by apply (gnode_ext t)|]. lia.
    + left. done.
    + subst tm. cbn. lia.
    + subst tm. cbn. lia.
    + lia.
    + subst tm. cbn. lia.
    + by apply (md_nojunk _ _ _ _ _ Hmid).
    + intros i Hi.
      destruct (md_leaves _ _ _ _ _ Hmid Hd i ltac:(lia)) as (x&nx&?&?&?&?).
      exists x, nx. split; [by apply (gnode_ext t)|done].
    + intros x nx Hx Hn He.
      pose proof (md_leafdep _ _ _ _ _ Hmid x nx Hx Hn He). lia.
    + pose proof (md_count _ _ _ _ _ Hmid) as Hc.
      change (nodes tm) with (nodes t). lia.
    + intros x nx e Hx Hn He.
      pose proof (md_links _ _ _ _ _ Hmid x nx e Hx Hn He (or_introl Hd)) as Hlk.
      unfold link_ok in Hlk. destruct (suffix_link nx) as [l|].
      * destruct Hlk as ([?|[? ?]]&?&?); (split; [|split; [done|]]).
        -- by left.
        -- intros. by apply (eqs_ext t); auto.
        -- right. split; [by apply (gnode_ext t)|by apply (internal_ext t)].
        -- intros. by apply (eqs_ext t); auto.
      * destruct Hlk as [Hp|?]; [|done].
        destruct (md_pending _ _ _ _ _ Hmid _ Hp) as (nv&e'&_&Hnv&_&Hdv&_).
        pose proof (node_dep_pos t g Hso _ _ Hx Hn). lia.
  - intros Hd. split.
    + by apply (store_ok_ext t).
    + done.
    + done.
    + done.
    + subst tm. cbn. lia.
    + pose proof (md_count _ _ _ _ _ Hmid) as Hc.
      change (nodes tm) with (nodes t). lia.
    + apply (md_new _ _ _ _ _ Hmid Hpd).
Qed.
End Update.

(** ** States that differ in suffix links only *)

Lemma same_edges_lookup t t' x n :
  same_edges t t' -> nodes t !! x = Some n ->
  exists n', nodes t' !! x = Some n' /\
    children n' = children n /\ start n' = start n /\ end_ n' = end_ n.
Proof.
  intros (Hnone&Hsome&_) Hn.
  destruct (nodes t' !! x) as [n'|] eqn:E.
  - exists n'. split; [done|]. by apply (Hsome x).
  - apply Hnone in E. congruence.
Qed.

Lemma same_edges_lookup_inv t t' x n' :
  same_edges t t' -> nodes t' !! x = Some n' ->
  exists n, nodes t !! x = Some n /\
    children n' = children n /\ start n' = start n /\ end_ n' = end_ n.
Proof.
  intros (Hnone&Hsome&_) Hn.
  destruct (nodes t !! x) as [n|] eqn:E.
  - exists n. split; [done|]. by apply (Hsome x).
  - apply Hnone in E. congruence.
Qed.

Lemma same_edges_link target t :
  same_edges t (link_last_new_node target t).
Proof.
  unfold link_last_new_node. destruct (last_new_node t) as [v|].
  - split; [|split; [|done]]; cbn.
    + intros x. rewrite list_lookup_alter. case_decide; [subst|done].
      by destruct (nodes t !! x).
    + intros x n n' Hn. rewrite list_lookup_alter.
      case_decide; [subst|]; rewrite Hn; cbn; by intros [= <-].
  - split; [done|]. split; [|done]. intros x n n' Hn Hn'.
    rewrite Hn in Hn'. by injection Hn' as <-.
Qed.

Lemma same_edges_set_active_length v t : same_edges t (set_active_length v t).
Proof.
  split; [done|]. split; [|done]. intros x n n' Hn Hn'.
  cbn in Hn'. rewrite Hn in Hn'. by injection Hn' as <-.
Qed.

Lemma same_edges_trans t1 t2 t3 :
  same_edges t1 t2 -> same_edges t2 t3 -> same_edges t1 t3.
Proof.
  intros H12 H23. pose proof H12 as (Hn1&Hs1&?&?&?&?).
  pose proof H23 as (Hn2&Hs2&?&?&?&?).
  split; [|split; [|repeat split; congruence]].
  - intros x. rewrite Hn2. apply Hn1.
  - intros x n n'' Hn Hn''.
    destruct (same_edges_lookup _ _ _ _ H12 Hn) as (n'&Hn'&?&?&?).
    destruct (Hs2 x n' n'' Hn' Hn'') as (?&?&?). repeat split; congruence.
Qed.

Lemma node_ok_edges t t' g x nx nx' :
  same_edges t t' -> nodes t !! x = Some nx -> nodes t' !! x = Some nx' ->
  node_ok t g x nx -> node_ok t' g x nx'.
Proof.
  intros Hse Hn Hn' [H1 H2 H3 H4 H5 H6 H7 H8].
  pose proof Hse as (_&Hsome&Ht&_&_&Hl).
  destruct (Hsome x nx nx' Hn Hn') as (Hc&Hs&He).
  assert (Hee : eend t' nx' = eend t nx) by (unfold eend; by rewrite He, Hl).
  assert (Hel : edge_length t' nx' = edge_length t nx)
    by (unfold edge_length; by rewrite He, Hs, Hl).
  split; rewrite ?Hee, ?Hel, ?Hs, ?Hc, ?He, ?Hl; try done.
  - destruct H1 as (nu&key&Hu&Hk&Hget).
    destruct (same_edges_lookup _ _ _ _ Hse Hu) as (nu'&Hu'&Hcu&_).
    exists nu', key. rewrite (chr_ext t t'), Hcu by done. done.
  - intros Hj. destruct (H8 Hj) as (?&?&?). repeat split; try done.
    by apply (eqs_ext t).
Qed.

Lemma internal_edges t t' x : same_edges t t' -> internal t x -> internal t' x.
Proof.
  intros Hse (nx&e&Hn&He).
  destruct (same_edges_lookup _ _ _ _ Hse Hn) as (n'&Hn'&_&_&He').
  exists n', e. split; [done|congruence].
Qed.

Lemma store_ok_edges t t' g : same_edges t t' -> store_ok t g -> store_ok t' g.
Proof.
  intros Hse [H1 H2 H3 H4 H5 H6 H7].
  pose proof Hse as (_&_&Ht&Hsz&Hr&Hl).
  split; rewrite ?Hr, ?Ht, ?Hsz, ?Hl; try done.
  - by apply (internal_edges t).
  - intros x nx' Hx Hn'.
    destruct (same_edges_lookup_inv _ _ _ _ Hse Hn') as (nx&Hn&_).
    apply (node_ok_edges t t' g x nx nx'); try done. by apply H6.
  - intros u nu' k c Hu' Hc.
    destruct (same_edges_lookup_inv _ _ _ _ Hse Hu') as (nu&Hu&Hcu&_).
    rewrite Hcu in Hc.
    destruct (H7 u nu k c Hu Hc) as (nc&Hc1&Hnc&Hp&Hk).
    destruct (same_edges_lookup _ _ _ _ Hse Hnc) as (nc'&Hnc'&_&Hs&_).
    exists nc'. rewrite (chr_ext t t'), Hs by done. done.
Qed.

Lemma gnode_edges t t' g x : same_edges t t' -> gnode t g x -> gnode t' g x.
Proof.
  intros Hse (nx&Hx&Hn&Hj).
  destruct (same_edges_lookup _ _ _ _ Hse Hn) as (n'&Hn'&_).
  by exists n'.
Qed.

Lemma complete_edges t t' g P :
  same_edges t t' -> complete t g P -> complete t' g P.
Proof.
  intros Hse H i k Hi Hk HP. destruct (H i k Hi Hk HP) as (c&[Hc1 Hc2]&He).
  pose proof Hse as (_&_&Ht&_).
  exists c. split; [split; [by apply (gnode_edges t)|done]|by apply (eqs_ext t)].
Qed.

Lemma opens_alter f i ns :
  (forall n, end_ (f n) = end_ n) -> opens (alter f i ns) = opens ns.
Proof.
  intros Hf. unfold opens. revert i.
  induction ns as [|n ns IH]; intros [|i]; try done.
  - change (alter f 0%nat (n :: ns)) with (f n :: ns).
    rewrite !filter_cons. unfold is_open. rewrite Hf.
    repeat case_decide; done.
  - change (alter f (S i) (n :: ns)) with (n :: alter f i ns).
    rewrite !filter_cons. case_decide; cbn [length]; by rewrite IH.
Qed.

Lemma opens_app ns n :
  opens (ns ++ [n]) = (opens ns + if is_open n then 1 else 0)%nat.
Proof.
  unfold opens. rewrite filter_app, length_app. f_equal.
  rewrite filter_cons, filter_nil. destruct (is_open n); by case_decide.
Qed.

Lemma opens_link target t :
  opens (nodes (link_last_new_node target t)) = opens (nodes t).
Proof.
  unfold link_last_new_node. destruct (last_new_node t); [|done].
  cbn. by apply opens_alter.
Qed.

(** ** The head of the loop body: line 62-63 *)

Lemma inv_head pos delta sh t g :
  inv pos delta sh t g ->
  let t0 := if active_length t =? 0 then set_active_edge pos t else t in
  inv pos delta sh t0 g /\
  (active_length t = 0 -> active_edge t0 = pos) /\
  active_length t0 = active_length t /\ active_node t0 = active_node t /\
  remaining_suffix_count t0 = remaining_suffix_count t /\
  last_new_node t0 = last_new_node t /\ nodes t0 = nodes t.
Proof.
  intros Hinv t0. subst t0.
  destruct (Z.eqb_spec (active_length t) 0) as [H0|H0]; [|done].
  split; [|done].
  set (t0 := set_active_edge pos t).
  assert (Hss : same_store t t0) by (by repeat split).
  assert (Hpd : pdepth t0 g = pdepth t g) by done.
  destruct Hinv as [I1 I2 I3 I4 I5 I6 I7 I8 I9 I10 I11 I12 I13 I14 I15].
  split; rewrite ?Hpd.
  - by apply (store_ok_ext t).
  - done.
  - done.
  - by apply (complete_ext t).
  - destruct I5 as [?|(?&?&?)]; [by left|right].
    split; [by apply (gnode_ext t)|]. split; [by apply (internal_ext t)|].
    by apply (eqs_ext t).
  - done.
  - done.
  - done.
  - intros Hp. change (active_length t0) with (active_length t) in Hp. lia.
  - done.
  - intros Hd i Hi. destruct (I11 Hd i Hi) as (x&nx&?&?&?&?).
    exists x, nx. split; [by apply (gnode_ext t)|done].
  - done.
  - done.
  - intros x nx e Hx Hn He Htr. apply (link_ok_ext t); [done|done|].
    by apply (I14 x nx e).
  - intros v Hv. destruct (I15 v Hv) as (nv&e&?&?&?&?&Hr).
    exists nv, e. repeat (split; [done|]). intros Hd.
    destruct (Hr Hd) as [He (y&ny&?&?&?&?&?)].
    split; [by apply (eqs_ext t)|].
    exists y, ny. split; [by apply (gnode_ext t)|done].
Qed.

(** ** Moving the active point inside a phase *)

Lemma inv_move pos delta sh t t' g :
  inv pos delta sh t g -> same_store t t' ->
  last_new_node t' = last_new_node t ->
  remaining_suffix_count t' = remaining_suffix_count t ->
  pdepth t' g = pdepth t g -> 0 <= active_length t' ->
  (active_node t' = 0%nat \/
   (gnode t g (active_node t') /\ internal t (active_node t') /\
    eqs t (ghd g (active_node t')) (pos - sh - pdepth t g)
      (gdep g (active_node t')))) ->
  (0 < active_length t' ->
   active_edge t' = pos - sh - pdepth t g + gdep g (active_node t')) ->
  inv pos delta sh t' g.
Proof.
  intros [I1 I2 I3 I4 I5 I6 I7 I8 I9 I10 I11 I12 I13 I14 I15]
    Hss Hl Hr Hpd Hal Han Hae.
  pose proof Hss as (Hn&Ht&Hsz&Hrt&Hle).
  split; rewrite ?Hpd, ?Hr, ?Hn, ?Hle.
  - by apply (store_ok_ext t).
  - done.
  - done.
  - by apply (complete_ext t).
  - destruct Han as [?|(?&?&?)]; [by left|right].
    split; [by apply (gnode_ext t)|]. split; [by apply (internal_ext t)|].
    by apply (eqs_ext t).
  - done.
  - done.
  - done.
  - done.
  - done.
  - intros Hd i Hi. destruct (I11 Hd i Hi) as (x&nx&?&?&?&?).
    exists x, nx. split; [by apply (gnode_ext t)|done].
  - done.
  - done.
  - intros x nx e Hx Hnx He Htr. apply (link_ok_ext t); [done|done|].
    by apply (I14 x nx e).
  - intros v Hv. rewrite Hl in Hv. destruct (I15 v Hv) as (nv&e&?&?&?&?&Hq).
    exists nv, e. repeat (split; [done|]). intros Hd.
    destruct (Hq Hd) as [He (y&ny&?&?&?&?&?)].
    split; [by apply (eqs_ext t)|].
    exists y, ny. rewrite !(chr_ext t t') by done.
    split; [by apply (gnode_ext t)|done].
Qed.

Section Edge.
Context (pos delta sh : Z) (t : SuffixTree) (g : ghost)
        (Hinv : inv pos delta sh t g).
Context (nan nn : SuffixTreeNode) (cur : ascii) (next : nat).
Context (Hhead : active_length t = 0 -> active_edge t = pos)
        (Hnan : nodes t !! active_node t = Some nan)
        (Hcur : chr t (active_edge t) = Some cur)
        (Hnext : dict_get cur (children nan) = Some next)
        (Hnn : nodes t !! next = Some nn).

(** What the shape invariant says about the child on the active edge. *)
Lemma edge_child :
  (1 <= next)%nat /\ gpar g next = active_node t /\
  chr t (start nn) = Some cur /\ node_ok t g next nn /\
  gdep g next = gdep g (active_node t) + edge_length t nn /\
  1 <= edge_length t nn.
Proof using Hinv Hnan Hnext Hnn.
  pose proof (iv_store _ _ _ _ _ Hinv) as Hso.
  destruct (so_child _ _ Hso _ _ _ _ Hnan Hnext)
    as (nc&Hge&Hnc&Hpar&Hk).
  rewrite Hnn in Hnc. injection Hnc as <-.
  pose proof (so_node _ _ Hso _ _ Hge Hnn) as Hok.
  repeat (split; [done|]).
  destruct Hok as [_ Hr _ Hd _ _ _ _]. rewrite Hpar in Hd.
  split; [done|]. rewrite edge_length_eend. lia.
Qed.

(** Its string continues the string of the active point. *)
Lemma edge_facts :
  0 < active_length t \/ sh = 0 ->
  gnode t g next /\ ghd g next = start nn - gdep g (active_node t) /\
  eqs t (ghd g next) (pos - sh - pdepth t g)
    (Z.min (gdep g next) (pdepth t g)).
Proof using All.
  intros Hcase.
  pose proof (iv_store _ _ _ _ _ Hinv) as Hso.
  destruct edge_child as (Hge&Hpar&Hk&Hok&Hdep&Hlen).
  assert (Hgn : gnode t g next).
  { destruct (Z_lt_le_dec 0 (active_length t)) as [Hal|Hal].
    - destruct (inv_active_edge _ _ _ _ _ Hinv Hal)
        as (next'&nan'&nn'&key&Hnan'&Hkey&_&Hget&_&Hg&_).
      rewrite Hnan in Hnan'. injection Hnan' as <-.
      rewrite Hcur in Hkey. injection Hkey as <-.
      rewrite Hnext in Hget. by injection Hget as <-.
    - destruct Hcase as [?|Hsh]; [lia|].
      exists nn. repeat split; try done. by apply (iv_nojunk _ _ _ _ _ Hinv). }
  assert (Hj : gjk g next = false) by (by destruct Hgn as (?&_&_&?)).
  destruct (no_good _ _ _ _ Hok Hj) as (Hhd&Hhd0&He).
  rewrite Hpar in Hhd, He.
  split; [done|]. split; [done|].
  destruct (Z_lt_le_dec 0 (active_length t)) as [Hal|Hal].
  - destruct (inv_active_edge _ _ _ _ _ Hinv Hal)
      as (next'&nan'&nn'&key&Hnan'&Hkey&_&Hget&_&_&_&Heq).
    rewrite Hnan in Hnan'. injection Hnan' as <-.
    rewrite Hcur in Hkey. injection Hkey as <-.
    rewrite Hnext in Hget. by injection Hget as <-.
  - pose proof (iv_al _ _ _ _ _ Hinv).
    assert (Hpd : pdepth t g = gdep g (active_node t))
      by (unfold pdepth; lia).
    rewrite Hpd in *.
    destruct (iv_an _ _ _ _ _ Hinv) as [H0|(_&_&Han)].
    + rewrite H0, (so_dep0 _ _ Hso). intros i Hi. lia.
    + rewrite Hpd in Han.
      apply (eqs_le _ _ _ (gdep g (active_node t))); [lia|].
      by apply (eqs_trans _ _ (ghd g (active_node t))).
Qed.

(** The skip/count step (lines 76-81). *)
Lemma step_skip :
  edge_length t nn <= active_length t ->
  let t' := skip_edge next (edge_length t nn) t in
  inv pos delta sh t' g /\ active_length t' < active_length t /\
  remaining_suffix_count t' = remaining_suffix_count t.
Proof using All.
  intros Hle t'.
  destruct edge_child as (Hge&Hpar&Hk&Hok&Hdep&Hlen).
  assert (Hal : 0 < active_length t) by lia.
  destruct (edge_facts (or_introl Hal)) as (Hgn&Hhd&Heq).
  assert (Hpd' : pdepth t' g = pdepth t g).
  { unfold pdepth. subst t'. cbn. lia. }
  assert (Hmin : Z.min (gdep g next) (pdepth t g) = gdep g next).
  { unfold pdepth. lia. }
  rewrite Hmin in Heq.
  split; [|split; [subst t'; cbn; lia|done]].
  apply (inv_move pos delta sh t t' g); try done.
  - subst t'. cbn. lia.
  - right. split; [done|]. split; [|done].
    destruct (end_ nn) as [e|] eqn:He; [by exists nn, e|].
    pose proof (iv_leafdep _ _ _ _ _ Hinv next nn Hge Hnn He).
    unfold pdepth in *. lia.
  - intros _. subst t'. cbn.
    rewrite (iv_ae _ _ _ _ _ Hinv Hal). lia.
Qed.

(** The symbol of the phase is not on an open edge at the active point:
    where all earlier symbols differ from it, lines 84-88 are not
    reached. *)
Lemma no_break :
  (forall i, 0 <= i < pos -> chr t i <> chr t pos) ->
  active_length t < edge_length t nn ->
  chr t (start nn + active_length t) <> chr t pos.
Proof using Hinv Hnan Hnext Hnn.
  intros Huniq Hlt Heq.
  pose proof (iv_store _ _ _ _ _ Hinv) as Hso.
  destruct edge_child as (Hge&Hpar&Hk&Hok&Hdep&Hlen).
  pose proof (iv_al _ _ _ _ _ Hinv) as Hal.
  pose proof (iv_pos _ _ _ _ _ Hinv) as Hpos.
  destruct Hok as [_ Hr _ _ _ Hint _ _].
  rewrite edge_length_eend in Hlt, Hdep.
  destruct (decide (start nn + active_length t = pos)) as [Hp|Hp].
  - destruct (end_ nn) as [e|] eqn:He.
    + destruct (Hint e eq_refl) as [Hlt' _]. unfold eend in *.
      rewrite He in *. lia.
    + pose proof (iv_leafdep _ _ _ _ _ Hinv next nn Hge Hnn He).
      unfold eend, pdepth in *. rewrite He in *. lia.
  - apply (Huniq (start nn + active_length t)); [lia|done].
Qed.

End Edge.

(** ** Rule 3: the symbol is on the edge already (lines 84-88) *)

Lemma stop_phase_nodes t :
  nodes (stop_phase t) =
    relink (stop_linked t) (Some (active_node t)) (nodes t).
Proof.
  unfold stop_phase, stop_linked, link_last_new_node.
  destruct (negb _); [|done]. by destruct (last_new_node t).
Qed.

Lemma stop_phase_fields t :
  active_node (stop_phase t) = active_node t /\
  active_length (stop_phase t) = active_length t + 1 /\
  active_edge (stop_phase t) = active_edge t /\
  remaining_suffix_count (stop_phase t) = remaining_suffix_count t /\
  text (stop_phase t) = text t /\ size (stop_phase t) = size t /\
  root (stop_phase t) = root t /\ leaf_end (stop_phase t) = leaf_end t.
Proof.
  unfold stop_phase, link_last_new_node.
  destruct (negb _); [|done]. by destruct (last_new_node t).
Qed.

Lemma same_edges_stop_phase t : same_edges t (stop_phase t).
Proof.
  unfold stop_phase.
  eapply same_edges_trans; [|apply same_edges_set_active_length].
  destruct (negb _); [apply same_edges_link|].
  split; [done|]. split; [|done]. intros x n n' Hn Hn'.
  rewrite Hn in Hn'. by injection Hn' as <-.
Qed.

Lemma opens_stop_phase t : opens (nodes (stop_phase t)) = opens (nodes t).
Proof.
  rewrite stop_phase_nodes. unfold relink.
  destruct (stop_linked t); [|done]. by apply opens_alter.
Qed.

Lemma locus_edges t t' g c k :
  same_edges t t' -> locus t g c k -> locus t' g c k.
Proof. intros Hse [H1 H2]. split; [by apply (gnode_edges t)|done]. Qed.

Section Stop.
Context (pos sh : Z) (t : SuffixTree) (g : ghost)
        (Hinv : inv pos 0 sh t g).
Context (nan nn : SuffixTreeNode) (cur : ascii) (next : nat).
Context (Hhead : active_length t = 0 -> active_edge t = pos)
        (Hnan : nodes t !! active_node t = Some nan)
        (Hcur : chr t (active_edge t) = Some cur)
        (Hnext : dict_get cur (children nan) = Some next)
        (Hnn : nodes t !! next = Some nn)
        (Hlt : active_length t < edge_length t nn)
        (Hbr : chr t (start nn + active_length t) = chr t pos).

Lemma stop_sh : sh = 0.
Proof using Hinv. pose proof (iv_flags _ _ _ _ _ Hinv). lia. Qed.

(** The string of the active point followed by the symbol of the phase
    is read along the edge into [next]. *)
Lemma stop_edge :
  gnode t g next /\ 0 <= ghd g next /\
  ghd g next = start nn - gdep g (active_node t) /\
  pdepth t g + 1 <= gdep g next /\
  ghd g next + pdepth t g + 1 <= pos /\
  eqs t (ghd g next) (pos - pdepth t g) (pdepth t g + 1).
Proof using All.
  pose proof stop_sh as Hsh.
  pose proof (iv_store _ _ _ _ _ Hinv) as Hso.
  pose proof (iv_pos _ _ _ _ _ Hinv) as Hpos.
  destruct (edge_child _ _ _ _ _ Hinv _ _ _ _ Hnan Hnext Hnn)
    as (Hge&Hpar&Hk&Hok&Hdep&Hlen).
  destruct (edge_facts _ _ _ _ _ Hinv _ _ _ _ Hhead Hnan Hcur Hnext Hnn
              (or_intror Hsh)) as (Hgn&Hhd&Heq).
  assert (Hj : gjk g next = false) by (by destruct Hgn as (?&_&_&?)).
  destruct (no_good _ _ _ _ Hok Hj) as (_&Hhd0&_).
  assert (Hd1 : pdepth t g + 1 <= gdep g next) by (unfold pdepth; lia).
  assert (Hend : ghd g next + pdepth t g + 1 <= pos).
  { destruct Hok as [_ Hr _ _ _ Hint _ _].
    rewrite edge_length_eend in Hlt, Hdep.
    destruct (end_ nn) as [e|] eqn:He.
    - destruct (Hint e eq_refl) as [Hlt' _]. unfold eend, pdepth in *.
      rewrite He in *. lia.
    - pose proof (iv_leafdep _ _ _ _ _ Hinv next nn Hge Hnn He).
      unfold eend, pdepth in *. rewrite He in *. lia. }
  repeat (split; [done|]).
  rewrite Hsh, Z.min_r, Z.sub_0_r in Heq by lia.
  intros i Hi. destruct (decide (i = pdepth t g)) as [->|Hne].
  - replace (ghd g next + pdepth t g) with (start nn + active_length t)
      by (unfold pdepth; lia).
    rewrite Hbr. f_equal. lia.
  - apply Heq. lia.
Qed.

(** A split node that waits for its suffix link can only meet rule 3 at
    a node. *)
Lemma pending_at_node v : last_new_node t = Some v -> active_length t = 0.
Proof using All.
  intros Hv.
  pose proof stop_sh as Hsh.
  pose proof (iv_store _ _ _ _ _ Hinv) as Hso.
  pose proof (iv_al _ _ _ _ _ Hinv) as Hal0.
  destruct (decide (active_length t = 0)) as [|Hne]; [done|exfalso].
  assert (Hal : 1 <= active_length t) by lia.
  destruct (iv_pending _ _ _ _ _ Hinv v Hv) as (nv&e&Hv1&Hnv&He&Hdv&Hq).
  destruct (Hq eq_refl) as (Heqv&y&ny&Hgy&Hny&Hpy&Hyr&Hyc). clear Hq.
  rewrite Hsh, Z.sub_0_r in Heqv.
  destruct stop_edge as (Hgn&Hhd0&Hhd&Hd1&Hend&Heq).
  destruct (edge_child _ _ _ _ _ Hinv _ _ _ _ Hnan Hnext Hnn)
    as (Hge&Hpar&Hk&Hok&Hdep&Hlen).
  pose proof (inv_dep_an _ _ _ _ _ Hinv) as Han0.
  assert (Hpd1 : 1 <= pdepth t g) by (unfold pdepth; lia).
  (* the string of y *)
  assert (Hy1 : (1 <= y)%nat) by (by destruct Hgy as (?&?&_)).
  assert (Hjy : gjk g y = false)
    by (by destruct Hgy as (?&_&_&?)).
  pose proof (so_node _ _ Hso y ny Hy1 Hny) as Hoky.
  destruct (no_good _ _ _ _ Hoky Hjy) as (Hhdy&Hhdy0&Heqy).
  rewrite Hpy, Hdv in Hhdy, Heqy.
  (* the locus of the string below y without its first symbol *)
  destruct (iv_complete _ _ _ _ _ Hinv (ghd g y + 1) (pdepth t g + 1))
    as (c&[Hgc Hrc]&Heqc); [lia|lia|lia|].
  assert (HcJ : eqs t (ghd g c) (pos - pdepth t g) (pdepth t g)).
  { apply (eqs_trans _ _ (ghd g y + 1)); [by apply (eqs_le _ _ _ (pdepth t g + 1)); [lia|]|].
    apply (eqs_trans _ _ (ghd g v + 1)); [|done].
    replace (pdepth t g) with (pdepth t g + 1 - 1) at 1 by lia.
    apply eqs_shift; [lia|done]. }
  assert (Hcn : eqs t (ghd g c) (ghd g next) (pdepth t g)).
  { apply (eqs_trans _ _ (pos - pdepth t g)); [done|].
    apply eqs_sym. apply (eqs_le _ _ _ (pdepth t g + 1)); [lia|done]. }
  assert (Hln : locus t g next (pdepth t g)).
  { split; [done|]. rewrite Hpar. unfold pdepth in *. lia. }
  destruct (decide (gdep g (gpar g c) < pdepth t g)) as [Hlow|Hhigh].
  - assert (c = next) as ->.
    { apply (trie t g Hso (pdepth t g)); [|done|done]. split; [done|lia]. }
    apply Hyc. rewrite <- Hbr.
    replace (start ny) with (ghd g y + 1 + pdepth t g) by lia.
    rewrite <- (Heqc (pdepth t g)) by lia.
    f_equal. unfold pdepth. lia.
  - assert (Hdu : gdep g (gpar g c) = pdepth t g) by lia.
    destruct Hgc as (nc&Hc1&Hnc&Hjc).
    pose proof (so_node _ _ Hso c nc Hc1 Hnc) as Hokc.
    destruct (no_good _ _ _ _ Hokc Hjc) as (_&_&Heu). rewrite Hdu in Heu.
    destruct (parent_good t g Hso c nc Hc1 Hnc) as [H0|Hgu].
    { rewrite H0, (so_dep0 _ _ Hso) in Hdu. lia. }
    assert (gpar g c = next) as Hun.
    { apply (trie t g Hso (pdepth t g)); [|done|].
      - split; [done|]. destruct Hgu as (nu&Hu1&Hnu&_).
        pose proof (node_dep_pos t g Hso _ _ Hu1 Hnu). lia.
      - apply (eqs_trans _ _ (ghd g c)); [by apply eqs_sym|done]. }
    rewrite Hun in Hdu. lia.
Qed.

(** Rule 3 ends the phase in a state from which the next phase starts. *)
Lemma step_break : ready (pos + 1) (stop_phase t) g.
Proof using All.
  pose proof stop_sh as Hsh.
  pose proof (iv_store _ _ _ _ _ Hinv) as Hso.
  pose proof (iv_al _ _ _ _ _ Hinv) as Hal0.
  pose proof (iv_pos _ _ _ _ _ Hinv) as Hpos.
  pose proof (same_edges_stop_phase t) as Hse.
  destruct (stop_phase_fields t) as (Fan&Fal&Fae&Frem&Ftx&Fsz&Frt&Fle).
  destruct stop_edge as (Hgn&Hhd0&Hhd&Hd1&Hend&Heq).
  assert (Hpd : pdepth (stop_phase t) g = pdepth t g + 1).
  { unfold pdepth. rewrite Fan, Fal. lia. }
  assert (HJ : pos + 1 - (pdepth t g + 1) = pos - sh - pdepth t g) by lia.
  split; rewrite ?Hpd, ?Fan, ?Fal, ?Fae, ?Frem, ?Fle, ?HJ.
  - by apply (store_ok_edges t).
  - lia.
  - intros i k Hi Hk Hik.
    destruct (Z_le_gt_dec (i + k) pos) as [Hold|Hnew].
    { by apply (complete_edges t _ g pos Hse (iv_complete _ _ _ _ _ Hinv)). }
    destruct (Z_lt_le_dec i (pos - sh - pdepth t g)) as [Hleaf|Hin].
    + destruct (iv_leaves _ _ _ _ _ Hinv eq_refl i ltac:(lia))
        as (x&nx&Hgx&Hnx&Hex&Hhx).
      assert (Hx1 : (1 <= x)%nat) by (by destruct Hgx as (?&?&_)).
      assert (Hjx : gjk g x = false) by (by destruct Hgx as (?&_&_&?)).
      destruct (leaf_dep t g x nx Hso Hx1 Hnx Hex Hjx) as [Hdx _].
      destruct (cover t g Hso x k Hgx ltac:(lia)) as (b&_&Hlb&Heb).
      exists b. split; [by apply (locus_edges t)|].
      apply (eqs_ext t); [done|]. rewrite <- Hhx. by apply eqs_sym.
    + destruct (iv_complete _ _ _ _ _ Hinv
                  (ghd g next + (i - (pos - pdepth t g))) k)
        as (c&Hlc&Hec); [lia|lia|lia|].
      exists c. split; [by apply (locus_edges t)|].
      apply (eqs_ext t); [done|].
      apply (eqs_trans _ _ _ _ _ Hec).
      intros j Hj.
      replace (ghd g next + (i - (pos - pdepth t g)) + j)
        with (ghd g next + (i - (pos - pdepth t g) + j)) by lia.
      rewrite Heq by lia. f_equal. lia.
  - destruct (iv_an _ _ _ _ _ Hinv) as [?|(?&?&?)]; [by left|right].
    split; [by apply (gnode_edges t)|]. split; [by apply (internal_edges t)|].
    by apply (eqs_ext t).
  - lia.
  - pose proof (iv_pd _ _ _ _ _ Hinv). lia.
  - pose proof (iv_J _ _ _ _ _ Hinv). lia.
  - intros _. destruct (Z_lt_le_dec 0 (active_length t)) as [Hal|Hal].
    + by apply (iv_ae _ _ _ _ _ Hinv).
    + rewrite Hhead by lia. unfold pdepth. lia.
  - by apply (iv_nojunk _ _ _ _ _ Hinv).
  - intros i Hi. destruct (iv_leaves _ _ _ _ _ Hinv eq_refl i Hi)
      as (x&nx&Hgx&Hnx&Hex&Hhx).
    destruct (same_edges_lookup _ _ _ _ Hse Hnx) as (nx'&Hnx'&_&_&Hex').
    exists x, nx'. split; [by apply (gnode_edges t)|].
    repeat split; [done|congruence|done].
  - intros x nx' Hx1 Hnx' Hex'.
    destruct (same_edges_lookup_inv _ _ _ _ Hse Hnx') as (nx&Hnx&_&_&He).
    pose proof (iv_leafdep _ _ _ _ _ Hinv x nx Hx1 Hnx ltac:(congruence)).
    lia.
  - rewrite opens_stop_phase. pose proof (iv_count _ _ _ _ _ Hinv). lia.
  - intros x nx' e Hx1 Hnx' Hex'.
    revert Hnx'. rewrite stop_phase_nodes, relink_lookup.
    destruct (nodes t !! x) as [nx|] eqn:Hnx; [|done].
    cbn. intros [= <-].
    case_decide as Hlinked.
    + cbn. cbn in Hex'.
      unfold stop_linked in Hlinked.
      destruct (negb _) eqn:Hroot; [|done].
      assert (Hne : active_node t <> 0%nat).
      { rewrite (so_root _ _ Hso) in Hroot.
        apply negb_true_iff, Nat.eqb_neq in Hroot. done. }
      pose proof (pending_at_node x Hlinked) as Hz.
      destruct (iv_pending _ _ _ _ _ Hinv x Hlinked)
        as (nv&ev&_&_&_&Hdv&Hq).
      destruct (Hq eq_refl) as (Heqv&_). clear Hq.
      destruct (iv_an _ _ _ _ _ Hinv) as [?|(Hga&Hia&Hea)]; [done|].
      split; [right; split;
              [by apply (gnode_edges t)|by apply (internal_edges t)]|].
      split; [unfold pdepth in Hdv; lia|].
      intros _. apply (eqs_ext t); [done|].
      apply (eqs_trans _ _ _ _ _ Hea), eqs_sym.
      replace (gdep g (active_node t)) with (pdepth t g)
        by (unfold pdepth; lia).
      done.
    + cbn. cbn in Hex'.
      pose proof (iv_links _ _ _ _ _ Hinv x nx e Hx1 Hnx Hex'
                    (or_introl eq_refl)) as Hlk.
      unfold link_ok in Hlk. destruct (suffix_link nx) as [l|].
      * destruct Hlk as (Hl&Hdl&Hel). split; [|split; [done|]].
        -- destruct Hl as [?|[? ?]]; [by left|right].
           split; [by apply (gnode_edges t)|by apply (internal_edges t)].
        -- intros Hl0. apply (eqs_ext t); [done|]. by apply Hel.
      * destruct Hlk as [Hlast|?]; [|done].
        pose proof (pending_at_node x Hlast) as Hz.
        destruct (iv_pending _ _ _ _ _ Hinv x Hlast)
          as (nv&ev&_&_&_&Hdv&_).
        unfold stop_linked in Hlinked.
        destruct (negb _) eqn:Hroot; [done|].
        rewrite (so_root _ _ Hso) in Hroot.
        apply negb_false_iff, Nat.eqb_eq in Hroot.
        unfold pdepth in Hdv. rewrite Hroot, (so_dep0 _ _ Hso) in Hdv. lia.
Qed.

End Stop.

(** ** States with more nodes *)

Section Grows.
Context (t t1 : SuffixTree) (g g1 : ghost) (Hgw : grows t t1 g g1).

Lemma grows_gnode x : gnode t g x -> gnode t1 g1 x.
Proof using Hgw.
  intros (nx&Hx&Hn&Hj). destruct (gw_old _ _ _ _ Hgw x nx Hn) as (nx'&Hn'&_).
  exists nx'. repeat split; [done|done|].
  rewrite (gw_jk _ _ _ _ Hgw); [done|]. by apply lookup_lt_Some in Hn.
Qed.

Lemma grows_internal x : internal t x -> internal t1 x.
Proof using Hgw.
  intros (nx&e&Hn&He). destruct (gw_old _ _ _ _ Hgw x nx Hn) as (nx'&Hn'&He'&_).
  exists nx', e. split; [done|congruence].
Qed.

Lemma grows_eqs a b d : eqs t a b d -> eqs t1 a b d.
Proof using Hgw. apply eqs_ext. apply (gw_text _ _ _ _ Hgw). Qed.

Lemma grows_chr i : chr t1 i = chr t i.
Proof using Hgw. apply chr_ext. apply (gw_text _ _ _ _ Hgw). Qed.

Lemma grows_gnode_old x : gnode t g x -> (x < length (nodes t))%nat.
Proof. intros (nx&_&Hn&_). by apply lookup_lt_Some in Hn. Qed.

Lemma grows_leaf i :
  (exists x nx, gnode t g x /\ nodes t !! x = Some nx /\
     end_ nx = EndLeaf /\ ghd g x = i) ->
  exists x nx, gnode t1 g1 x /\ nodes t1 !! x = Some nx /\
     end_ nx = EndLeaf /\ ghd g1 x = i.
Proof using Hgw.
  intros (x&nx&Hg&Hn&He&Hh).
  destruct (gw_old _ _ _ _ Hgw x nx Hn) as (nx'&Hn'&He'&_).
  exists x, nx'. split; [by apply grows_gnode|].
  repeat split; [done|congruence|].
  rewrite (gw_hd _ _ _ _ Hgw); [done|]. by apply lookup_lt_Some in Hn.
Qed.

Lemma grows_an J an :
  internal t 0%nat ->
  (an = 0%nat \/ (gnode t g an /\ internal t an /\
     eqs t (ghd g an) J (gdep g an))) ->
  gdep g1 an = gdep g an /\
  (an = 0%nat \/ (gnode t1 g1 an /\ internal t1 an /\
     eqs t1 (ghd g1 an) J (gdep g1 an))).
Proof using Hgw.
  intros (nr&er&Hr&_) [->|(Hg&Hi&He)].
  - split; [|by left]. apply (gw_dep _ _ _ _ Hgw). by apply lookup_lt_Some in Hr.
  - pose proof (grows_gnode_old _ Hg) as Hold.
    rewrite (gw_dep _ _ _ _ Hgw), (gw_hd _ _ _ _ Hgw) by done.
    split; [done|right].
    split; [by apply grows_gnode|]. split; [by apply grows_internal|].
    by apply grows_eqs.
Qed.

(** The suffix link of a node that is not the pending one stays right. *)
Lemma grows_link x nx nx' :
  internal t 0%nat ->
  nodes t !! x = Some nx -> nodes t1 !! x = Some nx' ->
  last_new_node t <> Some x ->
  link_ok t g x nx -> link_ok t1 g1 x nx'.
Proof using Hgw.
  intros (nr&er&Hr&_) Hn Hn' Hlast Hlk.
  destruct (gw_old _ _ _ _ Hgw x nx Hn) as (nx2&Hn2&_&Hsl).
  rewrite Hn' in Hn2. injection Hn2 as <-.
  unfold link_ok in *. rewrite (Hsl Hlast).
  pose proof (lookup_lt_Some _ _ _ Hn) as Hx.
  pose proof (lookup_lt_Some _ _ _ Hr) as H0.
  destruct (suffix_link nx) as [l|].
  - destruct Hlk as (Hl&Hd&He).
    assert (Hlo : (l < length (nodes t))%nat).
    { destruct Hl as [->|[Hg _]]; [done|by apply grows_gnode_old]. }
    rewrite !(gw_dep _ _ _ _ Hgw), !(gw_hd _ _ _ _ Hgw) by done.
    split; [|split; [done|]].
    + destruct Hl as [?|[? ?]]; [by left|right].
      split; [by apply grows_gnode|by apply grows_internal].
    + intros Hl0. by apply grows_eqs, He.
  - destruct Hlk as [?|Hd]; [done|right].
    by rewrite (gw_dep _ _ _ _ Hgw).
Qed.

End Grows.

(** ** Rule 2 at a node: a new leaf (lines 66-72) *)

Lemma add_leaf_fields pos cur t :
  let t1 := add_leaf pos cur t in
  text t1 = text t /\ size t1 = size t /\ root t1 = root t /\
  leaf_end t1 = leaf_end t /\ active_node t1 = active_node t /\
  active_length t1 = active_length t /\ active_edge t1 = active_edge t /\
  remaining_suffix_count t1 = remaining_suffix_count t /\
  last_new_node t1 = None.
Proof.
  cbv zeta. rewrite add_leaf_spec. by destruct (last_new_node t) eqn:E.
Qed.

Lemma opens_add_leaf pos cur t :
  opens (nodes (add_leaf pos cur t)) = S (opens (nodes t)).
Proof.
  rewrite add_leaf_spec.
  assert (opens (leaf_nodes pos cur t) = S (opens (nodes t))) as H.
  { unfold leaf_nodes. cbv zeta.
    assert (opens (alter (node_set_child cur (length (nodes t)))
              (active_node t) (nodes t ++ [new_node pos EndLeaf]))
            = S (opens (nodes t))) as H.
    { rewrite opens_alter by done. rewrite opens_app. cbn. lia. }
    destruct (last_new_node t); [|done]. by rewrite opens_alter. }
  by destruct (last_new_node t).
Qed.

Section Leaf.
Context (pos delta sh : Z) (t : SuffixTree) (g : ghost)
        (Hinv : inv pos delta sh t g).
Context (nan : SuffixTreeNode) (cur : ascii).
Context (Hhead : active_length t = 0 -> active_edge t = pos)
        (Hnan : nodes t !! active_node t = Some nan)
        (Hcur : chr t (active_edge t) = Some cur)
        (Hnone : dict_get cur (children nan) = None).

Lemma leaf_at_node : active_length t = 0.
Proof using All.
  pose proof (iv_al _ _ _ _ _ Hinv).
  destruct (decide (active_length t = 0)) as [|Hne]; [done|exfalso].
  destruct (inv_active_edge _ _ _ _ _ Hinv ltac:(lia))
    as (next'&nan'&nn'&key&Hnan'&Hkey&_&Hget&_).
  rewrite Hnan in Hnan'. injection Hnan' as <-.
  rewrite Hcur in Hkey. injection Hkey as <-. congruence.
Qed.

Lemma leaf_lookup_old x nx :
  nodes t !! x = Some nx ->
  nodes (add_leaf pos cur t) !! x =
    Some (mkNode
      (if decide (x = active_node t)
       then dict_set cur (length (nodes t)) (children nx) else children nx)
      (if decide (last_new_node t = Some x)
       then Some (active_node t) else suffix_link nx)
      (start nx) (end_ nx) (index nx)).
Proof using All.
  intros Hn. rewrite (add_leaf_lookup _ _ _ nan) by done.
  pose proof (lookup_lt_Some _ _ _ Hn).
  rewrite (decide_False (P := x = length (nodes t))) by lia.
  destruct (decide (x = active_node t)) as [->|Hx].
  - rewrite Hnan in Hn. injection Hn as <-.
    destruct (decide (last_new_node t = Some (active_node t)));
      by destruct nan.
  - rewrite Hn.
    destruct (decide (last_new_node t = Some x)); by destruct nx.
Qed.

Lemma leaf_lookup_new :
  exists nl, nodes (add_leaf pos cur t) !! length (nodes t) = Some nl /\
    children nl = [] /\ start nl = pos /\ end_ nl = EndLeaf.
Proof using All.
  rewrite (add_leaf_lookup _ _ _ nan) by done.
  rewrite (decide_True (P := length (nodes t) = length (nodes t))) by done.
  destruct (decide (last_new_node t = Some (length (nodes t))));
    eexists; (split; [reflexivity|done]).
Qed.

Lemma leaf_lookup_inv x nx' :
  nodes (add_leaf pos cur t) !! x = Some nx' ->
  x = length (nodes t) \/ exists nx, nodes t !! x = Some nx.
Proof using All.
  rewrite (add_leaf_lookup _ _ _ nan) by done.
  destruct (decide (x = length (nodes t))) as [|Hx]; [by left|].
  destruct (decide (x = active_node t)) as [->|Ha]; [right; by exists nan|].
  destruct (nodes t !! x) as [nx|]; [right; by exists nx|done].
Qed.

Lemma leaf_grows :
  grows t (add_leaf pos cur t) g (leaf_ghost pos sh t g).
Proof using All.
  destruct (add_leaf_fields pos cur t) as (?&?&?&?&_).
  split; try done.
  - intros x nx Hn. eexists. split; [by apply leaf_lookup_old|].
    split; [done|]. intros Hl. cbn. by rewrite decide_False.
  - intros x Hx. cbn. by rewrite decide_False by lia.
  - intros x Hx. cbn. by rewrite decide_False by lia.
  - intros x Hx. cbn. by rewrite decide_False by lia.
Qed.

Lemma leaf_gpar x :
  (x < length (nodes t))%nat -> gpar (leaf_ghost pos sh t g) x = gpar g x.
Proof. intros Hx. cbn. by rewrite decide_False by lia. Qed.

Lemma leaf_ghost_new :
  let g1 := leaf_ghost pos sh t g in
  gpar g1 (length (nodes t)) = active_node t /\
  gdep g1 (length (nodes t)) = pdepth t g + 1 /\
  ghd g1 (length (nodes t)) = pos - pdepth t g /\
  gjk g1 (length (nodes t)) = (sh =? 1).
Proof. cbn. by rewrite !decide_True. Qed.

Lemma leaf_pdepth :
  pdepth (add_leaf pos cur t) (leaf_ghost pos sh t g) = pdepth t g.
Proof using All.
  destruct (add_leaf_fields pos cur t) as (_&_&_&_&Fan&Fal&_).
  unfold pdepth. rewrite Fan, Fal. cbn.
  pose proof (lookup_lt_Some _ _ _ Hnan).
  by rewrite decide_False by lia.
Qed.

Lemma leaf_store_ok : store_ok (add_leaf pos cur t) (leaf_ghost pos sh t g).
Proof using All.
  pose proof (iv_store _ _ _ _ _ Hinv) as Hso.
  pose proof leaf_grows as Hgw.
  pose proof leaf_at_node as Hal.
  pose proof (iv_pos _ _ _ _ _ Hinv) as Hpos.
  pose proof (inv_pos_range _ _ _ _ _ Hinv) as Hrange.
  pose proof (inv_dep_an _ _ _ _ _ Hinv) as Han0.
  destruct (add_leaf_fields pos cur t) as (Ftx&Fsz&Frt&Fle&_).
  pose proof (lookup_lt_Some _ _ _ Hnan) as Hanlt.
  assert (Hpd : pdepth t g = gdep g (active_node t)) by (unfold pdepth; lia).
  assert (Hcp : chr t pos = Some cur) by (by rewrite <- (Hhead Hal)).
  split.
  - by rewrite Frt, (so_root _ _ Hso).
  - apply (grows_internal _ _ _ _ Hgw), (so_root_node _ _ Hso).
  - rewrite (gw_dep _ _ _ _ Hgw); [apply (so_dep0 _ _ Hso)|].
    destruct (so_root_node _ _ Hso) as (?&?&Hr&_).
    by apply lookup_lt_Some in Hr.
  - rewrite Fsz, Ftx. apply (so_size _ _ Hso).
  - rewrite Fle, Fsz. apply (so_leaf_end _ _ Hso).
  - intros x nx' Hx1 Hn'.
    destruct (leaf_lookup_inv _ _ Hn') as [->|(nx&Hn)].
    + (* the new leaf *)
      destruct leaf_lookup_new as (nl&Hnl&Hc&Hs&He).
      rewrite Hnl in Hn'. injection Hn' as <-.
      assert (Hlen : edge_length (add_leaf pos cur t) nl = 1).
      { unfold edge_length. rewrite He, Hs, Fle. lia. }
      destruct leaf_ghost_new as (Gp&Gd&Gh&Gj).
      split; rewrite ?Gp, ?Gd, ?Gh, ?Gj, ?Hlen, ?(gw_dep _ _ _ _ Hgw),
        ?(gw_hd _ _ _ _ Hgw) by done.
      * eexists _, cur.
        split; [by apply leaf_lookup_old|]. cbn.
        rewrite (decide_True (P := active_node t = active_node t)) by done.
        split; [by rewrite (grows_chr _ _ _ _ Hgw), Hs|].
        apply dict_get_set_eq.
      * unfold eend. rewrite He, Hs, Fle. lia.
      * done.
      * lia.
      * done.
      * intros e. by rewrite He.
      * intros _. split; [done|]. by rewrite Hs, Fle.
      * intros Hsh. apply Z.eqb_neq in Hsh.
        assert (sh = 0) as Hsh0 by (pose proof (iv_flags _ _ _ _ _ Hinv); lia).
        split; [rewrite Hs; lia|]. split; [pose proof (iv_J _ _ _ _ _ Hinv); lia|].
        apply (grows_eqs _ _ _ _ Hgw).
        destruct (iv_an _ _ _ _ _ Hinv) as [H0|(_&_&He0)].
        { rewrite H0, (so_dep0 _ _ Hso). intros i Hi. lia. }
        apply eqs_sym. rewrite Hsh0, Z.sub_0_r in He0. done.
    + (* an old node *)
      pose proof (lookup_lt_Some _ _ _ Hn) as Hxlt.
      rewrite (leaf_lookup_old _ _ Hn) in Hn'. injection Hn' as <-.
      destruct (so_node _ _ Hso x nx Hx1 Hn) as [H1 H2 H3 H4 H5 H6 H7 H8].
      destruct H1 as (nu&key&Hu&Hkey&Hget).
      pose proof (lookup_lt_Some _ _ _ Hu) as Hult.
      rewrite edge_length_eend in H4.
      split; rewrite ?edge_length_eend; unfold eend in *; cbn [end_ start children];
        rewrite ?leaf_gpar, ?(gw_dep _ _ _ _ Hgw), ?(gw_hd _ _ _ _ Hgw),
          ?(gw_jk _ _ _ _ Hgw), ?Fle by done; try done.
      * eexists _, key. split; [by apply leaf_lookup_old|].
        split; [by rewrite (grows_chr _ _ _ _ Hgw)|]. cbn.
        case_decide as Hd; [|done].
        rewrite dict_get_set_ne; [done|]. intros ->.
        rewrite Hd, Hnan in Hu. injection Hu as <-. congruence.
      * intros He. case_decide as Hd; [|by apply H5].
        rewrite Hd, Hnan in Hn. injection Hn as <-.
        destruct (iv_an _ _ _ _ _ Hinv) as [H0|(_&(na&ea&Hna&Hea)&_)]; [lia|].
        rewrite Hnan in Hna. injection Hna as <-. congruence.
      * intros e He. destruct (H6 e He) as [Hlt Hlen]. split; [done|].
        case_decide; [|done].
        rewrite dict_set_length_absent; [lia|].
        subst x. rewrite Hnan in Hn. by injection Hn as <-.
      * intros Hj. destruct (H8 Hj) as (?&?&?). repeat split; try done.
        by apply (grows_eqs _ _ _ _ Hgw).
  - intros u nu' k c Hu' Hkc.
    destruct (leaf_lookup_inv _ _ Hu') as [->|(nu&Hu)].
    + destruct leaf_lookup_new as (nl&Hnl&Hc&_).
      rewrite Hnl in Hu'. injection Hu' as <-. by rewrite Hc in Hkc.
    + rewrite (leaf_lookup_old _ _ Hu) in Hu'. injection Hu' as <-.
      cbn in Hkc.
      assert (Hold : dict_get k (children nu) = Some c ->
        exists nc, (1 <= c)%nat /\ nodes (add_leaf pos cur t) !! c = Some nc /\
          gpar (leaf_ghost pos sh t g) c = u /\
          chr (add_leaf pos cur t) (start nc) = Some k).
      { intros Hel.
        destruct (so_child _ _ Hso u nu k c Hu Hel) as (nc&Hc1&Hnc&Hp&Hk).
        eexists. split; [done|]. split; [by apply leaf_lookup_old|].
        rewrite leaf_gpar by (by apply lookup_lt_Some in Hnc).
        split; [done|]. by rewrite (grows_chr _ _ _ _ Hgw). }
      case_decide as Hd; [|by apply Hold].
      destruct (ascii_dec k cur) as [->|Hk];
        [|rewrite dict_get_set_ne in Hkc by done; by apply Hold].
      rewrite dict_get_set_eq in Hkc. injection Hkc as <-.
      destruct leaf_lookup_new as (nl&Hnl&_&Hs&_).
      destruct leaf_ghost_new as (Gp&_).
      exists nl. split; [lia|]. split; [done|].
      split; [by rewrite Gp|]. by rewrite (grows_chr _ _ _ _ Hgw), Hs.
Qed.

Lemma leaf_locus c k :
  locus t g c k -> locus (add_leaf pos cur t) (leaf_ghost pos sh t g) c k.
Proof using All.
  pose proof (iv_store _ _ _ _ _ Hinv) as Hso.
  pose proof leaf_grows as Hgw.
  intros [Hg Hr]. split; [by apply (grows_gnode _ _ _ _ Hgw)|].
  pose proof (grows_gnode_old _ _ _ Hg) as Hc.
  destruct Hg as (nc&Hc1&Hnc&_).
  destruct (so_node _ _ Hso c nc Hc1 Hnc) as [(nu&?&Hu&_) _ _ _ _ _ _ _].
  apply lookup_lt_Some in Hu.
  by rewrite leaf_gpar, !(gw_dep _ _ _ _ Hgw).
Qed.

(** After the new leaf the state is as an insertion leaves it. *)
Lemma step_leaf :
  mid pos delta sh (add_leaf pos cur t) (leaf_ghost pos sh t g).
Proof using All.
  pose proof (iv_store _ _ _ _ _ Hinv) as Hso.
  pose proof leaf_grows as Hgw.
  pose proof leaf_at_node as Hal.
  pose proof (iv_pos _ _ _ _ _ Hinv) as Hpos.
  pose proof (iv_flags _ _ _ _ _ Hinv) as Hfl.
  pose proof (inv_dep_an _ _ _ _ _ Hinv) as Han0.
  destruct (add_leaf_fields pos cur t)
    as (Ftx&Fsz&Frt&Fle&Fan&Fal&Fae&Frem&Flast).
  pose proof (lookup_lt_Some _ _ _ Hnan) as Hanlt.
  assert (Hpd : pdepth t g = gdep g (active_node t)) by (unfold pdepth; lia).
  assert (Hcp : chr t pos = Some cur) by (by rewrite <- (Hhead Hal)).
  destruct leaf_ghost_new as (Gp&Gd&Gh&Gj).
  destruct leaf_lookup_new as (nl&Hnl&Hcl&Hsl&Hel).
  destruct (grows_an _ _ _ _ Hgw _ _ (so_root_node _ _ Hso)
              (iv_an _ _ _ _ _ Hinv)) as [Hdan Han].
  split; rewrite ?leaf_pdepth, ?Fan, ?Fal, ?Fae, ?Frem, ?Fle.
  - apply leaf_store_ok.
  - done.
  - done.
  - intros i k Hi Hk Hik.
    destruct (iv_complete _ _ _ _ _ Hinv i k Hi Hk Hik) as (c&Hl&He).
    exists c. split; [by apply leaf_locus|].
    rewrite (gw_hd _ _ _ _ Hgw) by (destruct Hl; by eapply grows_gnode_old).
    by apply (grows_eqs _ _ _ _ Hgw).
  - done.
  - lia.
  - apply (iv_pd _ _ _ _ _ Hinv).
  - apply (iv_J _ _ _ _ _ Hinv).
  - lia.
  - intros Hsh x. cbn. case_decide; [by apply Z.eqb_neq; lia|].
    by apply (iv_nojunk _ _ _ _ _ Hinv).
  - intros Hd i Hi.
    destruct (decide (i = pos - sh - pdepth t g)) as [->|Hne].
    + exists (length (nodes t)), nl.
      split; [exists nl; repeat split; [lia|done|]|].
      { rewrite Gj. apply Z.eqb_neq. lia. }
      repeat split; [done|done|]. rewrite Gh. lia.
    + apply (grows_leaf _ _ _ _ Hgw).
      apply (iv_leaves _ _ _ _ _ Hinv Hd). lia.
  - intros x nx' Hx1 Hn' He'.
    destruct (leaf_lookup_inv _ _ Hn') as [->|(nx&Hn)]; [rewrite Gd; lia|].
    rewrite (leaf_lookup_old _ _ Hn) in Hn'. injection Hn' as <-.
    rewrite (gw_dep _ _ _ _ Hgw) by (by apply lookup_lt_Some in Hn).
    pose proof (iv_leafdep _ _ _ _ _ Hinv x nx Hx1 Hn He'). lia.
  - rewrite opens_add_leaf. pose proof (iv_count _ _ _ _ _ Hinv). lia.
  - intros x nx' e Hx1 Hn' He' Hcond.
    destruct (leaf_lookup_inv _ _ Hn') as [->|(nx&Hn)].
    { rewrite Hnl in Hn'. injection Hn' as <-. congruence. }
    pose proof (lookup_lt_Some _ _ _ Hn) as Hxlt.
    rewrite (gw_dep _ _ _ _ Hgw) in Hcond by done.
    destruct (decide (last_new_node t = Some x)) as [Hlast|Hlast].
    + rewrite (leaf_lookup_old _ _ Hn) in Hn'. injection Hn' as <-.
      unfold link_ok. cbn [suffix_link]. rewrite decide_True by done.
      destruct (iv_pending _ _ _ _ _ Hinv x Hlast) as (nv&ev&_&_&_&Hdv&Hq).
      assert (Hd0 : delta = 0) by lia.
      destruct (Hq Hd0) as (Heqv&_). clear Hq.
      rewrite (gw_dep _ _ _ _ Hgw x), (gw_hd _ _ _ _ Hgw x) by done.
      split; [destruct Han as [?|(?&?&?)]; [by left|by right]|].
      split; [lia|]. intros Hne.
      destruct Han as [?|(_&_&Hea)]; [done|].
      apply (eqs_trans _ _ _ _ _ Hea), eqs_sym.
      rewrite Hdan, <- Hpd. by apply (grows_eqs _ _ _ _ Hgw).
    + apply (grows_link _ _ _ _ Hgw x nx); try done.
      * apply (so_root_node _ _ Hso).
      * cbn in He'. apply (iv_links _ _ _ _ _ Hinv x nx e); try done.
        rewrite (leaf_lookup_old _ _ Hn) in Hn'. by injection Hn' as <-.
  - by rewrite Flast.
  - intros Hz. rewrite Hpd in Hz.
    assert (active_node t = 0%nat) as Ha0.
    { apply (dep_zero_root t g Hso); [|done].
      destruct (iv_an _ _ _ _ _ Hinv) as [?|(?&_)]; [by left|by right]. }
    eexists _, cur, (length (nodes t)), nl.
    split; [rewrite <- Ha0; by apply leaf_lookup_old|].
    split; [by rewrite (grows_chr _ _ _ _ Hgw)|].
    cbn. rewrite decide_True by done.
    split; [apply dict_get_set_eq|done].
Qed.

End Leaf.

(** ** Rule 2 inside an edge: the edge is split (lines 90-101) *)

Lemma split_edge_ok pos cur c2 c3 next nn t :
  nodes t !! next = Some nn ->
  py_index (text t) (start nn + active_length t) = Some c3 ->
  split_edge pos cur c2 next nn t = Ok (split_state pos cur c2 c3 next nn t).
Proof.
  intros Hnn Hc3.
  destruct (split_edge pos cur c2 next nn t) as [t'|e] eqn:E.
  - destruct (split_edge_spec _ _ _ _ _ _ _ Hnn E) as (c3'&Hc3'&->).
    rewrite Hc3 in Hc3'. by injection Hc3' as <-.
  - exfalso. revert E. unfold split_edge. cbn.
    pose proof (lookup_lt_Some _ _ _ Hnn) as Hlt.
    match goal with |- context [alter ?f next ?l !! next] =>
      destruct (alter f next l !! next) as [nn'|] eqn:E end.
    + assert (Hst : start nn' = start nn + active_length t).
      { revert E. rewrite list_lookup_alter_eq.
        rewrite list_lookup_alter_ne by lia.
        rewrite lookup_app_l by (rewrite length_alter, length_app; cbn; lia).
        rewrite list_lookup_alter.
        case_decide as Hd; [rewrite Hd|];
          rewrite (lookup_app_l (nodes t)) by lia;
          rewrite Hnn; cbn; by intros [= <-]. }
      rewrite Hst, Hc3. done.
    + apply lookup_ge_None in E.
      rewrite !length_alter, length_app, length_alter, length_app in E.
      cbn in E. lia.
Qed.

Lemma split_state_fields pos cur c2 c3 next nn t :
  let t1 := split_state pos cur c2 c3 next nn t in
  text t1 = text t /\ size t1 = size t /\ root t1 = root t /\
  leaf_end t1 = leaf_end t /\ active_node t1 = active_node t /\
  active_length t1 = active_length t /\ active_edge t1 = active_edge t /\
  remaining_suffix_count t1 = remaining_suffix_count t /\
  last_new_node t1 = Some (length (nodes t)) /\
  nodes t1 = split_nodes pos cur c2 c3 next nn t.
Proof. done. Qed.

Lemma opens_split pos cur c2 c3 next nn t :
  opens (split_nodes pos cur c2 c3 next nn t) = S (opens (nodes t)).
Proof.
  unfold split_nodes. cbv zeta.
  match goal with |- opens (match _ with Some l => alter ?f l ?ns | None => _ end) = _ =>
    assert (opens ns = S (opens (nodes t))) as H end.
  { rewrite !opens_alter by done. rewrite opens_app.
    rewrite opens_alter by done. rewrite opens_app. cbn. lia. }
  destruct (last_new_node t); [|done]. by rewrite opens_alter.
Qed.

Section Split.
Context (pos delta sh : Z) (t : SuffixTree) (g : ghost)
        (Hinv : inv pos delta sh t g).
Context (nan nn : SuffixTreeNode) (cur c1 c2 : ascii) (next : nat).
Context (Hhead : active_length t = 0 -> active_edge t = pos)
        (Hnan : nodes t !! active_node t = Some nan)
        (Hcur : chr t (active_edge t) = Some cur)
        (Hnext : dict_get cur (children nan) = Some next)
        (Hnn : nodes t !! next = Some nn)
        (Hlt : active_length t < edge_length t nn)
        (Hc1 : chr t (start nn + active_length t) = Some c1)
        (Hc2 : chr t pos = Some c2)
        (Hne : c1 <> c2).

Lemma split_inside : 1 <= active_length t.
Proof using All.
  pose proof (iv_al _ _ _ _ _ Hinv).
  destruct (decide (active_length t = 0)) as [Hz|]; [exfalso|lia].
  destruct (edge_child _ _ _ _ _ Hinv _ _ _ _ Hnan Hnext Hnn)
    as (_&_&Hk&_).
  rewrite Hz, Z.add_0_r, Hk in Hc1. rewrite (Hhead Hz), Hc2 in Hcur.
  congruence.
Qed.

(** The edge that is split. *)
Lemma split_edge_facts :
  (1 <= next)%nat /\ gpar g next = active_node t /\
  chr t (start nn) = Some cur /\ node_ok t g next nn /\
  gdep g next = gdep g (active_node t) + edge_length t nn /\
  gnode t g next /\ ghd g next = start nn - gdep g (active_node t) /\
  eqs t (ghd g next) (pos - sh - pdepth t g) (pdepth t g) /\
  active_node t <> next /\ 1 <= pdepth t g /\ pdepth t g < gdep g next /\
  ghd g next + pdepth t g + 1 <= pos.
Proof using All.
  pose proof split_inside as Hal.
  pose proof (inv_dep_an _ _ _ _ _ Hinv) as Han0.
  pose proof (iv_pos _ _ _ _ _ Hinv) as Hpos.
  destruct (edge_child _ _ _ _ _ Hinv _ _ _ _ Hnan Hnext Hnn)
    as (Hge&Hpar&Hk&Hok&Hdep&Hlen).
  assert (Hal' : 0 < active_length t) by lia.
  destruct (edge_facts _ _ _ _ _ Hinv _ _ _ _ Hhead Hnan Hcur Hnext Hnn
              (or_introl Hal')) as (Hgn&Hhd&Heq).
  rewrite Z.min_r in Heq by (unfold pdepth; lia).
  repeat (split; [done|]).
  split; [intros E; rewrite <- E in Hdep; lia|].
  split; [unfold pdepth; lia|]. split; [unfold pdepth; lia|].
  destruct Hok as [_ Hr _ _ _ _ _ _].
  rewrite edge_length_eend in Hlt.
  destruct (decide (start nn + active_length t = pos)) as [Hp|Hp].
  - rewrite Hp, Hc2 in Hc1. congruence.
  - unfold pdepth. lia.
Qed.

Lemma split_lookup_old x nx :
  nodes t !! x = Some nx ->
  nodes (split_state pos cur c2 c1 next nn t) !! x =
    Some (mkNode
      (if decide (x = active_node t)
       then dict_set cur (length (nodes t)) (children nx) else children nx)
      (if decide (last_new_node t = Some x)
       then Some (length (nodes t)) else suffix_link nx)
      (if decide (x = next) then start nx + active_length t else start nx)
      (end_ nx) (index nx)).
Proof using All.
  destruct split_edge_facts as (_&_&_&_&_&_&_&_&Hann&_).
  intros Hn.
  change (nodes (split_state pos cur c2 c1 next nn t))
    with (split_nodes pos cur c2 c1 next nn t).
  rewrite (split_nodes_lookup _ _ _ _ _ _ nan) by done.
  pose proof (lookup_lt_Some _ _ _ Hn).
  rewrite (decide_False (P := x = length (nodes t))) by lia.
  rewrite (decide_False (P := x = S (length (nodes t)))) by lia.
  destruct (decide (x = active_node t)) as [Hx|Hx].
  - rewrite (decide_False (P := x = next)) by congruence.
    rewrite Hx, Hnan in Hn. injection Hn as <-.
    destruct (decide (last_new_node t = Some x)); by destruct nan.
  - destruct (decide (x = next)) as [Hx'|Hx'].
    + rewrite Hx', Hnn in Hn. injection Hn as <-.
      destruct (decide (last_new_node t = Some x)); by destruct nn.
    + rewrite Hn.
      destruct (decide (last_new_node t = Some x)); by destruct nx.
Qed.

Lemma split_lookup_mid :
  exists ns, nodes (split_state pos cur c2 c1 next nn t) !! length (nodes t)
               = Some ns /\
    children ns = [(c2, S (length (nodes t))); (c1, next)] /\
    start ns = start nn /\
    end_ ns = EndInt (start nn + active_length t - 1).
Proof using All.
  destruct split_edge_facts as (_&_&_&_&_&_&_&_&Hann&_).
  change (nodes (split_state pos cur c2 c1 next nn t))
    with (split_nodes pos cur c2 c1 next nn t).
  rewrite (split_nodes_lookup _ _ _ _ _ _ nan) by done.
  rewrite (decide_True (P := length (nodes t) = length (nodes t))) by done.
  assert (Hd : dict_set c1 next [(c2, S (length (nodes t)))]
               = [(c2, S (length (nodes t))); (c1, next)]).
  { cbn. by rewrite (proj2 (Ascii.eqb_neq c1 c2)). }
  rewrite Hd.
  destruct (decide (last_new_node t = Some (length (nodes t))));
    eexists; (split; [reflexivity|done]).
Qed.

Lemma split_lookup_leaf :
  exists nl, nodes (split_state pos cur c2 c1 next nn t)
               !! S (length (nodes t)) = Some nl /\
    children nl = [] /\ start nl = pos /\ end_ nl = EndLeaf.
Proof using All.
  destruct split_edge_facts as (_&_&_&_&_&_&_&_&Hann&_).
  change (nodes (split_state pos cur c2 c1 next nn t))
    with (split_nodes pos cur c2 c1 next nn t).
  rewrite (split_nodes_lookup _ _ _ _ _ _ nan) by done.
  rewrite (decide_False (P := S (length (nodes t)) = length (nodes t))) by lia.
  rewrite (decide_True (P := S (length (nodes t)) = S (length (nodes t))))
    by done.
  destruct (decide (last_new_node t = Some (S (length (nodes t)))));
    eexists; (split; [reflexivity|done]).
Qed.

Lemma split_lookup_inv x nx' :
  nodes (split_state pos cur c2 c1 next nn t) !! x = Some nx' ->
  x = length (nodes t) \/ x = S (length (nodes t)) \/
  exists nx, nodes t !! x = Some nx.
Proof using All.
  destruct split_edge_facts as (_&_&_&_&_&_&_&_&Hann&_).
  change (nodes (split_state pos cur c2 c1 next nn t))
    with (split_nodes pos cur c2 c1 next nn t).
  rewrite (split_nodes_lookup _ _ _ _ _ _ nan) by done.
  destruct (decide (x = length (nodes t))) as [|Hx]; [by left|].
  destruct (decide (x = S (length (nodes t)))) as [|Hx']; [by right; left|].
  right; right.
  destruct (decide (x = active_node t)) as [->|Ha]; [by exists nan|].
  destruct (decide (x = next)) as [->|Hb]; [by exists nn|].
  destruct (nodes t !! x) as [nx|]; [by exists nx|done].
Qed.

Lemma split_ghost_mid :
  let g1 := split_ghost pos sh next t g in
  gpar g1 (length (nodes t)) = active_node t /\
  gdep g1 (length (nodes t)) = pdepth t g /\
  ghd g1 (length (nodes t)) = ghd g next /\
  gjk g1 (length (nodes t)) = false.
Proof. cbn. by rewrite !decide_True. Qed.

Lemma split_ghost_leaf :
  let g1 := split_ghost pos sh next t g in
  gpar g1 (S (length (nodes t))) = length (nodes t) /\
  gdep g1 (S (length (nodes t))) = pdepth t g + 1 /\
  ghd g1 (S (length (nodes t))) = pos - pdepth t g /\
  gjk g1 (S (length (nodes t))) = (sh =? 1).
Proof.
  cbn.
  rewrite !(decide_False (P := S (length (nodes t)) = length (nodes t))) by lia.
  by rewrite !decide_True.
Qed.

Lemma split_ghost_old x :
  (x < length (nodes t))%nat ->
  let g1 := split_ghost pos sh next t g in
  gpar g1 x = (if decide (x = next) then length (nodes t) else gpar g x) /\
  gdep g1 x = gdep g x /\ ghd g1 x = ghd g x /\ gjk g1 x = gjk g x.
Proof.
  intros Hx. cbn.
  rewrite !(decide_False (P := x = length (nodes t))) by lia.
  by rewrite !(decide_False (P := x = S (length (nodes t)))) by lia.
Qed.

Lemma split_grows :
  grows t (split_state pos cur c2 c1 next nn t) g
    (split_ghost pos sh next t g).
Proof using All.
  split; try done.
  - intros x nx Hn. eexists. split; [by apply split_lookup_old|].
    split; [done|]. intros Hl. cbn. by rewrite decide_False.
  - intros x Hx. by destruct (split_ghost_old x Hx) as (_&?&_).
  - intros x Hx. by destruct (split_ghost_old x Hx) as (_&_&?&_).
  - intros x Hx. by destruct (split_ghost_old x Hx) as (_&_&_&?).
Qed.

Lemma split_pdepth :
  pdepth (split_state pos cur c2 c1 next nn t)
    (split_ghost pos sh next t g) = pdepth t g.
Proof using All.
  unfold pdepth at 1.
  change (active_node (split_state pos cur c2 c1 next nn t))
    with (active_node t).
  change (active_length (split_state pos cur c2 c1 next nn t))
    with (active_length t).
  pose proof (lookup_lt_Some _ _ _ Hnan) as Hlt'.
  by destruct (split_ghost_old _ Hlt') as (_&->&_).
Qed.

Lemma split_store_ok :
  store_ok (split_state pos cur c2 c1 next nn t)
    (split_ghost pos sh next t g).
Proof using All.
  pose proof (iv_store _ _ _ _ _ Hinv) as Hso.
  pose proof split_grows as Hgw.
  pose proof split_inside as Hal.
  pose proof (iv_pos _ _ _ _ _ Hinv) as Hpos.
  pose proof (inv_pos_range _ _ _ _ _ Hinv) as Hrange.
  pose proof (inv_dep_an _ _ _ _ _ Hinv) as Han0.
  destruct split_edge_facts
    as (Hge&Hpar&Hk&Hok&Hdep&Hgn&Hhd&Heq&Hann&Hpd1&Hpdlt&Hend).
  pose proof (lookup_lt_Some _ _ _ Hnan) as Hanlt.
  pose proof (lookup_lt_Some _ _ _ Hnn) as Hnextlt.
  assert (Hjn : gjk g next = false) by (by destruct Hgn as (?&_&_&?)).
  destruct (no_good _ _ _ _ Hok Hjn) as (_&Hhd0&Heqn). rewrite Hpar in Heqn.
  pose proof (no_range _ _ _ _ Hok) as Hrn.
  pose proof Hlt as Hlt2. rewrite edge_length_eend in Hlt2, Hdep.
  destruct split_ghost_mid as (Mp&Md&Mh&Mj).
  destruct split_ghost_leaf as (Lp&Ld&Lh&Lj).
  destruct split_lookup_mid as (ns&Hns&Hcs&Hss&Hes).
  destruct split_lookup_leaf as (nl&Hnl&Hcl&Hsl&Hel).
  destruct (split_ghost_old _ Hanlt) as (_&Ad&Ah&_).
  assert (Fle : leaf_end (split_state pos cur c2 c1 next nn t) = leaf_end t) by done.
  assert (Hpd : pdepth t g = gdep g (active_node t) + active_length t)
    by done.
  split.
  - apply (so_root _ _ Hso).
  - apply (grows_internal _ _ _ _ Hgw), (so_root_node _ _ Hso).
  - rewrite (gw_dep _ _ _ _ Hgw); [apply (so_dep0 _ _ Hso)|].
    destruct (so_root_node _ _ Hso) as (?&?&Hr&_).
    by apply lookup_lt_Some in Hr.
  - apply (so_size _ _ Hso).
  - apply (so_leaf_end _ _ Hso).
  - intros x nx' Hx1 Hn'.
    destruct (split_lookup_inv _ _ Hn') as [->|[->|(nx&Hn)]].
    + (* the split node *)
      rewrite Hns in Hn'. injection Hn' as <-.
      assert (Hee : eend (split_state pos cur c2 c1 next nn t) ns = start nn + active_length t - 1)
        by (unfold eend; by rewrite Hes).
      split; rewrite ?edge_length_eend, ?Hee, ?Mp, ?Md, ?Mh, ?Mj, ?Ad, ?Ah,
        ?Hss, ?Fle.
      * eexists _, cur. split; [by apply split_lookup_old|].
        split; [by rewrite (grows_chr _ _ _ _ Hgw)|]. cbn.
        rewrite decide_True by done. apply dict_get_set_eq.
      * lia.
      * done.
      * lia.
      * by rewrite Hes.
      * intros e. rewrite Hes, Hcs. intros [= <-]. split; [lia|done].
      * done.
      * intros _. split; [done|]. split; [done|].
        by apply (grows_eqs _ _ _ _ Hgw).
    + (* the new leaf *)
      rewrite Hnl in Hn'. injection Hn' as <-.
      assert (Hee : eend (split_state pos cur c2 c1 next nn t) nl = pos) by (unfold eend; by rewrite Hel).
      split; rewrite ?edge_length_eend, ?Hee, ?Lp, ?Ld, ?Lh, ?Lj, ?Md, ?Mh,
        ?Hsl, ?Fle.
      * exists ns, c2. split; [done|].
        split; [by rewrite (grows_chr _ _ _ _ Hgw)|].
        rewrite Hcs. cbn. by rewrite Ascii.eqb_refl.
      * lia.
      * lia.
      * lia.
      * done.
      * intros e. by rewrite Hel.
      * done.
      * intros Hsh. apply Z.eqb_neq in Hsh.
        assert (sh = 0) as Hsh0 by (pose proof (iv_flags _ _ _ _ _ Hinv); lia).
        split; [lia|]. split; [pose proof (iv_J _ _ _ _ _ Hinv); lia|].
        apply (grows_eqs _ _ _ _ Hgw), eqs_sym.
        by rewrite Hsh0, Z.sub_0_r in Heq.
    + (* an old node *)
      pose proof (lookup_lt_Some _ _ _ Hn) as Hxlt.
      rewrite (split_lookup_old _ _ Hn) in Hn'. injection Hn' as <-.
      destruct (decide (x = next)) as [Hx|Hx];
        destruct (split_ghost_old _ Hxlt) as (Op&Od&Oh&Oj).
      * (* the lower part of the split edge *)
        rewrite Hx, Hnn in Hn. injection Hn as <-.
        rewrite decide_True in Op by done.
        rewrite (decide_False (P := x = active_node t)) by congruence.
        destruct Hok as [_ _ _ _ H5 H6 H7 _].
        subst x.
        split; rewrite ?edge_length_eend; unfold eend in *;
          cbn [end_ start children];
          rewrite ?Op, ?Od, ?Oh, ?Oj, ?Md, ?Mh, ?Fle; try done.
        -- exists ns, c1. split; [done|].
           split; [by rewrite (grows_chr _ _ _ _ Hgw)|].
           rewrite Hcs. cbn.
           by rewrite (proj2 (Ascii.eqb_neq c1 c2)), Ascii.eqb_refl.
        -- lia.
        -- lia.
        -- lia.
        -- intros Hj. congruence.
        -- intros _. split; [lia|]. split; [done|]. apply eqs_refl.
      * rewrite (decide_False (P := x = next)) in Op by done.
        destruct (so_node _ _ Hso x nx Hx1 Hn) as [H1 H2 H3 H4 H5 H6 H7 H8].
        destruct H1 as (nu&key&Hu&Hkey&Hget).
        pose proof (lookup_lt_Some _ _ _ Hu) as Hult.
        destruct (split_ghost_old _ Hult) as (_&Ud&Uh&_).
        rewrite edge_length_eend in H4.
        split; rewrite ?edge_length_eend; unfold eend in *;
          cbn [end_ start children];
          rewrite ?Op, ?Od, ?Oh, ?Oj, ?Ud, ?Uh, ?Fle; try done.
        -- eexists _, key. split; [by apply split_lookup_old|].
           split; [by rewrite (grows_chr _ _ _ _ Hgw)|]. cbn.
           case_decide as Hd; [|done].
           rewrite dict_get_set_ne; [done|]. intros ->.
           rewrite Hd, Hnan in Hu. injection Hu as <-. congruence.
        -- intros He. case_decide as Hd; [|by apply H5].
           rewrite Hd, Hnan in Hn. injection Hn as <-.
           destruct (iv_an _ _ _ _ _ Hinv) as [H0|(_&(na&ea&Hna&Hea)&_)];
             [lia|].
           rewrite Hnan in Hna. injection Hna as <-. congruence.
        -- intros e He. destruct (H6 e He) as [Hlt' Hlen]. split; [done|].
           case_decide as Hd; [|done].
           rewrite Hd, Hnan in Hn. injection Hn as <-.
           by rewrite (dict_set_length_present _ _ next).
  - intros u nu' k c Hu' Hkc.
    destruct (split_lookup_inv _ _ Hu') as [->|[->|(nu&Hu)]].
    + rewrite Hns in Hu'. injection Hu' as <-. rewrite Hcs in Hkc.
      cbn in Hkc. destruct (Ascii.eqb_spec k c2) as [->|Hk2].
      * injection Hkc as <-. exists nl. split; [lia|]. split; [done|].
        split; [done|]. by rewrite (grows_chr _ _ _ _ Hgw), Hsl.
      * destruct (Ascii.eqb_spec k c1) as [->|Hk1]; [|done].
        injection Hkc as <-.
        destruct (split_ghost_old _ Hnextlt) as (Np&_).
        rewrite decide_True in Np by done.
        eexists. split; [done|]. split; [by apply split_lookup_old|].
        split; [done|]. cbn. rewrite decide_True by done.
        by rewrite (grows_chr _ _ _ _ Hgw).
    + rewrite Hnl in Hu'. injection Hu' as <-. by rewrite Hcl in Hkc.
    + rewrite (split_lookup_old _ _ Hu) in Hu'. injection Hu' as <-.
      cbn in Hkc.
      assert (Hold : dict_get k (children nu) = Some c ->
        (u = active_node t -> k <> cur) ->
        exists nc, (1 <= c)%nat /\ nodes (split_state pos cur c2 c1 next nn t) !! c = Some nc /\
          gpar (split_ghost pos sh next t g) c = u /\ chr (split_state pos cur c2 c1 next nn t) (start nc) = Some k).
      { intros Hget Hkey.
        destruct (so_child _ _ Hso u nu k c Hu Hget) as (nc&Hc1'&Hnc&Hp&Hkc').
        pose proof (lookup_lt_Some _ _ _ Hnc) as Hclt.
        destruct (split_ghost_old _ Hclt) as (Cp&_).
        assert (Hcn : c <> next).
        { intros ->. rewrite Hnn in Hnc. injection Hnc as <-.
          apply Hkey; congruence. }
        rewrite decide_False in Cp by done.
        eexists. split; [done|]. split; [by apply split_lookup_old|].
        split; [congruence|]. cbn. rewrite decide_False by done.
        by rewrite (grows_chr _ _ _ _ Hgw). }
      case_decide as Hd; [|apply Hold; [done|by intros]].
      destruct (ascii_dec k cur) as [->|Hkc'];
        [|rewrite dict_get_set_ne in Hkc by done; by apply Hold].
      rewrite dict_get_set_eq in Hkc. injection Hkc as <-.
      exists ns. split; [lia|]. split; [done|].
      split; [by rewrite Mp|]. by rewrite (grows_chr _ _ _ _ Hgw), Hss.
Qed.

(** Where the old loci are after the split. *)
Lemma split_locus c k :
  locus t g c k ->
  exists c', locus (split_state pos cur c2 c1 next nn t)
               (split_ghost pos sh next t g) c' k /\
    ghd (split_ghost pos sh next t g) c' = ghd g c.
Proof using All.
  pose proof (iv_store _ _ _ _ _ Hinv) as Hso.
  pose proof split_grows as Hgw.
  destruct split_edge_facts
    as (Hge&Hpar&Hk&Hok&Hdep&Hgn&Hhd&Heq&Hann&Hpd1&Hpdlt&Hend).
  pose proof (lookup_lt_Some _ _ _ Hnan) as Hanlt.
  destruct split_ghost_mid as (Mp&Md&Mh&Mj).
  destruct split_lookup_mid as (ns&Hns&Hcs&Hss&Hes).
  destruct (split_ghost_old _ Hanlt) as (_&Ad&Ah&_).
  intros [Hg Hr].
  pose proof (grows_gnode_old _ _ _ Hg) as Hc.
  destruct (decide (c = next)) as [Hcn|Hcn];
    destruct (split_ghost_old _ Hc) as (Cp&Cd&Ch&_).
  - subst c. rewrite Hpar in Hr. rewrite decide_True in Cp by done.
    destruct (Z_le_gt_dec k (pdepth t g)) as [Hle|Hgt].
    + exists (length (nodes t)). split; [|done]. split.
      * exists ns. split; [lia|done].
      * rewrite Mp, Md, Ad. lia.
    + exists next. split; [|done]. split; [by apply (grows_gnode _ _ _ _ Hgw)|].
      rewrite Cp, Md, Cd. lia.
  - exists c. split; [|done]. split; [by apply (grows_gnode _ _ _ _ Hgw)|].
    destruct Hg as (nc&Hc1'&Hnc&_).
    destruct (so_node _ _ Hso c nc Hc1' Hnc) as [(nu&?&Hu&_) _ _ _ _ _ _ _].
    apply lookup_lt_Some in Hu. rewrite decide_False in Cp by done.
    rewrite Cp, Cd, (gw_dep _ _ _ _ Hgw) by done. done.
Qed.

(** After the split the state is as an insertion leaves it. *)
Lemma step_split :
  mid pos delta sh (split_state pos cur c2 c1 next nn t)
    (split_ghost pos sh next t g).
Proof using All.
  pose proof (iv_store _ _ _ _ _ Hinv) as Hso.
  pose proof split_grows as Hgw.
  pose proof split_inside as Hal.
  pose proof (iv_pos _ _ _ _ _ Hinv) as Hpos.
  pose proof (iv_flags _ _ _ _ _ Hinv) as Hfl.
  pose proof (inv_dep_an _ _ _ _ _ Hinv) as Han0.
  destruct split_edge_facts
    as (Hge&Hpar&Hk&Hok&Hdep&Hgn&Hhd&Heq&Hann&Hpd1&Hpdlt&Hend).
  pose proof (lookup_lt_Some _ _ _ Hnan) as Hanlt.
  pose proof (lookup_lt_Some _ _ _ Hnn) as Hnextlt.
  destruct split_ghost_mid as (Mp&Md&Mh&Mj).
  destruct split_ghost_leaf as (Lp&Ld&Lh&Lj).
  destruct split_lookup_mid as (ns&Hns&Hcs&Hss&Hes).
  destruct split_lookup_leaf as (nl&Hnl&Hcl&Hsl&Hel).
  destruct (split_ghost_old _ Hanlt) as (_&Ad&Ah&_).
  destruct (split_ghost_old _ Hnextlt) as (Np&Nd&Nh&Nj).
  rewrite decide_True in Np by done.
  destruct (grows_an _ _ _ _ Hgw _ _ (so_root_node _ _ Hso)
              (iv_an _ _ _ _ _ Hinv)) as [Hdan Han].
  assert (Hgs : gnode (split_state pos cur c2 c1 next nn t)
                  (split_ghost pos sh next t g) (length (nodes t))).
  { exists ns. split; [lia|done]. }
  assert (His : internal (split_state pos cur c2 c1 next nn t)
                  (length (nodes t))).
  { by exists ns, (start nn + active_length t - 1). }
  split; rewrite ?split_pdepth.
  - apply split_store_ok.
  - done.
  - done.
  - intros i k Hi Hk1 Hik.
    destruct (iv_complete _ _ _ _ _ Hinv i k Hi Hk1 Hik) as (c&Hl&He).
    destruct (split_locus c k Hl) as (c'&Hl'&Hh).
    exists c'. split; [done|]. rewrite Hh.
    by apply (grows_eqs _ _ _ _ Hgw).
  - done.
  - apply (iv_al _ _ _ _ _ Hinv).
  - apply (iv_pd _ _ _ _ _ Hinv).
  - apply (iv_J _ _ _ _ _ Hinv).
  - intros Hp.
    change (active_node (split_state pos cur c2 c1 next nn t))
      with (active_node t).
    rewrite Ad. by apply (iv_ae _ _ _ _ _ Hinv).
  - intros Hsh x. cbn. case_decide; [done|].
    case_decide; [by apply Z.eqb_neq; lia|].
    by apply (iv_nojunk _ _ _ _ _ Hinv).
  - intros Hd i Hi.
    destruct (decide (i = pos - sh - pdepth t g)) as [->|Hne'].
    + exists (S (length (nodes t))), nl.
      split; [exists nl; repeat split; [lia|done|]|].
      { rewrite Lj. apply Z.eqb_neq. lia. }
      repeat split; [done|done|]. rewrite Lh. lia.
    + apply (grows_leaf _ _ _ _ Hgw).
      apply (iv_leaves _ _ _ _ _ Hinv Hd). lia.
  - intros x nx' Hx1 Hn' He'.
    destruct (split_lookup_inv _ _ Hn') as [->|[->|(nx&Hn)]].
    + rewrite Hns in Hn'. injection Hn' as <-. congruence.
    + rewrite Ld. lia.
    + rewrite (split_lookup_old _ _ Hn) in Hn'. injection Hn' as <-.
      rewrite (gw_dep _ _ _ _ Hgw) by (by apply lookup_lt_Some in Hn).
      pose proof (iv_leafdep _ _ _ _ _ Hinv x nx Hx1 Hn He'). lia.
  - change (nodes (split_state pos cur c2 c1 next nn t))
      with (split_nodes pos cur c2 c1 next nn t).
    rewrite opens_split. pose proof (iv_count _ _ _ _ _ Hinv). lia.
  - intros x nx' e Hx1 Hn' He' Hcond.
    destruct (split_lookup_inv _ _ Hn') as [->|[->|(nx&Hn)]].
    { (* the split node waits for its link *)
      revert Hn' He'.
      change (nodes (split_state pos cur c2 c1 next nn t))
        with (split_nodes pos cur c2 c1 next nn t).
      rewrite (split_nodes_lookup _ _ _ _ _ _ nan) by done.
      rewrite (decide_True (P := length (nodes t) = length (nodes t)))
        by done.
      case_decide as Hl.
      - destruct (iv_pending _ _ _ _ _ Hinv _ Hl) as (?&?&_&Hv&_).
        apply lookup_lt_Some in Hv. lia.
      - cbn. intros [= <-] _. by left. }
    { rewrite Hnl in Hn'. injection Hn' as <-. congruence. }
    pose proof (lookup_lt_Some _ _ _ Hn) as Hxlt.
    rewrite (gw_dep _ _ _ _ Hgw) in Hcond by done.
    destruct (decide (last_new_node t = Some x)) as [Hlast|Hlast].
    + rewrite (split_lookup_old _ _ Hn) in Hn'. injection Hn' as <-.
      unfold link_ok. cbn [suffix_link]. rewrite decide_True by done.
      destruct (iv_pending _ _ _ _ _ Hinv x Hlast) as (nv&ev&_&_&_&Hdv&Hq).
      assert (Hd0 : delta = 0) by lia.
      destruct (Hq Hd0) as (Heqv&_). clear Hq.
      rewrite (gw_dep _ _ _ _ Hgw x), (gw_hd _ _ _ _ Hgw x) by done.
      rewrite Md, Mh.
      split; [by right|]. split; [lia|]. intros _.
      apply (grows_eqs _ _ _ _ Hgw).
      apply (eqs_trans _ _ _ _ _ Heq), eqs_sym. done.
    + apply (grows_link _ _ _ _ Hgw x nx); try done.
      * apply (so_root_node _ _ Hso).
      * cbn in He'. apply (iv_links _ _ _ _ _ Hinv x nx e); try done.
        rewrite (split_lookup_old _ _ Hn) in Hn'. by injection Hn' as <-.
  - intros v [= <-].
    exists ns, (start nn + active_length t - 1).
    split; [lia|]. split; [done|]. split; [done|]. split; [done|].
    split; [change (active_node (split_state pos cur c2 c1 next nn t))
              with (active_node t); lia|].
    intros Hd0. rewrite Mh.
    split.
    + apply (grows_eqs _ _ _ _ Hgw). by apply eqs_shift; [lia|].
    + eexists next, _. split; [by apply (grows_gnode _ _ _ _ Hgw)|].
      split; [by apply split_lookup_old|].
      split; [done|]. rewrite Nh. split; [lia|].
      cbn [start]. rewrite decide_True by done.
      rewrite !(grows_chr _ _ _ _ Hgw), Hc1, Hc2. congruence.
  - intros Hz. lia.
Qed.

End Split.

(** ** One pass through the loop body *)

Lemma after_insert pos delta sh tI g :
  mid pos delta sh tI g ->
  exists t',
    update_active_point pos
      (set_remaining_suffix_count (remaining_suffix_count tI - 1) tI) = Ok t' /\
    remaining_suffix_count t' = remaining_suffix_count tI - 1 /\
    active_length t' <= active_length tI /\
    ((exists sh', inv pos delta sh' t' g) \/
     (remaining_suffix_count t' = delta /\
      (delta = 0 -> ready (pos + 1) t' g) /\
      (delta = 1 -> last_pass pos t' g))).
Proof.
  intros Hmid.
  pose proof (mid_dep_an _ _ _ _ _ Hmid) as Han0.
  pose proof (md_al _ _ _ _ _ Hmid) as Hal0.
  pose proof (md_pd _ _ _ _ _ Hmid) as Hpd.
  destruct (decide (pdepth tI g = 0)) as [Hz|Hnz].
  - destruct (update_at_end _ _ _ _ _ Hmid Hz) as (Hu&Hr0&Hr1).
    eexists. split; [exact Hu|]. split; [done|]. split; [done|].
    right. split; [cbn; lia|done].
  - assert (H1 : 1 <= pdepth tI g) by (unfold pdepth in *; lia).
    destruct (decide (active_node tI = 0%nat)) as [Hr|Hr].
    + destruct (update_at_root _ _ _ _ _ Hmid H1 Hr) as (t'&Hu&Hi&Hl&Hrem).
      exists t'. repeat (split; [done|]). left. by exists delta.
    + destruct (update_by_link _ _ _ _ _ Hmid H1 Hr) as (t'&Hu&Hi&Hl&Hrem).
      exists t'. repeat (split; [done|]). left. by exists sh.
Qed.

Lemma extend_body_inserted pos t ti t' :
  extend_insert pos t = Ok (Inserted, ti) ->
  update_active_point pos
    (set_remaining_suffix_count (remaining_suffix_count ti - 1) ti) = Ok t' ->
  extend_body pos t = Ok (Inserted, t').
Proof. intros Hi Hu. unfold extend_body. by rewrite Hi, Hu. Qed.

Lemma body_step pos delta sh t g :
  inv pos delta sh t g ->
  exists e t' g',
    extend_body pos t = Ok (e, t') /\ pass_post pos delta sh t g e t' g'.
Proof.
  intros Hinv0.
  destruct (inv_head _ _ _ _ _ Hinv0) as (Hinv&Hhead&Fal&Fan&Frem&Flast&Fnodes).
  pose proof (inv_pos_range _ _ _ _ _ Hinv0) as Hrange.
  pose proof (iv_store _ _ _ _ _ Hinv) as Hso.
  pose proof (iv_pos _ _ _ _ _ Hinv) as Hpos.
  pose proof (iv_al _ _ _ _ _ Hinv) as Hal0.
  unfold extend_body, extend_insert. cbv zeta.
  set (t0 := if active_length t =? 0 then set_active_edge pos t else t) in *.
  assert (Htx : text t0 = text t).
  { subst t0. by destruct (active_length t =? 0). }
  rewrite <- Fal in Hhead.
  assert (Hcur : exists cur, chr t0 (active_edge t0) = Some cur).
  { destruct (Z_lt_le_dec 0 (active_length t0)) as [Hp|Hp].
    - destruct (inv_active_edge _ _ _ _ _ Hinv Hp) as (?&?&?&key&_&Hk&_).
      by exists key.
    - rewrite Hhead by lia. apply chr_in_range. by rewrite Htx. }
  destruct Hcur as (cur&Hcur).
  destruct (inv_an_node _ _ _ _ _ Hinv) as (nan&Hnan).
  change (py_index (text t0) (active_edge t0)) with (chr t0 (active_edge t0)).
  rewrite Hcur, Hnan.
  destruct (dict_get cur (children nan)) as [next|] eqn:Hnext.
  - (* there is an edge for the symbol *)
    destruct (so_child _ _ Hso _ _ _ _ Hnan Hnext) as (nn&_&Hnn&_).
    rewrite Hnn.
    destruct (edge_child _ _ _ _ _ Hinv _ _ _ _ Hnan Hnext Hnn)
      as (Hge&Hpar&Hk&Hok&Hdep&Hlen).
    destruct (Z.geb_spec (active_length t0) (edge_length t0 nn)) as [Hskip|Hin].
    + (* skip *)
      destruct (step_skip _ _ _ _ _ Hinv _ _ _ _ Hhead Hnan Hcur Hnext Hnn
                  ltac:(lia)) as (Hi&Hl&Hr).
      eexists Continue, _, g. split; [reflexivity|].
      split; [done|]. split; [done|]. split; [lia|congruence].
    + pose proof (no_range _ _ _ _ Hok) as Hrn.
      pose proof Hin as Hin'. rewrite edge_length_eend in Hin'.
      assert (Hc1 : exists c1, chr t0 (start nn + active_length t0) = Some c1).
      { apply chr_in_range. rewrite Htx. lia. }
      assert (Hc2 : exists c2, chr t0 pos = Some c2).
      { apply chr_in_range. by rewrite Htx. }
      destruct Hc1 as (c1&Hc1). destruct Hc2 as (c2&Hc2).
      change (py_index (text t0) (start nn + active_length t0))
        with (chr t0 (start nn + active_length t0)).
      change (py_index (text t0) pos) with (chr t0 pos).
      rewrite Hc1, Hc2.
      destruct (Ascii.eqb_spec c1 c2) as [Heq|Hne].
      * (* rule 3 *)
        eexists Break, _, g. split; [reflexivity|].
        split; [apply (store_ok_edges t0); [apply same_edges_stop_phase|done]|].
        split.
        -- intros ->. apply (step_break _ _ _ _ Hinv _ _ _ _ Hhead Hnan Hcur
                               Hnext Hnn Hin). congruence.
        -- intros Hfresh.
           apply (no_break _ _ _ _ _ Hinv _ _ _ _ Hnan Hnext Hnn); [|done|].
           ++ intros i Hi. unfold chr. rewrite Htx. by apply Hfresh.
           ++ congruence.
      * (* rule 2 with a split *)
        rewrite (split_edge_ok _ _ _ c1) by done.
        pose proof (step_split _ _ _ _ _ Hinv _ _ _ _ _ _ Hhead Hnan Hcur
                      Hnext Hnn Hin Hc1 Hc2 Hne) as Hmid.
        destruct (after_insert _ _ _ _ _ Hmid) as (t'&Hu&Hr&Hl&Hpost).
        rewrite Hu.
        eexists Inserted, t', _. split; [reflexivity|].
        split; [rewrite Hr; cbn; congruence|].
        split; [|exact Hpost].
        change (active_length (split_state pos cur c2 c1 next nn t0))
          with (active_length t0) in Hl. lia.
  - (* rule 2 at a node *)
    pose proof (step_leaf _ _ _ _ _ Hinv _ _ Hhead Hnan Hcur Hnext) as Hmid.
    destruct (after_insert _ _ _ _ _ Hmid) as (t'&Hu&Hr&Hl&Hpost).
    rewrite Hu.
    destruct (add_leaf_fields pos cur t0) as (_&_&_&_&_&Fal'&_&Frem'&_).
    eexists Inserted, t', _. split; [reflexivity|].
    split; [lia|]. split; [lia|exact Hpost].
Qed.

(** ** The loop of a phase *)

Lemma last_pass_break pos t g :
  last_pass pos t g ->
  exists t', extend_body pos t = Ok (Break, t') /\ store_ok t' g /\
    opens (nodes t') = opens (nodes t) /\
    exists nr cur x nx, nodes t' !! 0%nat = Some nr /\
      chr t' pos = Some cur /\ dict_get cur (children nr) = Some x /\
      nodes t' !! x = Some nx /\ start nx = pos /\ end_ nx = EndLeaf.
Proof.
  intros [Hso Hpos Han Hal Hrem Hcount (nr&cur&x&nx&Hnr&Hcur&Hget&Hnx&Hs&He)].
  unfold extend_body, extend_insert. cbv zeta.
  rewrite Hal. cbn [Z.eqb].
  set (t0 := set_active_edge pos t).
  change (py_index (text t0) (active_edge t0)) with (chr t pos).
  change (nodes t0 !! active_node t0) with (nodes t !! active_node t).
  rewrite Hcur, Han, Hnr, Hget.
  change (nodes t0 !! x) with (nodes t !! x). rewrite Hnx.
  assert (Hlen : edge_length t0 nx = 1).
  { unfold edge_length. rewrite He, Hs. change (leaf_end t0) with (leaf_end t).
    lia. }
  rewrite Hlen.
  change (active_length t0) with (active_length t). rewrite Hal.
  cbn [Z.geb Z.compare].
  change (py_index (text t0) (start nx + 0)) with (chr t (start nx + 0)).
  change (py_index (text t0) pos) with (chr t pos).
  rewrite Hs, Z.add_0_r, Hcur, Ascii.eqb_refl.
  assert (Hso0 : store_ok t0 g)
    by (apply (store_ok_ext t); [by repeat split|done]).
  pose proof (same_edges_stop_phase t0) as Hse.
  eexists. split; [reflexivity|].
  split; [by apply (store_ok_edges t0)|].
  split; [by rewrite opens_stop_phase|].
  destruct (same_edges_lookup _ _ 0%nat nr Hse Hnr) as (nr'&Hnr'&Hc&_).
  destruct (same_edges_lookup _ _ x nx Hse Hnx) as (nx'&Hnx'&_&Hs'&He').
  exists nr', cur, x, nx'. split; [done|].
  split; [by rewrite (chr_ext t0) by apply Hse|].
  split; [by rewrite Hc|]. split; [done|]. split; congruence.
Qed.

Lemma loop_runs fuel : forall pos delta sh t g,
  inv pos delta sh t g ->
  (Z.to_nat (remaining_suffix_count t + active_length t) < fuel)%nat ->
  exists t' g', extend_loop fuel pos t = Ok t' /\
    phase_post pos delta (text t) t' g'.
Proof.
  induction fuel as [|f IH]; intros pos delta sh t g Hinv Hfuel; [lia|].
  pose proof (inv_dep_an _ _ _ _ _ Hinv) as Han0.
  pose proof (iv_al _ _ _ _ _ Hinv) as Hal0.
  pose proof (iv_pd _ _ _ _ _ Hinv) as Hpd.
  pose proof (iv_flags _ _ _ _ _ Hinv) as Hfl.
  assert (Hrem : (remaining_suffix_count t >? 0) = true).
  { apply Z.gtb_lt. unfold pdepth in Hpd. lia. }
  destruct (body_step _ _ _ _ _ Hinv) as (e&t'&g'&Hbody&Hpost).
  pose proof (extend_body_globals _ _ _ _ Hbody) as (Htx&_).
  cbn [extend_loop]. rewrite Hrem, Hbody.
  destruct e; cbn in Hpost.
  - destruct Hpost as (->&Hi&Hl&Hr).
    pose proof (iv_al _ _ _ _ _ Hi).
    destruct (IH pos delta sh t' g Hi ltac:(lia)) as (t''&g''&Hloop&Hp).
    exists t'', g''. split; [done|]. by rewrite <- Htx.
  - destruct Hpost as (Hso&Hr&Hnf).
    exists t', g'. split; [done|].
    split; [done|]. split; [done|]. split; [done|].
    intros _ Hf. by destruct Hnf.
  - destruct Hpost as (Hr&Hl&[(sh'&Hi)|(Hrd&Hr0&Hr1)]).
    + pose proof (iv_al _ _ _ _ _ Hi).
      destruct (IH pos delta sh' t' g' Hi ltac:(lia)) as (t''&g''&Hloop&Hp).
      exists t'', g''. split; [done|]. by rewrite <- Htx.
    + destruct (decide (delta = 0)) as [Hd|Hd].
      * exists t', g'. split.
        { destruct f; cbn [extend_loop]; by rewrite Hrd, Hd. }
        split; [apply (rd_store _ _ _ (Hr0 Hd))|]. split; [done|].
        split; [done|]. intros ?. lia.
      * assert (Hd1 : delta = 1) by lia.
        destruct (last_pass_break _ _ _ (Hr1 Hd1)) as (t''&Hb&Hso&Hop&Hroot).
        pose proof (extend_body_globals _ _ _ _ Hb) as (Htx'&_).
        destruct f as [|f']; [lia|].
        exists t'', g'. split.
        { cbn [extend_loop]. by rewrite Hrd, Hd1, Hb. }
        split; [done|]. split; [congruence|]. split; [intros ?; lia|].
        intros _ _. split; [|done].
        rewrite Hop. apply (lp_count _ _ _ (Hr1 Hd1)).
Qed.

(** ** The start of a phase *)

Section Enter.
Context (P delta : Z) (t t' : SuffixTree) (g : ghost).
Context (Hrd : ready P t g) (Hdelta : 0 <= delta <= 1)
        (Hn : nodes t' = nodes t) (Hroot : root t' = root t)
        (Hle : leaf_end t' = P)
        (Hsz : size t' = Z.of_nat (length (text t')))
        (HP : P < size t')
        (Hchr : forall i, 0 <= i < P -> chr t' i = chr t i)
        (Han : active_node t' = active_node t)
        (Hae : active_edge t' = active_edge t)
        (Hal : active_length t' = active_length t)
        (Hrem : remaining_suffix_count t' =
                remaining_suffix_count t + 1 + delta)
        (Hlast : last_new_node t' = None).

Lemma enter_dep_an : 0 <= gdep g (active_node t).
Proof using All.
  pose proof (rd_store _ _ _ Hrd) as Hso.
  destruct (rd_an _ _ _ Hrd) as [->|[(nx&Hx&Hnx&_) _]].
  - rewrite (so_dep0 _ _ Hso). lia.
  - pose proof (node_dep_pos t g Hso _ _ Hx Hnx). lia.
Qed.

Lemma enter_range x nx :
  (1 <= x)%nat -> nodes t !! x = Some nx ->
  0 <= ghd g x /\ ghd g x + gdep g x = eend t nx + 1 /\
  eend t nx <= P - 1 /\ 0 <= start nx <= eend t nx /\
  ghd g x = start nx - gdep g (gpar g x) /\ 0 <= gdep g (gpar g x).
Proof using All.
  intros Hx Hnx.
  pose proof (rd_store _ _ _ Hrd) as Hso.
  destruct (so_node _ _ Hso x nx Hx Hnx) as [_ H2 H3 H4 _ _ _ H8].
  destruct (H8 (rd_nojunk _ _ _ Hrd x)) as (Hh&Hh0&_).
  rewrite edge_length_eend in H4. rewrite (rd_pos _ _ _ Hrd) in H2. lia.
Qed.

Lemma enter_eqs a b d :
  eqs t a b d -> 0 <= a -> 0 <= b -> a + d <= P -> b + d <= P ->
  eqs t' a b d.
Proof using All.
  intros He Ha Hb Had Hbd i Hi. rewrite !Hchr by lia. by apply He.
Qed.

Lemma enter_gnode x : gnode t g x -> gnode t' (open_ghost t g) x.
Proof using All. intros (nx&?&?&?). exists nx. by rewrite Hn. Qed.

Lemma enter_internal x : internal t x -> internal t' x.
Proof using All. intros (nx&e&?&?). exists nx, e. by rewrite Hn. Qed.

Lemma enter_closed x :
  internal t x -> gdep (open_ghost t g) x = gdep g x.
Proof using All.
  intros (nx&e&Hnx&He). cbn. unfold open_at, is_open. rewrite Hnx, He. lia.
Qed.

Lemma enter_dep_le x : gdep g x <= gdep (open_ghost t g) x.
Proof using All. cbn. destruct (open_at t x); lia. Qed.

Lemma enter_an_closed :
  gdep (open_ghost t g) (active_node t) = gdep g (active_node t).
Proof using All.
  pose proof (rd_store _ _ _ Hrd) as Hso.
  apply enter_closed.
  destruct (rd_an _ _ _ Hrd) as [->|(_&?&_)]; [|done].
  apply (so_root_node _ _ Hso).
Qed.

(** A node with a child is not a leaf. *)
Lemma enter_parent_closed u nu k c :
  nodes t !! u = Some nu -> dict_get k (children nu) = Some c ->
  internal t u.
Proof using All.
  intros Hu Hget.
  pose proof (rd_store _ _ _ Hrd) as Hso.
  destruct (decide (u = 0%nat)) as [->|Hne]; [apply (so_root_node _ _ Hso)|].
  destruct (end_ nu) as [e|] eqn:He; [by exists nu, e|].
  destruct (so_node _ _ Hso u nu ltac:(lia) Hu) as [_ _ _ _ H5 _ _ _].
  rewrite (H5 He) in Hget. done.
Qed.

Lemma enter_pdepth : pdepth t' (open_ghost t g) = pdepth t g.
Proof using All.
  unfold pdepth. by rewrite Han, Hal, enter_an_closed.
Qed.

Lemma enter_P : 0 <= P /\ 0 <= pdepth t g <= P.
Proof using All.
  pose proof enter_dep_an. pose proof (rd_al _ _ _ Hrd).
  pose proof (rd_J _ _ _ Hrd). unfold pdepth in *. lia.
Qed.

Lemma enter_store_ok : store_ok t' (open_ghost t g).
Proof using All.
  pose proof (rd_store _ _ _ Hrd) as Hso.
  pose proof (rd_pos _ _ _ Hrd) as Hpos.
  destruct enter_P as [HP0 _].
  split.
  - by rewrite Hroot, (so_root _ _ Hso).
  - apply enter_internal, (so_root_node _ _ Hso).
  - rewrite enter_closed; [apply (so_dep0 _ _ Hso)|apply (so_root_node _ _ Hso)].
  - done.
  - lia.
  - intros x nx Hx Hnx. rewrite Hn in Hnx.
    destruct (enter_range x nx Hx Hnx) as (Hh0&Hhd&Hee&Hst&Hh&Hpd).
    destruct (so_node _ _ Hso x nx Hx Hnx) as [H1 H2 H3 H4 H5 H6 H7 H8].
    destruct H1 as (nu&key&Hu&Hkey&Hget).
    pose proof (enter_parent_closed _ _ _ _ Hu Hget) as Hint.
    rewrite edge_length_eend in H4.
    assert (Hee' : eend t' nx = eend t nx + if is_open nx then 1 else 0).
    { unfold eend, is_open. rewrite Hle, Hpos. destruct (end_ nx); lia. }
    assert (Hdx : gdep (open_ghost t g) x
                  = gdep g x + if is_open nx then 1 else 0).
    { cbn. unfold open_at. by rewrite Hnx. }
    split; rewrite ?edge_length_eend, ?Hee', ?Hdx, ?Hle;
      change (gpar (open_ghost t g) x) with (gpar g x);
      change (ghd (open_ghost t g)) with (ghd g);
      change (gjk (open_ghost t g)) with (gjk g);
      rewrite ?(enter_closed _ Hint).
    + exists nu, key. rewrite Hn. split; [done|]. split; [|done].
      rewrite Hchr by lia. done.
    + destruct (is_open nx); lia.
    + done.
    + lia.
    + done.
    + intros e He. destruct (H6 e He). split; [lia|done].
    + intros Hj. by rewrite (rd_nojunk _ _ _ Hrd) in Hj.
    + intros _. split; [done|]. split; [done|].
      destruct (H8 (rd_nojunk _ _ _ Hrd x)) as (_&_&He).
      destruct (decide (gpar g x = 0%nat)) as [H0|H0].
      { rewrite H0, (so_dep0 _ _ Hso). intros i Hi. lia. }
      destruct (enter_range (gpar g x) nu ltac:(lia) Hu) as (?&?&?&_).
      apply enter_eqs; try done; lia.
  - intros u nu k c Hu Hget. rewrite Hn in Hu.
    destruct (so_child _ _ Hso u nu k c Hu Hget) as (nc&Hc1&Hnc&Hp&Hk).
    destruct (enter_range c nc Hc1 Hnc) as (_&_&?&?&_).
    exists nc. rewrite Hn. repeat split; try done.
    rewrite Hchr by lia. done.
Qed.

(** A phase starts in a state that satisfies the loop invariant. *)
Lemma enter_phase : inv P delta 0 t' (open_ghost t g).
Proof using All.
  pose proof (rd_store _ _ _ Hrd) as Hso.
  pose proof (rd_pos _ _ _ Hrd) as Hpos.
  pose proof enter_dep_an as Han0.
  pose proof (rd_al _ _ _ Hrd) as Hal0.
  destruct enter_P as [HP0 HpdP].
  assert (HJ : P - 0 - pdepth t g = P - pdepth t g) by lia.
  split; rewrite ?enter_pdepth, ?HJ, ?Han, ?Hal, ?Hae, ?Hrem, ?Hn;
    cbn [ghd gjk gpar open_ghost].
  - apply enter_store_ok.
  - done.
  - lia.
  - intros i k Hi Hk Hik.
    destruct (rd_complete _ _ _ Hrd i k Hi Hk Hik) as (c&[Hg Hr]&He).
    pose proof Hg as (nc&Hc1&Hnc&_).
    destruct (enter_range c nc Hc1 Hnc) as (?&?&?&_).
    destruct (so_node _ _ Hso c nc Hc1 Hnc) as [(nu&key&Hu&_&Hget) _ _ _ _ _ _ _].
    exists c. split; [split; [by apply enter_gnode|]|].
    + cbn [gpar open_ghost].
      rewrite (enter_closed _ (enter_parent_closed _ _ _ _ Hu Hget)).
      pose proof (enter_dep_le c). lia.
    + cbn [ghd open_ghost]. apply enter_eqs; try done; lia.
  - destruct (rd_an _ _ _ Hrd) as [?|(Hg&Hi&He)]; [by left|right].
    split; [by apply enter_gnode|]. split; [by apply enter_internal|].
    rewrite enter_an_closed.
    pose proof Hg as (na&Ha1&Hna&_).
    destruct (enter_range _ na Ha1 Hna) as (?&?&?&_).
    apply enter_eqs; try done; unfold pdepth in *; lia.
  - done.
  - rewrite (rd_pd _ _ _ Hrd). lia.
  - lia.
  - rewrite enter_an_closed. apply (rd_ae _ _ _ Hrd).
  - intros _. apply (rd_nojunk _ _ _ Hrd).
  - intros _ i Hi. destruct (rd_leaves _ _ _ Hrd i Hi) as (x&nx&?&?&?&?).
    exists x, nx. split; [by apply enter_gnode|done].
  - intros x nx Hx Hnx He.
    pose proof (rd_leafdep _ _ _ Hrd x nx Hx Hnx He).
    cbn. unfold open_at, is_open. rewrite Hnx, He. lia.
  - rewrite (rd_count _ _ _ Hrd). lia.
  - intros x nx e Hx Hnx He _.
    pose proof (rd_links _ _ _ Hrd x nx e Hx Hnx He) as Hlk.
    assert (Hix : internal t x) by (by exists nx, e).
    destruct (enter_range x nx Hx Hnx) as (?&?&?&_).
    unfold link_ok. cbn [ghd open_ghost]. rewrite (enter_closed _ Hix).
    destruct (suffix_link nx) as [l|]; [|by right].
    destruct Hlk as (Hl&Hd&Hel).
    assert (Hil : internal t l).
    { destruct Hl as [->|[_ ?]]; [apply (so_root_node _ _ Hso)|done]. }
    rewrite (enter_closed _ Hil).
    split; [|split; [done|]].
    + destruct Hl as [?|[? ?]]; [by left|right].
      split; [by apply enter_gnode|by apply enter_internal].
    + intros Hl0. destruct Hl as [?|[(nl&Hl1&Hnl&_) _]]; [done|].
      destruct (enter_range l nl Hl1 Hnl) as (?&?&?&_).
      pose proof (node_dep_pos t g Hso _ _ Hl1 Hnl).
      apply enter_eqs; try (by apply Hel); lia.
  - by rewrite Hlast.
Qed.

End Enter.

(** ** The construction, phase by phase *)

Lemma init_ready s : ready 0 (init_tree s) init_ghost.
Proof.
  assert (Hnone : forall x, (1 <= x)%nat -> nodes (init_tree s) !! x = None).
  { intros x Hx. apply lookup_ge_None. cbn. lia. }
  split.
  - split; try done.
    + by eexists _, _.
    + cbn. lia.
    + intros x nx Hx Hnx. by rewrite Hnone in Hnx.
    + intros [|u] nu k c Hu Hget.
      * injection Hu as <-. done.
      * by rewrite Hnone in Hu by lia.
  - done.
  - intros i k Hi Hk Hik. lia.
  - by left.
  - done.
  - done.
  - done.
  - done.
  - done.
  - intros i Hi. unfold pdepth in Hi. cbn in Hi. lia.
  - intros x nx Hx Hnx. by rewrite Hnone in Hnx.
  - done.
  - intros x nx e Hx Hnx. by rewrite Hnone in Hnx.
Qed.

Lemma ready_bounds P t g :
  ready P t g ->
  0 <= active_length t /\ 0 <= remaining_suffix_count t <= P /\
  active_length t <= remaining_suffix_count t /\ P <= size t /\
  size t = Z.of_nat (length (text t)).
Proof.
  intros Hrd.
  pose proof (rd_store _ _ _ Hrd) as Hso.
  assert (0 <= gdep g (active_node t)).
  { destruct (rd_an _ _ _ Hrd) as [->|[(nx&Hx&Hnx&_) _]].
    - rewrite (so_dep0 _ _ Hso). lia.
    - pose proof (node_dep_pos t g Hso _ _ Hx Hnx). lia. }
  pose proof (rd_al _ _ _ Hrd). pose proof (rd_pd _ _ _ Hrd).
  pose proof (rd_J _ _ _ Hrd). pose proof (rd_pos _ _ _ Hrd).
  pose proof (so_leaf_end _ _ Hso). pose proof (so_size _ _ Hso).
  unfold pdepth in *. lia.
Qed.

(** A phase of [_build_suffix_tree] ends in a state from which the next
    one starts. *)
Lemma phase_runs fuel P t g :
  ready P t g -> P < size t -> 2 * P + 1 < Z.of_nat fuel ->
  exists t' g', _extend_suffix_tree fuel P t = Ok t' /\
    ready (P + 1) t' g' /\ text t' = text t /\ size t' = size t.
Proof.
  intros Hrd HP Hfuel.
  destruct (ready_bounds _ _ _ Hrd) as (Hal&Hrem&Halr&_&Hsz).
  assert (Hinv : inv P 0 0 (phase_prologue P t) (open_ghost t g)).
  { apply (enter_phase P 0 t); try done; cbn; lia. }
  destruct (loop_runs fuel P 0 0 _ _ Hinv) as (t'&g'&Hloop&Hpost).
  { cbn. lia. }
  destruct Hpost as (Hso&Htx&Hr&_).
  exists t', g'. split; [done|]. split; [by apply Hr|].
  split; [done|].
  rewrite (so_size _ _ Hso), Htx. done.
Qed.

Lemma build_runs fuel k : forall P t g,
  ready P t g -> P + Z.of_nat k = size t -> 2 * size t < Z.of_nat fuel ->
  exists t' g',
    build_from fuel (map Z.of_nat (seq (Z.to_nat P) k)) t = Ok t' /\
    ready (size t) t' g' /\ text t' = text t /\ size t' = size t.
Proof.
  induction k as [|k IH]; intros P t g Hrd Hk Hfuel.
  - exists t, g. split; [done|]. split; [|done].
    by replace (size t) with P by lia.
  - destruct (ready_bounds _ _ _ Hrd) as (_&Hrem&_).
    destruct (phase_runs fuel P t g Hrd) as (t1&g1&Hph&Hrd1&Htx1&Hsz1);
      [lia|lia|].
    destruct (IH (P + 1) t1 g1 Hrd1) as (t'&g'&Hb&Hrd'&Htx'&Hsz');
      [lia|lia|].
    exists t', g'. split; [|split; [congruence|split; congruence]].
    cbn [seq map build_from]. rewrite Z2Nat.id by lia. rewrite Hph.
    replace (S (Z.to_nat P)) with (Z.to_nat (P + 1)) by lia. done.
Qed.

(** [SuffixTree(s)] returns, and the tree it returns is the implicit
    suffix tree of [s]. *)
Lemma new_runs fuel s :
  (2 * length s < fuel)%nat ->
  exists t g, SuffixTree_new fuel s = Ok t /\
    ready (Z.of_nat (length s)) t g /\ text t = s /\
    size t = Z.of_nat (length s).
Proof.
  intros Hfuel.
  destruct (build_runs fuel (length s) 0 (init_tree s) init_ghost
              (init_ready s)) as (t&g&Hb&Hrd&Htx&Hsz).
  { cbn. lia. }
  { cbn. lia. }
  exists t, g. split; [|done].
  unfold SuffixTree_new, _build_suffix_tree, py_range.
  cbn [size init_tree]. by rewrite Nat2Z.id.
Qed.

Lemma py_index_app_l s s' i :
  0 <= i < Z.of_nat (length s) -> py_index (s ++ s') i = py_index s i.
Proof.
  intros Hi. unfold py_index. rewrite length_app.
  replace ((0 <=? i) && (i <? Z.of_nat (length s + length s'))) with true
    by (symmetry; apply andb_true_iff; split;
        [apply Z.leb_le|apply Z.ltb_lt]; lia).
  replace ((0 <=? i) && (i <? Z.of_nat (length s))) with true
    by (symmetry; apply andb_true_iff; split;
        [apply Z.leb_le|apply Z.ltb_lt]; lia).
  apply lookup_app_l. lia.
Qed.

Lemma py_index_last s c :
  py_index (s ++ [c]) (Z.of_nat (length s)) = Some c.
Proof.
  unfold py_index. rewrite length_app. cbn [length].
  replace ((0 <=? Z.of_nat (length s)) &&
           (Z.of_nat (length s) <? Z.of_nat (length s + 1))) with true
    by (symmetry; apply andb_true_iff; split;
        [apply Z.leb_le|apply Z.ltb_lt]; lia).
  rewrite Nat2Z.id. by rewrite lookup_app_r, Nat.sub_diag.
Qed.

Lemma py_index_elem s i c :
  0 <= i < Z.of_nat (length s) -> py_index s i = Some c -> c ∈ s.
Proof.
  intros Hi. unfold py_index.
  replace ((0 <=? i) && (i <? Z.of_nat (length s))) with true
    by (symmetry; apply andb_true_iff; split;
        [apply Z.leb_le|apply Z.ltb_lt]; lia).
  apply list_elem_of_lookup_2.
Qed.

Lemma fresh_terminator s :
  terminator ∉ s -> fresh_at (s ++ [terminator]) (Z.of_nat (length s)).
Proof.
  intros Hnot i Hi. rewrite py_index_last, py_index_app_l by lia.
  intros E. apply Hnot. by apply (py_index_elem s i).
Qed.

(** [make_explicit] returns on the implicit tree of a text of [n]
    symbols. *)
Lemma explicit_runs fuel t g :
  ready (size t) t g -> 2 * size t + 2 < Z.of_nat fuel ->
  exists t' g', make_explicit fuel t = Ok t' /\
    phase_post (size t) 1 (text t ++ [terminator]) t' g'.
Proof.
  intros Hrd Hfuel.
  destruct (ready_bounds _ _ _ Hrd) as (Hal&Hrem&Halr&_&Hsz).
  unfold make_explicit, _extend_suffix_tree. cbv zeta.
  match goal with |- context [extend_loop fuel (size t) ?t2] =>
    set (t2' := t2) end.
  assert (Hinv : inv (size t) 1 0 t2' (open_ghost t g)).
  { apply (enter_phase (size t) 1 t); try done; subst t2'; cbn; try lia.
    - rewrite length_app. cbn. lia.
    - intros i Hi. unfold chr. cbn. apply py_index_app_l. lia. }
  destruct (loop_runs fuel (size t) 1 0 _ _ Hinv) as (t'&g'&Hloop&Hpost).
  { subst t2'. cbn. lia. }
  by exists t', g'.
Qed.

(** The whole of [st = SuffixTree(s); st.make_explicit()]. *)
Lemma build_explicit_runs fuel s :
  (2 * length s + 3 <= fuel)%nat ->
  exists t0 g0 t g,
    SuffixTree_new fuel s = Ok t0 /\ build_explicit fuel s = Ok t /\
    store_ok t0 g0 /\
    phase_post (Z.of_nat (length s)) 1 (s ++ [terminator]) t g.
Proof.
  intros Hfuel.
  destruct (new_runs fuel s) as (t0&g0&Hnew&Hrd&Htx&Hsz); [lia|].
  rewrite <- Hsz in Hrd.
  destruct (explicit_runs fuel t0 g0 Hrd) as (t&g&Hex&Hpost); [lia|].
  rewrite Hsz, Htx in Hpost.
  exists t0, g0, t, g. split; [done|].
  split; [unfold build_explicit; by rewrite Hnew|].
  split; [apply (rd_store _ _ _ Hrd)|done].
Qed.

(** ** Shape of the trees that are built *)

Lemma store_ok_branching t g : store_ok t g -> branching t.
Proof.
  intros Hso h Hh (n&Hn&Hc). rewrite (so_root _ _ Hso) in Hh.
  destruct (so_node _ _ Hso h n ltac:(lia) Hn) as [_ _ _ _ H5 H6 _ _].
  unfold kids, dict_values. rewrite Hn, length_map.
  destruct (end_ n) as [e|] eqn:He; [by apply (H6 e)|].
  by destruct Hc; apply H5.
Qed.

Lemma filter_length_iff {A} (P Q : A -> Prop)
  `{!forall x, Decision (P x)} `{!forall x, Decision (Q x)} (l : list A) :
  Forall (fun x => P x <-> Q x) l ->
  length (filter P l) = length (filter Q l).
Proof.
  induction 1 as [|x l Hx _ IH]; [done|].
  rewrite !filter_cons.
  destruct (decide (P x)), (decide (Q x)); cbn; try lia; tauto.
Qed.

(** The nodes without children are the nodes with an open edge. *)
Lemma store_ok_leaf_count t g :
  store_ok t g ->
  (exists nr, nodes t !! 0%nat = Some nr /\ children nr <> []) ->
  leaf_count t = opens (nodes t).
Proof.
  intros Hso (nr&Hnr&Hcr). unfold leaf_count, opens.
  apply filter_length_iff, Forall_lookup. intros [|i] n Hn.
  - rewrite Hnr in Hn. injection Hn as <-.
    destruct (so_root_node _ _ Hso) as (nr'&e&Hnr'&He).
    rewrite Hnr in Hnr'. injection Hnr' as <-.
    unfold is_open. rewrite He. split; [done|discriminate].
  - destruct (so_node _ _ Hso (S i) n ltac:(lia) Hn) as [_ _ _ _ H5 H6 _ _].
    unfold is_open. destruct (end_ n) as [e|] eqn:He.
    + split; [|discriminate]. intros Hc. destruct (H6 e eq_refl) as [_ Hl].
      rewrite Hc in Hl. cbn in Hl. lia.
    + split; [done|]. intros _. by apply H5.
Qed.

Lemma py_slice_last s c :
  py_slice (s ++ [c]) (Z.of_nat (length s)) (Z.of_nat (length s) + 1) = [c].
Proof.
  unfold py_slice. rewrite length_app. cbn [length].
  replace (Z.of_nat (length s) <? 0) with false by (symmetry; apply Z.ltb_ge; lia).
  replace (Z.of_nat (length s) + 1 <? 0) with false
    by (symmetry; apply Z.ltb_ge; lia).
  rewrite !Z.min_l by lia.
  replace (Z.to_nat (Z.of_nat (length s) + 1 - Z.of_nat (length s)))
    with 1%nat by lia.
  rewrite Nat2Z.id, drop_app_length. done.
Qed.

(** C6. For every input sequence [s], [SuffixTree(s)] and then
    [make_explicit()] return (with fuel [2 * len(s) + 3] or more for the
    loops), and in the implicit tree as well as in the finalized one
    every node with children other than the root has at least two
    children. In particular, in any state, a node that an insertion
    (lines 66-101) creates and that has children, which is the split node,
    has two of them from that moment on, and no pass through the loop
    body, no phase and no call of [make_explicit] takes a child away from
    a node. *)
Theorem internal_nodes_have_two_children (s : list ascii) (fuel : nat) :
  (2 * length s + 3 <= fuel)%nat ->
  (exists t0 t,
     SuffixTree_new fuel s = Ok t0 /\ build_explicit fuel s = Ok t /\
     branching t0 /\ branching t) /\
  (forall pos t t', extend_insert pos t = Ok (Inserted, t') ->
     forall h, (length (nodes t) <= h)%nat -> is_internal t' h ->
       length (kids t' h) = 2%nat) /\
  (forall pos t e t', extend_body pos t = Ok (e, t') -> children_kept t t') /\
  (forall fuel' pos t t',
     _extend_suffix_tree fuel' pos t = Ok t' -> children_kept t t') /\
  (forall fuel' t t', make_explicit fuel' t = Ok t' -> children_kept t t').
Proof.
  intros Hfuel. split; [|split; [|split; [|split]]].
  - destruct (build_explicit_runs fuel s Hfuel)
      as (t0&g0&t&g&Hnew&Hb&Hso0&Hso&_).
    exists t0, t. repeat (split; [done|]).
    split; [by apply (store_ok_branching t0 g0)
           |by apply (store_ok_branching t g)].
  - apply new_node_has_two_children.
  - apply extend_body_keeps_children.
  - apply phase_keeps_children.
  - apply make_explicit_keeps_children.
Qed.

Lemma internal_nodes_have_two_children_witness :
  (exists t0 t,
     SuffixTree_new 11 (chars "abab") = Ok t0 /\
     build_explicit 11 (chars "abab") = Ok t /\
     branching t0 /\ branching t) /\
  (forall pos t t', extend_insert pos t = Ok (Inserted, t') ->
     forall h, (length (nodes t) <= h)%nat -> is_internal t' h ->
       length (kids t' h) = 2%nat) /\
  (forall pos t e t', extend_body pos t = Ok (e, t') -> children_kept t t') /\
  (forall fuel' pos t t',
     _extend_suffix_tree fuel' pos t = Ok t' -> children_kept t t') /\
  (forall fuel' t t', make_explicit fuel' t = Ok t' -> children_kept t t').
Proof.
  apply (internal_nodes_have_two_children (chars "abab") 11).
  simpl. lia.
Defined.

(** C2, counterexample. For the input "$" the finalized tree has one
    leaf, not two. *)
Lemma leaf_count_with_terminator : ~ leaf_count_claim.
Proof.
  intros H.
  assert (Hb : exists t, build_explicit 5 (chars "$") = Ok t /\
                 leaf_count t = 1%nat).
  { eexists. split; vm_compute; reflexivity. }
  destruct Hb as (t&Hb&Hc).
  specialize (H 5%nat (chars "$") t Hb). rewrite Hc in H. discriminate H.
Qed.

(** C2, as amended. For every input sequence [s] without the terminator
    (the empty one included), [SuffixTree(s)] and then [make_explicit()]
    return (with fuel [2 * len(s) + 3] or more for the loops), and the
    finalized tree has [len(s) + 1] nodes without children; one of them
    is a child of the root whose edge label is the terminator alone. *)
Theorem leaf_count_without_terminator (s : list ascii) (fuel : nat) :
  terminator ∉ s -> (2 * length s + 3 <= fuel)%nat ->
  exists t, build_explicit fuel s = Ok t /\
    leaf_count t = S (length s) /\
    exists h nh, h ∈ kids t (root t) /\ nodes t !! h = Some nh /\
      children nh = [] /\ edge_label t nh = [terminator].
Proof.
  intros Hnot Hfuel.
  destruct (build_explicit_runs fuel s Hfuel)
    as (t0&g0&t&g&Hnew&Hb&Hso0&Hso&Htx&_&Hfin).
  destruct (Hfin eq_refl (fresh_terminator s Hnot))
    as (Hopens&nr&cur&x&nx&Hnr&Hcur&Hget&Hnx&Hs&He).
  exists t. split; [done|]. split.
  - rewrite (store_ok_leaf_count t g Hso); [lia|].
    exists nr. split; [done|]. intros E. by rewrite E in Hget.
  - destruct (so_child _ _ Hso _ _ _ _ Hnr Hget) as (nx'&Hx1&Hnx'&_).
    rewrite Hnx in Hnx'. injection Hnx' as <-.
    destruct (so_node _ _ Hso x nx Hx1 Hnx) as [_ Hr _ _ H5 _ _ _].
    pose proof (so_leaf_end _ _ Hso) as Hle.
    pose proof (so_size _ _ Hso) as Hsz.
    rewrite Htx, length_app in Hsz. cbn [length] in Hsz.
    unfold eend in Hr. rewrite He, Hs in Hr.
    exists x, nx. split; [|split; [done|split; [by apply H5|]]].
    + unfold kids, dict_values. rewrite (so_root _ _ Hso), Hnr.
      apply (list_elem_of_fmap_2 snd _ (cur, x)).
      by apply dict_get_Some_elem.
    + unfold edge_label. rewrite He, Hs, Htx.
      replace (leaf_end t) with (Z.of_nat (length s)) by lia.
      apply py_slice_last.
Qed.

Lemma leaf_count_without_terminator_witness :
  exists t, build_explicit 11 (chars "abab") = Ok t /\
    leaf_count t = 5%nat /\
    exists h nh, h ∈ kids t (root t) /\ nodes t !! h = Some nh /\
      children nh = [] /\ edge_label t nh = [terminator].
Proof.
  apply (leaf_count_without_terminator (chars "abab") 11).
  - list_absent.
  - simpl. lia.
Defined.

(** * Further properties of the code *)

(** ** Slices of the text *)

Lemma seg_length s a d :
  0 <= a -> 0 <= d -> a + d <= Z.of_nat (length s) ->
  Z.of_nat (length (seg s a d)) = d.
Proof.
  intros. unfold seg. rewrite length_take, length_drop. lia.
Qed.

Lemma seg_app s a d1 d2 :
  0 <= a -> 0 <= d1 -> 0 <= d2 ->
  seg s a d1 ++ seg s (a + d1) d2 = seg s a (d1 + d2).
Proof.
  intros. unfold seg.
  replace (Z.to_nat (a + d1)) with (Z.to_nat a + Z.to_nat d1)%nat by lia.
  rewrite <- drop_drop, take_take_drop. f_equal. lia.
Qed.

Lemma seg_substring s a d :
  0 <= a -> 0 <= d -> a + d <= Z.of_nat (length s) ->
  substring (seg s a d) s.
Proof.
  intros. exists (take (Z.to_nat a) s), (drop (Z.to_nat a + Z.to_nat d) s).
  unfold seg. rewrite <- drop_drop, take_drop. by rewrite take_drop.
Qed.

Lemma substring_seg w s :
  substring w s ->
  exists a, 0 <= a /\ a + Z.of_nat (length w) <= Z.of_nat (length s) /\
    w = seg s a (Z.of_nat (length w)).
Proof.
  intros (pre&post&->). exists (Z.of_nat (length pre)).
  split; [lia|]. split; [rewrite !length_app; lia|].
  unfold seg. rewrite !Nat2Z.id, drop_app_length. by rewrite take_app_length.
Qed.

Lemma seg_prefix s a d d' :
  0 <= a -> 0 <= d <= d' ->
  exists w', seg s a d' = seg s a d ++ w'.
Proof.
  intros Ha Hd. exists (seg s (a + d) (d' - d)).
  rewrite seg_app by lia. f_equal. lia.
Qed.

Lemma chr_lookup t i :
  0 <= i < Z.of_nat (length (text t)) -> chr t i = text t !! Z.to_nat i.
Proof.
  intros Hi. unfold chr, py_index.
  replace ((0 <=? i) && (i <? Z.of_nat (length (text t)))) with true; [done|].
  symmetry; apply andb_true_iff; split; [apply Z.leb_le|apply Z.ltb_lt]; lia.
Qed.

Lemma seg_eqs t a b d :
  eqs t a b d -> 0 <= a -> 0 <= b ->
  a + d <= Z.of_nat (length (text t)) ->
  b + d <= Z.of_nat (length (text t)) ->
  seg (text t) a d = seg (text t) b d.
Proof.
  intros He Ha Hb Had Hbd. unfold seg. apply list_eq. intros i.
  destruct (decide (i < Z.to_nat d)%nat) as [Hi|Hi].
  - rewrite !lookup_take_lt, !lookup_drop by done.
    specialize (He (Z.of_nat i) ltac:(lia)).
    rewrite !chr_lookup in He by lia.
    replace (Z.to_nat a + i)%nat with (Z.to_nat (a + Z.of_nat i)) by lia.
    replace (Z.to_nat b + i)%nat with (Z.to_nat (b + Z.of_nat i)) by lia.
    done.
  - by rewrite !lookup_take_ge by lia.
Qed.

Lemma eqs_seg t a b d :
  seg (text t) a d = seg (text t) b d -> 0 <= a -> 0 <= b ->
  a + d <= Z.of_nat (length (text t)) ->
  b + d <= Z.of_nat (length (text t)) ->
  eqs t a b d.
Proof.
  intros He Ha Hb Had Hbd i Hi. rewrite !chr_lookup by lia.
  assert (seg (text t) a d !! Z.to_nat i = seg (text t) b d !! Z.to_nat i)
    as Hl by (by rewrite He).
  unfold seg in Hl. rewrite !lookup_take_lt, !lookup_drop in Hl by lia.
  replace (Z.to_nat (a + i)) with (Z.to_nat a + Z.to_nat i)%nat by lia.
  replace (Z.to_nat (b + i)) with (Z.to_nat b + Z.to_nat i)%nat by lia.
  done.
Qed.

Lemma py_slice_seg s a b :
  0 <= a -> a <= b -> b <= Z.of_nat (length s) ->
  py_slice s a b = seg s a (b - a).
Proof.
  intros Ha Hab Hb. unfold py_slice, seg.
  replace (a <? 0) with false by (symmetry; apply Z.ltb_ge; lia).
  replace (b <? 0) with false by (symmetry; apply Z.ltb_ge; lia).
  by rewrite !Z.min_l by lia.
Qed.

(** ** The strings of the nodes *)

Lemma good_range t g x nx :
  store_ok t g -> (1 <= x)%nat -> nodes t !! x = Some nx ->
  gjk g x = false ->
  0 <= ghd g x /\ ghd g x + gdep g x = eend t nx + 1 /\
  eend t nx <= leaf_end t /\ 0 <= start nx <= eend t nx /\
  ghd g x = start nx - gdep g (gpar g x) /\ 0 <= gdep g (gpar g x) /\
  gdep g x = gdep g (gpar g x) + edge_length t nx /\
  eqs t (ghd g x) (ghd g (gpar g x)) (gdep g (gpar g x)).
Proof.
  intros Hso Hx Hnx Hj.
  destruct (so_node _ _ Hso x nx Hx Hnx) as [_ H2 H3 H4 _ _ _ H8].
  destruct (H8 Hj) as (Hh&Hh0&He).
  pose proof H4 as H4'. rewrite edge_length_eend in H4'.
  repeat split; try done; lia.
Qed.

Lemma edge_label_seg t g x nx :
  store_ok t g -> (1 <= x)%nat -> nodes t !! x = Some nx ->
  edge_label t nx = seg (text t) (start nx) (edge_length t nx).
Proof.
  intros Hso Hx Hnx.
  destruct (so_node _ _ Hso x nx Hx Hnx) as [_ H2 _ _ _ _ _ _].
  pose proof (so_leaf_end _ _ Hso). pose proof (so_size _ _ Hso).
  unfold edge_label. rewrite edge_length_eend.
  change (match end_ nx with EndLeaf => leaf_end t | EndInt e => e end)
    with (eend t nx).
  rewrite py_slice_seg by lia. f_equal. lia.
Qed.

Section Paths.
Context (t : SuffixTree) (g : ghost).
Context (Hso : store_ok t g) (Hts : tree_shaped t)
        (Hgood : forall x, gjk g x = false).

Lemma child_parent p c :
  c ∈ kids t p ->
  exists nc, (1 <= c)%nat /\ nodes t !! c = Some nc /\ gpar g c = p.
Proof using All.
  intros Hc.
  assert (Hne : c <> 0%nat).
  { intros ->. apply (ts_root_orphan _ Hts p). by rewrite (so_root _ _ Hso). }
  pose proof (ts_closed _ Hts _ _ Hc) as Hlt.
  destruct (lookup_lt_is_Some_2 _ _ Hlt) as (nc&Hnc).
  exists nc. split; [lia|]. split; [done|].
  destruct (so_node _ _ Hso c nc ltac:(lia) Hnc) as [(nu&key&Hu&_&Hget) _ _ _ _ _ _ _].
  apply (ts_one_parent _ Hts _ _ c); [|done].
  unfold kids. rewrite Hu. by apply (dict_get_elem key).
Qed.

(** The string read down to a node is the slice of the text that the
    invariant assigns to it. *)
Lemma path_string h w :
  path_label t 0%nat h w ->
  (h = 0%nat /\ w = []) \/
  (gnode t g h /\ w = seg (text t) (ghd g h) (gdep g h)).
Proof using All.
  pose proof (so_leaf_end _ _ Hso) as Hle. pose proof (so_size _ _ Hso) as Hsz.
  induction 1 as [|p c cn w Hp IH Hc Hcn]; [by left|right].
  destruct (child_parent p c Hc) as (nc&Hc1&Hnc&Hpar).
  rewrite Hcn in Hnc. injection Hnc as <-.
  split; [by exists cn|].
  destruct (good_range t g c cn Hso Hc1 Hcn (Hgood c))
    as (Hh0&Hhd&Hee&Hst&Hh&Hpd&Hdep&Heq).
  rewrite Hpar in *.
  rewrite (edge_label_seg t g c cn) by done.
  pose proof Hdep as Hdep'. rewrite edge_length_eend in Hdep'.
  replace (start cn) with (ghd g c + gdep g p) by lia.
  rewrite Hdep.
  rewrite <- seg_app by (rewrite ?edge_length_eend; lia). f_equal.
  destruct IH as [[-> ->]|[(np&Hp1&Hnp&_) ->]].
  - rewrite (so_dep0 _ _ Hso). unfold seg. by rewrite take_0.
  - destruct (good_range t g p np Hso Hp1 Hnp (Hgood p))
      as (Hph0&Hphd&Hpee&_).
    symmetry. apply seg_eqs; try done; lia.
Qed.

(** Every node is reached from the root. *)
Lemma node_path n : forall h,
  gnode t g h -> gdep g h <= Z.of_nat n ->
  path_label t 0%nat h (seg (text t) (ghd g h) (gdep g h)).
Proof using All.
  induction n as [|n IH]; intros h Hg Hd.
  - destruct Hg as (nh&Hh1&Hnh&_).
    pose proof (node_dep_pos t g Hso _ _ Hh1 Hnh). lia.
  - pose proof Hg as (nh&Hh1&Hnh&_).
    pose proof (node_dep_pos t g Hso _ _ Hh1 Hnh) as Hdp.
    destruct (so_node _ _ Hso h nh Hh1 Hnh)
      as [(nu&key&Hu&_&Hget) _ _ _ _ _ _ _].
    assert (Hkid : h ∈ kids t (gpar g h)).
    { unfold kids. rewrite Hu. by apply (dict_get_elem key). }
    assert (Hpp : path_label t 0%nat (gpar g h)
                    (seg (text t) (ghd g (gpar g h)) (gdep g (gpar g h)))).
    { destruct (parent_good t g Hso h nh Hh1 Hnh) as [H0|Hgp].
      - rewrite H0, (so_dep0 _ _ Hso). unfold seg. rewrite take_0.
        apply label_here.
      - apply IH; [done|lia]. }
    pose proof (label_step _ _ _ _ _ _ Hpp Hkid Hnh) as Hstep.
    destruct (path_string _ _ Hstep) as [[E _]|[_ E]]; [lia|].
    by rewrite <- E.
Qed.

End Paths.

(** ** The implicit suffix tree that [SuffixTree(s)] builds *)

Lemma new_tree_shaped fuel s t :
  SuffixTree_new fuel s = Ok t -> tree_shaped t.
Proof.
  unfold SuffixTree_new, _build_suffix_tree.
  apply (inv_build_from tree_shaped tree_shaped_store tree_shaped_link
           tree_shaped_add_leaf tree_shaped_split_edge), tree_shaped_init.
Qed.

Lemma new_implicit fuel s :
  (2 * length s < fuel)%nat ->
  exists t g, SuffixTree_new fuel s = Ok t /\
    ready (Z.of_nat (length s)) t g /\ tree_shaped t /\
    text t = s /\ size t = Z.of_nat (length s) /\ root t = 0%nat.
Proof.
  intros Hfuel.
  destruct (new_runs fuel s Hfuel) as (t&g&Hnew&Hrd&Htx&Hsz).
  exists t, g. repeat (split; [done|]).
  split; [by apply (new_tree_shaped fuel s)|].
  repeat (split; [done|]). apply (so_root _ _ (rd_store _ _ _ Hrd)).
Qed.



(** X3: The strings that can be read from the root of the implicit tree,
    each possibly ending inside an edge, are exactly the substrings of
    the text. *)
Theorem implicit_tree_substrings (s : list ascii) (fuel : nat) :
  (2 * length s < fuel)%nat ->
  exists t, SuffixTree_new fuel s = Ok t /\
    forall w, substring w s <->
      exists h w', path_label t (root t) h (w ++ w').
Proof.
  intros Hfuel.
  destruct (new_implicit fuel s Hfuel) as (t&g&Hnew&Hrd&Hts&Htx&Hsz&Hroot).
  pose proof (rd_store _ _ _ Hrd) as Hso.
  pose proof (rd_pos _ _ _ Hrd) as Hpos.
  exists t. split; [done|]. rewrite Hroot. intros w. split.
  - intros Hw. destruct (substring_seg _ _ Hw) as (a&Ha&Hal&Heq).
    destruct (decide (w = [])) as [->|Hne].
    { exists 0%nat, []. apply label_here. }
    assert (Hk : 1 <= Z.of_nat (length w)) by (destruct w; [done|cbn; lia]).
    destruct (rd_complete _ _ _ Hrd a (Z.of_nat (length w)) Ha Hk Hal)
      as (c&[Hg Hr]&He).
    pose proof Hg as (nc&Hc1&Hnc&_).
    destruct (good_range t g c nc Hso Hc1 Hnc (rd_nojunk _ _ _ Hrd c))
      as (Hh0&Hhd&Hee&_).
    destruct (seg_prefix (text t) (ghd g c) (Z.of_nat (length w)) (gdep g c)
                Hh0 ltac:(lia)) as (w'&Hw').
    exists c, w'.
    rewrite Heq, <- Htx, <- (seg_eqs t (ghd g c) a) by (rewrite ?Htx; lia || done).
    rewrite <- Hw'.
    apply (node_path t g Hso Hts (rd_nojunk _ _ _ Hrd) (Z.to_nat (gdep g c)));
      [done|lia].
  - intros (h&w'&Hp).
    assert (Hsub : substring (w ++ w') s).
    { destruct (path_string t g Hso Hts (rd_nojunk _ _ _ Hrd) _ _ Hp)
        as [[_ ->]|[(nh&Hh1&Hnh&_) ->]].
      - by exists [], s.
      - destruct (good_range t g h nh Hso Hh1 Hnh (rd_nojunk _ _ _ Hrd h))
          as (Hh0&Hhd&Hee&_).
        pose proof (node_dep_pos t g Hso _ _ Hh1 Hnh).
        rewrite Htx. apply seg_substring; lia. }
    destruct Hsub as (pre&post&->). exists pre, (w' ++ post).
    by rewrite <- !app_assoc.
Qed.

Lemma implicit_tree_substrings_witness :
  exists t, SuffixTree_new 13 (chars "banana") = Ok t /\
    forall w, substring w (chars "banana") <->
      exists h w', path_label t (root t) h (w ++ w').
Proof.
  apply (implicit_tree_substrings (chars "banana") 13). simpl. lia.
Defined.





(** ** The construction returns *)

Lemma built_trees fuel s :
  (2 * length s + 3 <= fuel)%nat ->
  exists t0 g0 t g,
    SuffixTree_new fuel s = Ok t0 /\ make_explicit fuel t0 = Ok t /\
    build_explicit fuel s = Ok t /\
    ready (Z.of_nat (length s)) t0 g0 /\ text t0 = s /\
    size t0 = Z.of_nat (length s) /\
    phase_post (Z.of_nat (length s)) 1 (s ++ [terminator]) t g /\
    size t = Z.of_nat (length s) + 1 /\ leaf_end t = Z.of_nat (length s) /\
    tree_shaped t0 /\ tree_shaped t.
Proof.
  intros Hfuel.
  destruct (new_implicit fuel s) as (t0&g0&Hnew&Hrd&Hts0&Htx&Hsz&_); [lia|].
  pose proof Hrd as Hrd'. rewrite <- Hsz in Hrd'.
  destruct (explicit_runs fuel t0 g0 Hrd') as (t&g&Hex&Hpost); [lia|].
  rewrite Hsz, Htx in Hpost.
  assert (Hb : build_explicit fuel s = Ok t).
  { unfold build_explicit. by rewrite Hnew. }
  exists t0, g0, t, g. repeat (split; [done|]).
  destruct (make_explicit_appends_terminator _ _ _ Hex) as [_ Hsz'].
  split; [lia|]. split.
  - revert Hex. unfold make_explicit. intros Hex.
    apply phase_writes_leaf_end_once in Hex as [_ ->]. done.
  - split; [done|]. by apply (build_explicit_tree_shaped fuel s).
Qed.

(** X1: [SuffixTree(s)] returns for every text: the loop of each phase ends
    (within [2 * len(s)] passes) and no index is out of range. The text
    and its length are as given, and the leaf end is the last position. *)
Theorem construction_returns (s : list ascii) (fuel : nat) :
  (2 * length s < fuel)%nat ->
  exists t, SuffixTree_new fuel s = Ok t /\
    text t = s /\ size t = Z.of_nat (length s) /\
    leaf_end t = Z.of_nat (length s) - 1 /\
    0 <= active_length t <= remaining_suffix_count t /\
    remaining_suffix_count t <= Z.of_nat (length s) /\
    is_Some (nodes t !! active_node t).
Proof.
  intros Hfuel.
  destruct (new_implicit fuel s Hfuel) as (t&g&Hnew&Hrd&Hts&Htx&Hsz&Hroot).
  destruct (ready_bounds _ _ _ Hrd) as (Hal&Hrem&Halr&_).
  exists t. repeat (split; [done|]).
  split; [apply (rd_pos _ _ _ Hrd)|]. split; [lia|]. split; [lia|].
  destruct (rd_an _ _ _ Hrd) as [->|[(na&_&Hna&_) _]]; [|by rewrite Hna].
  destruct (so_root_node _ _ (rd_store _ _ _ Hrd)) as (nr&?&Hnr&_).
  by rewrite Hnr.
Qed.

Lemma construction_returns_witness :
  exists t, SuffixTree_new 13 (chars "banana") = Ok t /\
    text t = chars "banana" /\
    size t = Z.of_nat (length (chars "banana")) /\
    leaf_end t = Z.of_nat (length (chars "banana")) - 1 /\
    0 <= active_length t <= remaining_suffix_count t /\
    remaining_suffix_count t <= Z.of_nat (length (chars "banana")) /\
    is_Some (nodes t !! active_node t).
Proof.
  apply (construction_returns (chars "banana") 13). simpl. lia.
Defined.

(** X2: [make_explicit] returns on the tree of every text, also of one that
    contains the terminator: it appends the terminator, and the leaf end
    is the position of the appended symbol. *)
Theorem finalization_returns (s : list ascii) (fuel : nat) :
  (2 * length s + 3 <= fuel)%nat ->
  exists t0 t, SuffixTree_new fuel s = Ok t0 /\ make_explicit fuel t0 = Ok t /\
    text t = s ++ [terminator] /\ size t = Z.of_nat (length s) + 1 /\
    leaf_end t = Z.of_nat (length s) /\ root t = root t0.
Proof.
  intros Hfuel.
  destruct (built_trees fuel s Hfuel)
    as (t0&g0&t&g&Hnew&Hex&_&Hrd&_&_&(Hso&Htx&_)&Hsz&Hle&_).
  exists t0, t. repeat (split; [done|]).
  by rewrite (so_root _ _ Hso), (so_root _ _ (rd_store _ _ _ Hrd)).
Qed.

Lemma finalization_returns_witness :
  exists t0 t, SuffixTree_new 15 (chars "banana") = Ok t0 /\
    make_explicit 15 t0 = Ok t /\
    text t = chars "banana" ++ [terminator] /\
    size t = Z.of_nat (length (chars "banana")) + 1 /\
    leaf_end t = Z.of_nat (length (chars "banana")) /\ root t = root t0.
Proof.
  apply (finalization_returns (chars "banana") 15). simpl. lia.
Defined.

(** ** Shape of the object store *)

Lemma store_ok_attached t g : store_ok t g -> attached t.
Proof.
  intros Hso h Hh.
  destruct (lookup_lt_is_Some_2 (nodes t) h ltac:(lia)) as (nh&Hnh).
  destruct (so_node _ _ Hso h nh ltac:(lia) Hnh)
    as [(nu&key&Hu&_&Hget) _ _ _ _ _ _ _].
  exists (gpar g h). unfold kids. rewrite Hu. by apply (dict_get_elem key).
Qed.

(** X7: The objects of the implicit and of the finalized tree form a tree:
    every node but the root is the child of exactly one node, listed
    once, and child edges do not cycle. *)
Theorem built_trees_are_trees (s : list ascii) (fuel : nat) :
  (2 * length s + 3 <= fuel)%nat ->
  exists t0 t, SuffixTree_new fuel s = Ok t0 /\ build_explicit fuel s = Ok t /\
    tree_shaped t0 /\ attached t0 /\ tree_shaped t /\ attached t.
Proof.
  intros Hfuel.
  destruct (built_trees fuel s Hfuel)
    as (t0&g0&t&g&Hnew&_&Hb&Hrd&_&_&(Hso&_)&_&_&Hts0&Hts).
  exists t0, t. repeat (split; [done|]).
  split; [by apply (store_ok_attached t0 g0), (rd_store _ _ _ Hrd)|].
  split; [done|]. by apply (store_ok_attached t g).
Qed.

Lemma built_trees_are_trees_witness :
  exists t0 t, SuffixTree_new 15 (chars "banana") = Ok t0 /\
    build_explicit 15 (chars "banana") = Ok t /\
    tree_shaped t0 /\ attached t0 /\ tree_shaped t /\ attached t.
Proof.
  apply (built_trees_are_trees (chars "banana") 15). simpl. lia.
Defined.

(** X8: Construction and finalization assign no suffix index: every node
    still has [index = -1]. *)
Theorem built_trees_are_unindexed (s : list ascii) (fuel : nat) :
  (2 * length s + 3 <= fuel)%nat ->
  exists t0 t, SuffixTree_new fuel s = Ok t0 /\ build_explicit fuel s = Ok t /\
    unindexed t0 /\ unindexed t.
Proof.
  intros Hfuel.
  destruct (built_trees fuel s Hfuel) as (t0&g0&t&g&Hnew&_&Hb&_).
  exists t0, t. repeat (split; [done|]).
  split; [|by apply (build_explicit_unindexed fuel s)].
  revert Hnew. unfold SuffixTree_new, _build_suffix_tree.
  apply (inv_build_from unindexed).
  - intros t1 t2 Hn _. unfold unindexed. by rewrite Hn.
  - apply unindexed_link.
  - intros. by apply unindexed_add_leaf.
  - intros. by eapply unindexed_split_edge.
  - intros [|h] n; cbn; [by intros [= <-]|done].
Qed.

Lemma built_trees_are_unindexed_witness :
  exists t0 t, SuffixTree_new 15 (chars "banana") = Ok t0 /\
    build_explicit 15 (chars "banana") = Ok t /\
    unindexed t0 /\ unindexed t.
Proof.
  apply (built_trees_are_unindexed (chars "banana") 15). simpl. lia.
Defined.

(** ** Edges *)

Lemma store_ok_edges_in_text t g :
  store_ok t g -> leaf_end t = size t - 1 -> edges_in_text t.
Proof.
  intros Hso Hle. split.
  - intros h n Hh Hn. rewrite (so_root _ _ Hso) in Hh.
    destruct (so_node _ _ Hso h n ltac:(lia) Hn) as [_ H2 _ _ H5 H6 _ _].
    rewrite edge_length_eend. unfold eend in *.
    destruct (end_ n) as [e|] eqn:He.
    + destruct (H6 e eq_refl) as [Hlt Hlen].
      repeat split; try lia.
      intros Hc. rewrite Hc in Hlen. cbn in Hlen. lia.
    + repeat split; try lia. intros Hc. by destruct Hc; apply H5.
  - intros p np k c Hp Hget.
    destruct (so_child _ _ Hso p np k c Hp Hget) as (nc&_&Hnc&_&Hk).
    by exists nc.
Qed.

(** X9: In the implicit and in the finalized tree every edge is a non-empty
    piece of the text, the edges of leaves run up to the last symbol and
    the others end before it, and [children[k]] starts with [k]. *)
Theorem built_trees_edges_in_text (s : list ascii) (fuel : nat) :
  (2 * length s + 3 <= fuel)%nat ->
  exists t0 t, SuffixTree_new fuel s = Ok t0 /\ build_explicit fuel s = Ok t /\
    edges_in_text t0 /\ edges_in_text t.
Proof.
  intros Hfuel.
  destruct (built_trees fuel s Hfuel)
    as (t0&g0&t&g&Hnew&_&Hb&Hrd&_&Hsz0&(Hso&_)&Hsz&Hle&_).
  exists t0, t. repeat (split; [done|]). split.
  - apply (store_ok_edges_in_text t0 g0); [apply (rd_store _ _ _ Hrd)|].
    rewrite (rd_pos _ _ _ Hrd). lia.
  - apply (store_ok_edges_in_text t g); [done|lia].
Qed.

Lemma built_trees_edges_in_text_witness :
  exists t0 t, SuffixTree_new 15 (chars "banana") = Ok t0 /\
    build_explicit 15 (chars "banana") = Ok t /\
    edges_in_text t0 /\ edges_in_text t.
Proof.
  apply (built_trees_edges_in_text (chars "banana") 15). simpl. lia.
Defined.

(** ** Number of nodes *)

Section NodeCount.

Let few (t : SuffixTree) : Prop :=
  (length (nodes t) <= 2 * opens (nodes t) + 1)%nat.

Lemma few_store t t' : nodes t' = nodes t -> root t' = root t -> few t -> few t'.
Proof using Type. unfold few. by intros -> _. Qed.

Lemma few_link target t : few t -> few (link_last_new_node target t).
Proof using Type.
  unfold few. by rewrite length_link_last_new_node, opens_link.
Qed.

Lemma few_add_leaf pos cur t an :
  few t -> nodes t !! active_node t = Some an ->
  dict_get cur (children an) = None -> few (add_leaf pos cur t).
Proof using Type.
  unfold few. rewrite length_add_leaf, opens_add_leaf. lia.
Qed.

Lemma few_split_edge pos cur c2 next nn an t t' :
  few t -> nodes t !! active_node t = Some an ->
  dict_get cur (children an) = Some next -> nodes t !! next = Some nn ->
  split_edge pos cur c2 next nn t = Ok t' -> few t'.
Proof using Type.
  unfold few. intros H _ _ Hnn Hsp.
  apply split_edge_spec in Hsp as (c3&_&->); [|done].
  cbn [nodes set_nodes set_last_new_node].
  rewrite length_split_nodes, opens_split. lia.
Qed.

(** There are at most twice as many nodes as open edges, and one more. *)
Lemma new_few fuel s t :
  SuffixTree_new fuel s = Ok t ->
  (length (nodes t) <= 2 * opens (nodes t) + 1)%nat.
Proof using Type.
  unfold SuffixTree_new, _build_suffix_tree.
  apply (inv_build_from few few_store few_link few_add_leaf few_split_edge).
  unfold few. cbn. lia.
Qed.

Lemma explicit_few fuel s t :
  build_explicit fuel s = Ok t ->
  (length (nodes t) <= 2 * opens (nodes t) + 1)%nat.
Proof using Type.
  apply (inv_build_explicit few few_store few_link few_add_leaf
           few_split_edge).
  unfold few. cbn. lia.
Qed.

End NodeCount.

(** X10: The implicit tree of a text of [n] symbols has at most [2n + 1]
    node objects; the finalized tree of a text without the terminator
    has at most [2n + 3]. *)
Theorem node_count_is_linear (s : list ascii) (fuel : nat) :
  (2 * length s + 3 <= fuel)%nat ->
  exists t0 t, SuffixTree_new fuel s = Ok t0 /\ build_explicit fuel s = Ok t /\
    (length (nodes t0) <= 2 * length s + 1)%nat /\
    (terminator ∉ s -> (length (nodes t) <= 2 * length s + 3)%nat).
Proof.
  intros Hfuel.
  destruct (built_trees fuel s Hfuel)
    as (t0&g0&t&g&Hnew&_&Hb&Hrd&_&_&(_&_&_&Hfin)&_).
  exists t0, t. repeat (split; [done|]). split.
  - pose proof (new_few _ _ _ Hnew). pose proof (rd_count _ _ _ Hrd).
    pose proof (rd_pd _ _ _ Hrd). destruct (ready_bounds _ _ _ Hrd) as (_&?&_).
    lia.
  - intros Hnot. pose proof (explicit_few _ _ _ Hb).
    destruct (Hfin eq_refl (fresh_terminator s Hnot)) as [Hop _]. lia.
Qed.

Lemma node_count_is_linear_witness :
  exists t0 t, SuffixTree_new 15 (chars "banana") = Ok t0 /\
    build_explicit 15 (chars "banana") = Ok t /\
    (length (nodes t0) <= 2 * length (chars "banana") + 1)%nat /\
    (terminator ∉ chars "banana" ->
     (length (nodes t) <= 2 * length (chars "banana") + 3)%nat).
Proof.
  apply (node_count_is_linear (chars "banana") 15). simpl. lia.
Defined.

(** ** Splitting an edge *)

Lemma py_slice_app s a b c :
  0 <= a -> a <= b -> b <= c ->
  py_slice s a b ++ py_slice s b c = py_slice s a c.
Proof.
  intros Ha Hab Hbc. unfold py_slice.
  replace (a <? 0) with false by (symmetry; apply Z.ltb_ge; lia).
  replace (b <? 0) with false by (symmetry; apply Z.ltb_ge; lia).
  replace (c <? 0) with false by (symmetry; apply Z.ltb_ge; lia).
  set (n := Z.of_nat (length s)).
  pose proof (seg_app s (Z.min a n) (Z.min b n - Z.min a n)
                (Z.min c n - Z.min b n)) as H.
  unfold seg in H.
  replace (Z.min a n + (Z.min b n - Z.min a n)) with (Z.min b n) in H by lia.
  rewrite H by lia. do 2 f_equal. lia.
Qed.

Lemma alter_keeps_edge (f : SuffixTreeNode -> SuffixTreeNode) (i : nat)
  (l : list SuffixTreeNode) (x : nat) n :
  (forall m, start (f m) = start m /\ end_ (f m) = end_ m) ->
  l !! x = Some n ->
  exists n', alter f i l !! x = Some n' /\
    start n' = start n /\ end_ n' = end_ n.
Proof.
  intros Hf Hx. rewrite list_lookup_alter. case_decide; [subst|by exists n].
  rewrite Hx. cbn. eexists. split; [done|]. apply Hf.
Qed.

Lemma relink_keeps_edge (o : option nat) l (ns : list SuffixTreeNode)
  (x : nat) n :
  ns !! x = Some n ->
  exists n', match o with
             | Some h => alter (node_set_suffix_link l) h ns
             | None => ns
             end !! x = Some n' /\
    start n' = start n /\ end_ n' = end_ n.
Proof.
  intros Hx. destruct o; [by apply alter_keeps_edge|by exists n].
Qed.

(** X11: The edge of the split node and what is left of the edge of
    [next_node] (lines 92-97) are the two parts of the old edge: their
    labels concatenate to the old label, and the upper part has
    [active_length] symbols. *)
Theorem split_keeps_the_label pos cur c2 next nn t t' :
  nodes t !! next = Some nn ->
  0 <= start nn -> 0 <= active_length t < edge_length t nn ->
  split_edge pos cur c2 next nn t = Ok t' ->
  exists ns nn',
    nodes t' !! length (nodes t) = Some ns /\ nodes t' !! next = Some nn' /\
    edge_label t' ns ++ edge_label t' nn' = edge_label t nn /\
    edge_length t' ns = active_length t /\
    edge_length t' nn' = edge_length t nn - active_length t.
Proof.
  intros Hnn Hst Hal Hsp.
  apply split_edge_spec in Hsp as (c3&_&->); [|done].
  pose proof (lookup_lt_Some _ _ _ Hnn) as Hlt.
  cbn [nodes set_nodes set_last_new_node]. unfold split_nodes. cbv zeta.
  set (N := length (nodes t)).
  set (ns0 := new_node (start nn) (EndInt (start nn + active_length t - 1))).
  set (l1 := alter (node_set_child cur N) (active_node t) (nodes t ++ [ns0])).
  assert (Hl1 : length l1 = S N).
  { subst l1. rewrite length_alter, length_app. cbn. lia. }
  (* the split node *)
  assert (HS : exists ns, l1 !! N = Some ns /\ start ns = start nn /\
            end_ ns = EndInt (start nn + active_length t - 1)).
  { destruct (alter_keeps_edge (node_set_child cur N) (active_node t)
                (nodes t ++ [ns0]) N ns0) as (n'&?&?&?); [done| |by exists n'].
    rewrite lookup_app_r by lia. by rewrite Nat.sub_diag. }
  destruct HS as (ns1&Hns1&Hs1&He1).
  assert (HN : exists nn1, l1 !! next = Some nn1 /\ start nn1 = start nn /\
            end_ nn1 = end_ nn).
  { apply alter_keeps_edge; [done|]. by rewrite lookup_app_l. }
  destruct HN as (nn1&Hnn1&Hs2&He2).
  set (l2 := alter (node_set_child c2 (S N)) N (l1 ++ [new_node pos EndLeaf])).
  destruct (alter_keeps_edge (node_set_child c2 (S N)) N
              (l1 ++ [new_node pos EndLeaf]) N ns1)
    as (ns2&Hns2&Hs3&He3); [done|by rewrite lookup_app_l by lia|].
  destruct (alter_keeps_edge (node_set_child c2 (S N)) N
              (l1 ++ [new_node pos EndLeaf]) next nn1)
    as (nn2&Hnn2&Hs4&He4); [done|by rewrite lookup_app_l by lia|].
  fold l2 in Hns2, Hnn2.
  set (l3 := alter (fun n => node_set_start (start n + active_length t) n)
               next l2).
  assert (Hns3 : l3 !! N = Some ns2).
  { subst l3. rewrite list_lookup_alter_ne by lia. done. }
  assert (Hnn3 : l3 !! next =
            Some (node_set_start (start nn2 + active_length t) nn2)).
  { subst l3. by rewrite list_lookup_alter_eq, Hnn2. }
  destruct (alter_keeps_edge (node_set_child c3 next) N l3 N ns2)
    as (ns4&Hns4&Hs5&He5); [done|done|].
  destruct (alter_keeps_edge (node_set_child c3 next) N l3 next _ ltac:(done)
              Hnn3) as (nn4&Hnn4&Hs6&He6).
  destruct (relink_keeps_edge (last_new_node t) (Some N) _ N ns4 Hns4)
    as (ns&Hns&Hs7&He7).
  destruct (relink_keeps_edge (last_new_node t) (Some N) _ next nn4 Hnn4)
    as (nn'&Hnn'&Hs8&He8).
  exists ns, nn'. split; [exact Hns|]. split; [exact Hnn'|].
  cbn [start end_ node_set_start] in Hs6, He6.
  assert (Hst1 : start ns = start nn) by congruence.
  assert (Hen1 : end_ ns = EndInt (start nn + active_length t - 1))
    by congruence.
  assert (Hst2 : start nn' = start nn + active_length t) by congruence.
  assert (Hen2 : end_ nn' = end_ nn) by congruence.
  unfold edge_label, edge_length in *.
  cbn [text leaf_end set_nodes set_last_new_node].
  rewrite Hst1, Hen1, Hst2, Hen2.
  replace (start nn + active_length t - 1 + 1)
    with (start nn + active_length t) by lia.
  destruct (end_ nn) as [e|];
    (split; [apply py_slice_app; [done|lia|lia]|split; lia]).
Qed.

Lemma split_keeps_the_label_witness :
  exists nn t',
    nodes abab_final_phase !! 1%nat = Some nn /\
    split_edge 4 "a" "$" 1 nn abab_final_phase = Ok t' /\
    exists ns nn',
      nodes t' !! length (nodes abab_final_phase) = Some ns /\
      nodes t' !! 1%nat = Some nn' /\
      edge_label t' ns ++ edge_label t' nn' = edge_label abab_final_phase nn /\
      edge_length t' ns = active_length abab_final_phase /\
      edge_length t' nn' =
        edge_length abab_final_phase nn - active_length abab_final_phase.
Proof.
  eexists _, _. split; [vm_compute; reflexivity|].
  split; [vm_compute; reflexivity|].
  apply (split_keeps_the_label 4 "a" "$" 1 _ abab_final_phase).
  - vm_compute. reflexivity.
  - vm_compute. discriminate.
  - vm_compute. split; [discriminate|reflexivity].
  - vm_compute. reflexivity.
Defined.

(** ** The state in which [make_explicit] ends *)

Lemma last_pass_result pos t g :
  last_pass pos t g ->
  extend_body pos t = Ok (Break, stop_phase (set_active_edge pos t)).
Proof.
  intros [Hso Hpos Han Hal Hrem Hcount (nr&cur&x&nx&Hnr&Hcur&Hget&Hnx&Hs&He)].
  unfold extend_body, extend_insert. cbv zeta.
  rewrite Hal. cbn [Z.eqb].
  set (t0 := set_active_edge pos t).
  change (py_index (text t0) (active_edge t0)) with (chr t pos).
  change (nodes t0 !! active_node t0) with (nodes t !! active_node t).
  rewrite Hcur, Han, Hnr, Hget.
  change (nodes t0 !! x) with (nodes t !! x). rewrite Hnx.
  assert (Hlen : edge_length t0 nx = 1).
  { unfold edge_length. rewrite He, Hs. change (leaf_end t0) with (leaf_end t).
    lia. }
  rewrite Hlen.
  change (active_length t0) with (active_length t). rewrite Hal.
  cbn [Z.geb Z.compare].
  change (py_index (text t0) (start nx + 0)) with (chr t (start nx + 0)).
  change (py_index (text t0) pos) with (chr t pos).
  by rewrite Hs, Z.add_0_r, Hcur, Ascii.eqb_refl.
Qed.

Lemma final_loop_end fuel : forall pos sh t g t',
  inv pos 1 sh t g -> fresh_at (text t) pos ->
  extend_loop fuel pos t = Ok t' ->
  remaining_suffix_count t' = 1 /\ active_length t' = 1 /\
  active_node t' = 0%nat /\ active_edge t' = pos.
Proof.
  induction fuel as [|f IH]; intros pos sh t g t' Hinv Hfresh.
  - pose proof (inv_dep_an _ _ _ _ _ Hinv).
    pose proof (iv_al _ _ _ _ _ Hinv). pose proof (iv_pd _ _ _ _ _ Hinv).
    cbn [extend_loop].
    replace (remaining_suffix_count t >? 0) with true; [done|].
    symmetry. apply Z.gtb_lt. unfold pdepth in *. lia.
  - pose proof (inv_dep_an _ _ _ _ _ Hinv).
    pose proof (iv_al _ _ _ _ _ Hinv). pose proof (iv_pd _ _ _ _ _ Hinv).
    assert (Hrem : (remaining_suffix_count t >? 0) = true).
    { apply Z.gtb_lt. unfold pdepth in *. lia. }
    destruct (body_step _ _ _ _ _ Hinv) as (e&t1&g1&Hbody&Hpost).
    pose proof (extend_body_globals _ _ _ _ Hbody) as (Htx&_).
    cbn [extend_loop]. rewrite Hrem, Hbody.
    destruct e; cbn in Hpost.
    + destruct Hpost as (->&Hi&_). apply (IH pos sh t1 g t' Hi).
      by rewrite Htx.
    + by destruct Hpost as (_&_&Hnf).
    + destruct Hpost as (_&_&[(sh'&Hi)|(Hrd&_&Hr1)]).
      * apply (IH pos sh' t1 g1 t' Hi). by rewrite Htx.
      * pose proof (Hr1 eq_refl) as Hlp.
        destruct f as [|f']; cbn [extend_loop]; rewrite Hrd; cbn [Z.gtb Z.compare];
          [done|].
        rewrite (last_pass_result _ _ _ Hlp). intros [= <-].
        destruct (stop_phase_fields (set_active_edge pos t1))
          as (Fan&Fal&Fae&Frem&_).
        rewrite Fan, Fal, Fae, Frem. cbn.
        rewrite (lp_an _ _ _ Hlp), (lp_al _ _ _ Hlp). done.
Qed.

(** X12: After [make_explicit] on the tree of a text without the terminator
    the counter of pending suffixes is 1, not 0: the phase ends by rule 3
    on the terminator leaf below the root, which leaves the active point
    on that leaf's edge. *)
Theorem finalization_ends_with_counter_one (s : list ascii) (fuel : nat) :
  terminator ∉ s -> (2 * length s + 3 <= fuel)%nat ->
  exists t, build_explicit fuel s = Ok t /\
    remaining_suffix_count t = 1 /\ active_length t = 1 /\
    active_node t = root t /\ active_edge t = Z.of_nat (length s).
Proof.
  intros Hnot Hfuel.
  destruct (built_trees fuel s Hfuel)
    as (t0&g0&t&g&Hnew&Hex&Hb&Hrd&Htx&Hsz&(Hso&_)&_).
  exists t. split; [done|]. rewrite (so_root _ _ Hso).
  destruct (ready_bounds _ _ _ Hrd) as (Hal&Hrem&Halr&_&Hlen).
  revert Hex. unfold make_explicit, _extend_suffix_tree. cbv zeta.
  match goal with |- context [extend_loop fuel (size t0) ?t2] =>
    set (t2' := t2) end.
  rewrite <- Hsz in Hrd.
  assert (Hinv : inv (size t0) 1 0 t2' (open_ghost t0 g0)).
  { apply (enter_phase (size t0) 1 t0); try done; subst t2'; cbn; try lia.
    - rewrite length_app. cbn. lia.
    - intros i Hi. unfold chr. cbn. apply py_index_app_l. lia. }
  intros Hloop. rewrite <- Hsz.
  apply (final_loop_end fuel (size t0) 0 t2' _ t Hinv); [|done].
  subst t2'. cbn. rewrite Htx, Hsz. by apply fresh_terminator.
Qed.

Lemma finalization_ends_with_counter_one_witness :
  exists t, build_explicit 11 (chars "abab") = Ok t /\
    remaining_suffix_count t = 1 /\ active_length t = 1 /\
    active_node t = root t /\
    active_edge t = Z.of_nat (length (chars "abab")).
Proof.
  apply (finalization_ends_with_counter_one (chars "abab") 11).
  - list_absent.
  - simpl. lia.
Defined.

Section Traversal.
Context (t : SuffixTree) (g : ghost).
Context (Hso : store_ok t g) (Hts : tree_shaped t).

Let valid (h : nat) : Prop := (1 <= h < length (nodes t))%nat.

Lemma valid_node h : valid h -> exists nh, nodes t !! h = Some nh.
Proof using Type. intros [_ Hh]. by apply lookup_lt_is_Some_2. Qed.

Lemma kid_parent p c :
  c ∈ kids t p -> valid c /\ gpar g c = p.
Proof using Hso Hts.
  intros Hc.
  assert (Hne : c <> 0%nat).
  { intros ->. apply (ts_root_orphan _ Hts p). by rewrite (so_root _ _ Hso). }
  pose proof (ts_closed _ Hts _ _ Hc) as Hlt.
  split; [unfold valid; lia|].
  destruct (lookup_lt_is_Some_2 _ _ Hlt) as (nc&Hnc).
  destruct (so_node _ _ Hso c nc ltac:(lia) Hnc)
    as [(nu&key&Hu&_&Hget) _ _ _ _ _ _ _].
  apply (ts_one_parent _ Hts _ _ c); [|done].
  unfold kids. rewrite Hu. by apply (dict_get_elem key).
Qed.

Lemma parent_kid h :
  valid h ->
  h ∈ kids t (gpar g h) /\ (gpar g h = 0%nat \/ valid (gpar g h)) /\
  gdep g (gpar g h) < gdep g h /\ 0 <= gdep g (gpar g h).
Proof using Hso.
  intros Hv. destruct (valid_node h Hv) as (nh&Hnh). destruct Hv as [Hh1 _].
  destruct (so_node _ _ Hso h nh Hh1 Hnh)
    as [(nu&key&Hu&_&Hget) _ _ _ _ _ _ _].
  pose proof (node_dep_pos t g Hso h nh Hh1 Hnh).
  split; [unfold kids; rewrite Hu; by apply (dict_get_elem key)|].
  split; [|lia].
  destruct (decide (gpar g h = 0%nat)); [by left|right].
  apply lookup_lt_Some in Hu. unfold valid. lia.
Qed.

Lemma anc_depth x a :
  anc g x a -> x = 0%nat \/ valid x ->
  (a = 0%nat \/ valid a) /\ gdep g a <= gdep g x.
Proof using Hso.
  induction 1 as [x|x a Hx Ha IH]; intros Hv; [split; [done|lia]|].
  destruct Hv as [->|Hv]; [done|].
  destruct (parent_kid x Hv) as (_&Hp&Hd&_).
  destruct (IH Hp). split; [done|lia].
Qed.

Lemma anc_linear h a b : anc g h a -> anc g h b -> anc g a b \/ anc g b a.
Proof using Type.
  induction 1 as [x|x a Hx Ha IH]; intros Hb; [by left|].
  inversion Hb as [|? ? ? Hb']; subst.
  - right. by apply anc_step.
  - by apply IH.
Qed.

Lemma anc_up x c : anc g x c -> c <> 0%nat -> anc g x (gpar g c).
Proof using Type.
  induction 1 as [x|x a Hx Ha IH]; intros Hc.
  - apply anc_step; [done|apply anc_refl].
  - apply anc_step; [done|by apply IH].
Qed.

Lemma siblings_apart h c1 c2 :
  valid c1 -> valid c2 -> gpar g c1 = gpar g c2 ->
  anc g h c1 -> anc g h c2 -> c1 = c2.
Proof using Hso.
  intros Hv1 Hv2 Hp H1 H2.
  assert (Hone : forall a b, valid a -> valid b -> gpar g a = gpar g b ->
            anc g a b -> a = b).
  { intros a b Ha Hb Hab Hanc. inversion Hanc as [|? ? ? Hanc']; subst; [done|].
    destruct (parent_kid a Ha) as (_&Hpa&_).
    destruct (anc_depth _ _ Hanc' Hpa) as [_ Hd].
    destruct (parent_kid b Hb) as (_&_&Hdb&_). rewrite Hab in Hd. lia. }
  destruct (anc_linear _ _ _ H1 H2); [by apply Hone|].
  symmetry. by apply Hone.
Qed.

Lemma not_below_self c : valid c -> ~ anc g (gpar g c) c.
Proof using Hso.
  intros Hv Ha. destruct (parent_kid c Hv) as (_&Hp&Hd&_).
  destruct (anc_depth _ _ Ha Hp). lia.
Qed.

Lemma below_child h u :
  valid h -> anc g (gpar g h) u ->
  exists c, c ∈ kids t u /\ anc g h c.
Proof using Hso.
  intros Hv Ha. remember (gpar g h) as p eqn:Ep.
  revert h Hv Ep. induction Ha as [x|x a Hx Ha IH]; intros h Hv ->.
  - exists h. split; [by apply parent_kid|apply anc_refl].
  - destruct (parent_kid h Hv) as (_&[?|Hvp]&_); [done|].
    destruct (IH (gpar g h) Hvp eq_refl) as (c&Hc&Hanc).
    exists c. split; [done|]. apply anc_step; [|done].
    destruct Hv. lia.
Qed.

Lemma anc_root_all n : forall x,
  x = 0%nat \/ valid x -> gdep g x <= Z.of_nat n -> anc g x 0%nat.
Proof using Hso.
  induction n as [|n IH]; intros x [->|Hv] Hd; try apply anc_refl.
  - destruct (parent_kid x Hv) as (_&_&?&?). lia.
  - destruct (parent_kid x Hv) as (_&Hp&?&?).
    apply anc_step; [destruct Hv; lia|]. apply IH; [done|lia].
Qed.

(** What the recursive call is to do for the subtree of [u]. *)
Let visits (u : nat) (lines : list (list ascii))
  (order : list (nat * nat)) : Prop :=
  Forall2 (printed_for t) lines order /\ NoDup order.*1 /\
  forall h, h ∈ order.*1 <-> valid h /\ anc g (gpar g h) u.

Lemma print_children_spec visit u d cs :
  depth_of t u d -> NoDup cs -> (forall c, c ∈ cs -> c ∈ kids t u) ->
  (forall c, c ∈ cs ->
     exists lines order,
       visit c (4 * Z.of_nat d + 4) = Ok lines /\ visits c lines order) ->
  exists lines order,
    print_children visit t (4 * Z.of_nat d) cs = Ok lines /\
    Forall2 (printed_for t) lines order /\ NoDup order.*1 /\
    forall h, h ∈ order.*1 <-> valid h /\ exists c, c ∈ cs /\ anc g h c.
Proof using Hso Hts.
  intros Hu. induction cs as [|c cs IH]; intros Hnd Hk Hv.
  - exists [], []. split; [done|]. split; [constructor|].
    split; [constructor|]. intros h. split.
    + intros Hh. by apply elem_of_nil in Hh.
    + intros (_&c&Hc&_). by apply elem_of_nil in Hc.
  - apply NoDup_cons in Hnd as [Hc Hnd].
    destruct (Hv c ltac:(left)) as (sub&oc&Hsub&Hf1&Hn1&Hm1).
    destruct IH as (rest&ors&Hrest&Hf2&Hn2&Hm2); [done| | |].
    { intros x Hx. apply Hk. by right. }
    { intros x Hx. apply Hv. by right. }
    destruct (kid_parent u c (Hk c ltac:(left))) as [Hvc Hpc].
    destruct (valid_node c Hvc) as (cn&Hcn).
    exists ((spaces (4 * Z.of_nat d) ++ edge_label t cn) :: sub ++ rest),
      ((c, d) :: oc ++ ors).
    split; [cbn; by rewrite Hcn, Hsub, Hrest|].
    split.
    { constructor; [|by apply Forall2_app].
      exists cn. split; [done|]. split; [|done].
      apply (depth_child _ u); [done|]. apply Hk. by left. }
    assert (Hdisj : forall h c', c' ∈ cs -> anc g h c -> anc g h c' -> False).
    { intros h c' Hc' H1 H2. apply Hc.
      destruct (kid_parent u c' (Hk c' ltac:(by right))) as [Hvc' Hpc'].
      rewrite (siblings_apart h c c'); [done|done|done|congruence|done|done]. }
    split.
    { cbn. rewrite fmap_app. apply NoDup_cons. split.
      - intros Hin. apply elem_of_app in Hin as [Hin|Hin].
        + apply Hm1 in Hin as [_ Ha]. by apply (not_below_self c).
        + apply Hm2 in Hin as (_&c'&Hc'&Ha).
          by apply (Hdisj c c' Hc' (anc_refl g c)).
      - apply NoDup_app. split; [done|]. split; [|done].
        intros h Hh1 Hh2.
        apply Hm1 in Hh1 as [[Hh _] Ha]. apply Hm2 in Hh2 as (_&c'&Hc'&Ha').
        apply (Hdisj h c' Hc'); [|done]. apply anc_step; [lia|done]. }
    intros h. cbn. rewrite fmap_app, elem_of_cons, elem_of_app. split.
    + intros [->|[Hh|Hh]].
      * split; [done|]. exists c. split; [by left|apply anc_refl].
      * apply Hm1 in Hh as [Hvh Ha]. split; [done|].
        exists c. split; [by left|]. apply anc_step; [destruct Hvh; lia|done].
      * apply Hm2 in Hh as (Hvh&c'&Hc'&Ha). split; [done|].
        exists c'. split; [by right|done].
    + intros (Hvh&c'&Hc'&Ha).
      apply elem_of_cons in Hc' as [->|Hc'].
      * inversion Ha as [|? ? ? Ha']; subst; [by left|].
        right; left. by apply Hm1.
      * right; right. apply Hm2. split; [done|]. by exists c'.
Qed.

Lemma print_tree_spec (rank : nat -> nat) fuel :
  (forall p c, c ∈ kids t p -> (rank c < rank p)%nat) ->
  forall u d, u = 0%nat \/ valid u -> (rank u < fuel)%nat ->
    depth_of t u d ->
    exists lines order,
      _print_tree fuel t u (4 * Z.of_nat d) = Ok lines /\
      visits u lines order.
Proof using Hso Hts.
  intros Hrk. induction fuel as [|fuel IH]; intros u d Hv Hr Hd; [lia|].
  assert (Hu : exists nu, nodes t !! u = Some nu).
  { destruct Hv as [->|Hv]; [|by apply valid_node].
    destruct (so_root_node _ _ Hso) as (nr&?&Hnr&_). by exists nr. }
  destruct Hu as (nu&Hnu).
  assert (Hk : dict_values (children nu) = kids t u).
  { unfold kids. by rewrite Hnu. }
  destruct (print_children_spec (fun c i => _print_tree fuel t c i) u d
              (kids t u) Hd (ts_nodup _ Hts u) ltac:(done))
    as (lines&order&Hp&Hf&Hn&Hm).
  { intros c Hc. destruct (kid_parent u c Hc) as [Hvc _].
    replace (4 * Z.of_nat d + 4) with (4 * Z.of_nat (S d)) by lia.
    apply IH; [by right|apply Hrk in Hc; lia|by apply (depth_child _ u)]. }
  exists lines, order. split; [cbn; by rewrite Hnu, Hk|].
  split; [done|]. split; [done|]. intros h. rewrite Hm. split.
  - intros (Hvh&c&Hc&Ha). split; [done|].
    destruct (kid_parent u c Hc) as [Hvc Hpc].
    inversion Ha as [|? ? ? Ha']; subst; [apply anc_refl|].
    apply anc_up; [done|destruct Hvc; lia].
  - intros (Hvh&Ha). split; [done|]. by apply below_child.
Qed.

Lemma tree_prints_every_edge : prints_every_edge t.
Proof using Hso Hts.
  destruct (ts_ranked _ Hts) as (rank&Hrk).
  exists (S (rank 0%nat)). intros fuel Hfuel.
  destruct (print_tree_spec rank fuel Hrk 0%nat 0%nat) as (lines&order&Hp&Hf&Hn&Hm).
  { by left. }
  { lia. }
  { pose proof (depth_root t) as Hd0. by rewrite (so_root _ _ Hso) in Hd0. }
  exists lines, order. rewrite (so_root _ _ Hso).
  split; [done|]. split; [done|].
  apply NoDup_Permutation; [done|apply NoDup_seq|].
  intros h. rewrite Hm, elem_of_seq. unfold valid. split.
  - intros [? _]. lia.
  - intros Hh. split; [lia|].
    assert (Hvh : valid h) by (unfold valid; lia).
    destruct (parent_kid h Hvh) as (_&Hp'&_&Hd).
    apply (anc_root_all (Z.to_nat (gdep g (gpar g h)))); [done|lia].
Qed.

End Traversal.

(** X13: On the implicit and on the finalized tree [_print_tree(root)]
    returns and prints exactly one line per node other than the root:
    [4 * d] spaces followed by the label of the edge into the node, where
    the node is [d + 1] edges below the root. *)
Theorem print_tree_prints_every_edge (s : list ascii) (fuel : nat) :
  (2 * length s + 3 <= fuel)%nat ->
  exists t0 t, SuffixTree_new fuel s = Ok t0 /\ build_explicit fuel s = Ok t /\
    prints_every_edge t0 /\ prints_every_edge t.
Proof.
  intros Hfuel.
  destruct (built_trees fuel s Hfuel)
    as (t0&g0&t&g&Hnew&_&Hb&Hrd&_&_&(Hso&_)&_&_&Hts0&Hts).
  exists t0, t. repeat (split; [done|]). split.
  - apply (tree_prints_every_edge t0 g0); [apply (rd_store _ _ _ Hrd)|done].
  - by apply (tree_prints_every_edge t g).
Qed.

Lemma print_tree_prints_every_edge_witness :
  exists t0 t, SuffixTree_new 15 (chars "banana") = Ok t0 /\
    build_explicit 15 (chars "banana") = Ok t /\
    prints_every_edge t0 /\ prints_every_edge t.
Proof.
  apply (print_tree_prints_every_edge (chars "banana") 15). simpl. lia.
Defined.

(** ** Label lengths *)

Lemma edge_label_length t g h n :
  store_ok t g -> (1 <= h)%nat -> nodes t !! h = Some n ->
  Z.of_nat (length (edge_label t n)) = edge_length t n.
Proof.
  intros Hso Hh Hn. rewrite (edge_label_seg t g h n) by done.
  destruct (so_node _ _ Hso h n Hh Hn) as [_ H2 _ _ _ _ _ _].
  pose proof (so_leaf_end _ _ Hso). pose proof (so_size _ _ Hso).
  rewrite edge_length_eend. apply seg_length; lia.
Qed.

Lemma store_ok_lengths_agree t g :
  store_ok t g -> tree_shaped t -> lengths_agree t.
Proof.
  intros Hso Hts h w. induction 1 as [|p c cn w Hp IH Hc Hcn].
  - apply path_here.
  - assert (Hc1 : (1 <= c)%nat).
    { destruct (decide (c = 0%nat)) as [->|]; [|lia].
      destruct (ts_root_orphan _ Hts p). by rewrite (so_root _ _ Hso). }
    rewrite length_app, Nat2Z.inj_add, (edge_label_length t g c cn) by done.
    by apply (path_step _ _ p).
Qed.

(** X14: In the implicit and in the finalized tree the accumulated edge
    lengths along a path from the root add up to the length of the string
    that the edge labels spell. *)
Theorem path_lengths_are_label_lengths (s : list ascii) (fuel : nat) :
  (2 * length s + 3 <= fuel)%nat ->
  exists t0 t, SuffixTree_new fuel s = Ok t0 /\ build_explicit fuel s = Ok t /\
    lengths_agree t0 /\ lengths_agree t.
Proof.
  intros Hfuel.
  destruct (built_trees fuel s Hfuel)
    as (t0&g0&t&g&Hnew&_&Hb&Hrd&_&_&(Hso&_)&_&_&Hts0&Hts).
  exists t0, t. repeat (split; [done|]). split.
  - apply (store_ok_lengths_agree t0 g0); [apply (rd_store _ _ _ Hrd)|done].
  - by apply (store_ok_lengths_agree t g).
Qed.

Lemma path_lengths_are_label_lengths_witness :
  exists t0 t, SuffixTree_new 15 (chars "banana") = Ok t0 /\
    build_explicit 15 (chars "banana") = Ok t /\
    lengths_agree t0 /\ lengths_agree t.
Proof.
  apply (path_lengths_are_label_lengths (chars "banana") 15). simpl. lia.
Defined.

(** ** Suffix indices without finalization *)

(** X15: Run on the implicit tree, [set_suffix_index_by_dfs(root, 0)] returns
    and gives the leaf that spells the suffix [s[i:]] the index [i]. *)
Theorem implicit_tree_suffix_indices (s : list ascii) (fuel : nat) :
  (2 * length s < fuel)%nat ->
  exists t, SuffixTree_new fuel s = Ok t /\
    exists fuel0, forall fuel', (fuel0 <= fuel')%nat ->
      exists t', set_suffix_index_by_dfs fuel' (Some (root t)) 0 t = Ok t' /\
        forall h i, is_leaf t h -> (i <= length s)%nat ->
          path_label t (root t) h (drop i s) ->
          index_of t' h = Some (Z.of_nat i).
Proof.
  intros Hfuel.
  destruct (new_implicit fuel s Hfuel) as (t&g&Hnew&Hrd&Hts&Htx&Hsz&Hroot).
  pose proof (rd_store _ _ _ Hrd) as Hso.
  exists t. split; [done|].
  destruct (ts_ranked _ Hts) as [rank Hrk].
  exists (S (rank (root t))). intros fuel' Hf.
  assert (exists t', set_suffix_index_by_dfs fuel' (Some (root t)) 0 t = Ok t'
                     /\ same_shape t t') as (t'&Hd&_).
  { apply (dfs_terminates rank fuel' (root t) 0 t t);
      [apply (ts_closed _ Hts)|done|apply same_shape_refl
      |apply (ts_root _ Hts)|lia]. }
  exists t'. split; [done|]. intros h i Hl Hi Hp.
  pose proof (store_ok_lengths_agree t g Hso Hts h _ Hp) as Hlen.
  destruct (dfs_visited _ _ _ _ _ Hd h _ Hlen Hl) as (L'&Hp'&->).
  rewrite <- (path_length_unique t h _ L' Hts Hlen Hp').
  rewrite length_drop, Hsz. f_equal. lia.
Qed.

Lemma implicit_tree_suffix_indices_witness :
  exists t, SuffixTree_new 13 (chars "banana") = Ok t /\
    exists fuel0, forall fuel', (fuel0 <= fuel')%nat ->
      exists t', set_suffix_index_by_dfs fuel' (Some (root t)) 0 t = Ok t' /\
        forall h i, is_leaf t h -> (i <= length (chars "banana"))%nat ->
          path_label t (root t) h (drop i (chars "banana")) ->
          index_of t' h = Some (Z.of_nat i).
Proof.
  apply (implicit_tree_suffix_indices (chars "banana") 13). simpl. lia.
Defined.

(** ** What can be read from the finalized tree *)

Lemma update_active_point_same_store pos t t' :
  update_active_point pos t = Ok t' -> same_store t t'.
Proof.
  unfold update_active_point.
  repeat case_match; try discriminate; intros [= <-]; by repeat split.
Qed.

Lemma after_insert_complete pos delta sh tI g t' :
  mid pos delta sh tI g ->
  update_active_point pos
    (set_remaining_suffix_count (remaining_suffix_count tI - 1) tI) = Ok t' ->
  complete t' g pos.
Proof.
  intros Hmid Hu. apply update_active_point_same_store in Hu.
  apply (complete_ext tI); [|apply (md_complete _ _ _ _ _ Hmid)].
  destruct Hu as (?&?&?&?&?). by repeat split.
Qed.

(** A pass through the loop body keeps every substring of the first
    [pos] symbols readable. *)
Lemma body_step_complete pos delta sh t g :
  inv pos delta sh t g ->
  exists e t' g',
    extend_body pos t = Ok (e, t') /\ pass_post pos delta sh t g e t' g' /\
    store_ok t' g' /\ complete t' g' pos.
Proof.
  intros Hinv0.
  destruct (inv_head _ _ _ _ _ Hinv0) as (Hinv&Hhead&Fal&Fan&Frem&Flast&Fnodes).
  pose proof (inv_pos_range _ _ _ _ _ Hinv0) as Hrange.
  pose proof (iv_store _ _ _ _ _ Hinv) as Hso.
  pose proof (iv_pos _ _ _ _ _ Hinv) as Hpos.
  pose proof (iv_al _ _ _ _ _ Hinv) as Hal0.
  unfold extend_body, extend_insert. cbv zeta.
  set (t0 := if active_length t =? 0 then set_active_edge pos t else t) in *.
  assert (Htx : text t0 = text t).
  { subst t0. by destruct (active_length t =? 0). }
  rewrite <- Fal in Hhead.
  assert (Hcur : exists cur, chr t0 (active_edge t0) = Some cur).
  { destruct (Z_lt_le_dec 0 (active_length t0)) as [Hp|Hp].
    - destruct (inv_active_edge _ _ _ _ _ Hinv Hp) as (?&?&?&key&_&Hk&_).
      by exists key.
    - rewrite Hhead by lia. apply chr_in_range. by rewrite Htx. }
  destruct Hcur as (cur&Hcur).
  destruct (inv_an_node _ _ _ _ _ Hinv) as (nan&Hnan).
  change (py_index (text t0) (active_edge t0)) with (chr t0 (active_edge t0)).
  rewrite Hcur, Hnan.
  destruct (dict_get cur (children nan)) as [next|] eqn:Hnext.
  - destruct (so_child _ _ Hso _ _ _ _ Hnan Hnext) as (nn&_&Hnn&_).
    rewrite Hnn.
    destruct (edge_child _ _ _ _ _ Hinv _ _ _ _ Hnan Hnext Hnn)
      as (Hge&Hpar&Hk&Hok&Hdep&Hlen).
    destruct (Z.geb_spec (active_length t0) (edge_length t0 nn)) as [Hskip|Hin].
    + destruct (step_skip _ _ _ _ _ Hinv _ _ _ _ Hhead Hnan Hcur Hnext Hnn
                  ltac:(lia)) as (Hi&Hl&Hr).
      eexists Continue, _, g. split; [reflexivity|].
      split; [split; [done|]; split; [done|]; split; [lia|congruence]|].
      split; [apply (iv_store _ _ _ _ _ Hi)|apply (iv_complete _ _ _ _ _ Hi)].
    + pose proof (no_range _ _ _ _ Hok) as Hrn.
      pose proof Hin as Hin'. rewrite edge_length_eend in Hin'.
      assert (Hc1 : exists c1, chr t0 (start nn + active_length t0) = Some c1).
      { apply chr_in_range. rewrite Htx. lia. }
      assert (Hc2 : exists c2, chr t0 pos = Some c2).
      { apply chr_in_range. by rewrite Htx. }
      destruct Hc1 as (c1&Hc1). destruct Hc2 as (c2&Hc2).
      change (py_index (text t0) (start nn + active_length t0))
        with (chr t0 (start nn + active_length t0)).
      change (py_index (text t0) pos) with (chr t0 pos).
      rewrite Hc1, Hc2.
      destruct (Ascii.eqb_spec c1 c2) as [Heq|Hne].
      * assert (Hso' : store_ok (stop_phase t0) g).
        { apply (store_ok_edges t0); [apply same_edges_stop_phase|done]. }
        eexists Break, _, g. split; [reflexivity|].
        split; [split; [done|split]|split; [done|]].
        -- intros ->. apply (step_break _ _ _ _ Hinv _ _ _ _ Hhead Hnan Hcur
                               Hnext Hnn Hin). congruence.
        -- intros Hfresh.
           apply (no_break _ _ _ _ _ Hinv _ _ _ _ Hnan Hnext Hnn); [|done|].
           ++ intros i Hi. unfold chr. rewrite Htx. by apply Hfresh.
           ++ congruence.
        -- apply (complete_edges t0); [apply same_edges_stop_phase|].
           apply (iv_complete _ _ _ _ _ Hinv).
      * rewrite (split_edge_ok _ _ _ c1) by done.
        pose proof (step_split _ _ _ _ _ Hinv _ _ _ _ _ _ Hhead Hnan Hcur
                      Hnext Hnn Hin Hc1 Hc2 Hne) as Hmid.
        destruct (after_insert _ _ _ _ _ Hmid) as (t'&Hu&Hr&Hl&Hpost).
        pose proof (after_insert_complete _ _ _ _ _ _ Hmid Hu) as Hcomp.
        assert (Hso' : store_ok t' (split_ghost pos sh next t0 g)).
        { apply update_active_point_same_store in Hu.
          apply (store_ok_ext (split_state pos cur c2 c1 next nn t0));
            [|apply (md_store _ _ _ _ _ Hmid)].
          destruct Hu as (?&?&?&?&?). by repeat split. }
        rewrite Hu.
        eexists Inserted, t', _. split; [reflexivity|].
        split; [|split; [exact Hso'|exact Hcomp]].
        split; [rewrite Hr; cbn; congruence|].
        split; [|exact Hpost].
        change (active_length (split_state pos cur c2 c1 next nn t0))
          with (active_length t0) in Hl. lia.
  - pose proof (step_leaf _ _ _ _ _ Hinv _ _ Hhead Hnan Hcur Hnext) as Hmid.
    destruct (after_insert _ _ _ _ _ Hmid) as (t'&Hu&Hr&Hl&Hpost).
    pose proof (after_insert_complete _ _ _ _ _ _ Hmid Hu) as Hcomp.
    assert (Hso' : store_ok t' (leaf_ghost pos sh t0 g)).
    { apply update_active_point_same_store in Hu.
      apply (store_ok_ext (add_leaf pos cur t0));
        [|apply (md_store _ _ _ _ _ Hmid)].
      destruct Hu as (?&?&?&?&?). by repeat split. }
    rewrite Hu.
    destruct (add_leaf_fields pos cur t0) as (_&_&_&_&_&Fal'&_&Frem'&_).
    eexists Inserted, t', _. split; [reflexivity|].
    split; [|split; [exact Hso'|exact Hcomp]].
    split; [lia|]. split; [lia|exact Hpost].
Qed.

Lemma loop_keeps_complete fuel : forall pos delta sh t g t',
  inv pos delta sh t g -> extend_loop fuel pos t = Ok t' ->
  exists g', store_ok t' g' /\ complete t' g' pos.
Proof.
  induction fuel as [|f IH]; intros pos delta sh t g t' Hinv.
  - cbn [extend_loop]. destruct (_ >? _); [done|]. intros [= <-].
    exists g. split; [apply (iv_store _ _ _ _ _ Hinv)
                     |apply (iv_complete _ _ _ _ _ Hinv)].
  - cbn [extend_loop]. destruct (_ >? _).
    2:{ intros [= <-]. exists g.
        split; [apply (iv_store _ _ _ _ _ Hinv)
               |apply (iv_complete _ _ _ _ _ Hinv)]. }
    destruct (body_step_complete _ _ _ _ _ Hinv)
      as (e&t1&g1&Hbody&Hpost&Hso1&Hc1).
    rewrite Hbody. destruct e; cbn in Hpost.
    + destruct Hpost as (->&Hi&_). by apply (IH pos delta sh t1 g).
    + intros [= <-]. by exists g1.
    + destruct Hpost as (_&_&[(sh'&Hi)|(Hrd&Hr0&Hr1)]).
      * by apply (IH pos delta sh' t1 g1).
      * pose proof (iv_flags _ _ _ _ _ Hinv) as Hfl.
        destruct (decide (delta = 0)) as [Hd|Hd].
        { destruct f; cbn [extend_loop]; rewrite Hrd, Hd; cbn;
            intros [= <-]; by exists g1. }
        assert (Hd1 : delta = 1) by lia.
        pose proof (Hr1 Hd1) as Hlp.
        destruct f as [|f']; cbn [extend_loop]; rewrite Hrd, Hd1;
          cbn [Z.gtb Z.compare]; [done|].
        rewrite (last_pass_result _ _ _ Hlp). intros [= <-].
        exists g1. split.
        -- apply (store_ok_edges (set_active_edge pos t1));
             [apply same_edges_stop_phase|].
           apply (store_ok_ext t1); [by repeat split|done].
        -- apply (complete_edges (set_active_edge pos t1));
             [apply same_edges_stop_phase|].
           apply (complete_ext t1); [by repeat split|done].
Qed.

(** The sliced nodes are reached from the root, also where other nodes
    are not where their strings are. *)
Lemma good_node_path t g n : forall h,
  store_ok t g -> gnode t g h -> gdep g h <= Z.of_nat n ->
  path_label t 0%nat h (seg (text t) (ghd g h) (gdep g h)).
Proof.
  induction n as [|n IH]; intros h Hso Hg Hd.
  - destruct Hg as (nh&Hh1&Hnh&_).
    pose proof (node_dep_pos t g Hso _ _ Hh1 Hnh). lia.
  - pose proof Hg as (nh&Hh1&Hnh&Hj).
    pose proof (so_leaf_end _ _ Hso) as Hle. pose proof (so_size _ _ Hso) as Hsz.
    destruct (good_range t g h nh Hso Hh1 Hnh Hj)
      as (Hh0&Hhd&Hee&Hst&Hh&Hpd&Hdep&Heq).
    destruct (so_node _ _ Hso h nh Hh1 Hnh)
      as [(nu&key&Hu&_&Hget) _ _ _ _ _ _ _].
    assert (Hkid : h ∈ kids t (gpar g h)).
    { unfold kids. rewrite Hu. by apply (dict_get_elem key). }
    pose proof Hdep as Hdep'. rewrite edge_length_eend in Hdep'.
    assert (Hpp : path_label t 0%nat (gpar g h)
                    (seg (text t) (ghd g h) (gdep g (gpar g h)))).
    { destruct (parent_good t g Hso h nh Hh1 Hnh) as [H0|Hgp].
      - rewrite H0, (so_dep0 _ _ Hso). unfold seg. rewrite take_0.
        apply label_here.
      - pose proof Hgp as (np&Hp1&Hnp&Hjp).
        destruct (good_range t g _ np Hso Hp1 Hnp Hjp) as (Hph0&Hphd&Hpee&_).
        rewrite (seg_eqs t (ghd g h) (ghd g (gpar g h))) by (done || lia).
        apply IH; [done|done|lia]. }
    pose proof (label_step _ _ _ _ _ _ Hpp Hkid Hnh) as Hstep.
    rewrite (edge_label_seg t g h nh) in Hstep by done.
    replace (start nh) with (ghd g h + gdep g (gpar g h)) in Hstep by lia.
    rewrite seg_app in Hstep by (rewrite ?edge_length_eend; lia).
    by rewrite <- Hdep in Hstep.
Qed.

(** X6: Every substring of the text given to the constructor can still
    be read from the root of the finalized tree, also where the text
    contains the terminator. *)
Theorem finalized_tree_reads_substrings (s : list ascii) (fuel : nat) :
  (2 * length s + 3 <= fuel)%nat ->
  exists t, build_explicit fuel s = Ok t /\
    forall w, substring w s ->
      exists h w', path_label t (root t) h (w ++ w').
Proof.
  intros Hfuel.
  destruct (built_trees fuel s Hfuel)
    as (t0&g0&t&g&Hnew&Hex&Hb&Hrd&Htx&Hsz&(_&Htx'&_)&_&Hlet&_).
  exists t. split; [done|].
  destruct (ready_bounds _ _ _ Hrd) as (Hal&Hrem&Halr&_&Hlen).
  revert Hex. unfold make_explicit, _extend_suffix_tree. cbv zeta.
  match goal with |- context [extend_loop fuel (size t0) ?t2] =>
    set (t2' := t2) end.
  rewrite <- Hsz in Hrd.
  assert (Hinv : inv (size t0) 1 0 t2' (open_ghost t0 g0)).
  { apply (enter_phase (size t0) 1 t0); try done; subst t2'; cbn; try lia.
    - rewrite length_app. cbn. lia.
    - intros i Hi. unfold chr. cbn. apply py_index_app_l. lia. }
  intros Hloop.
  destruct (loop_keeps_complete fuel _ _ _ _ _ _ Hinv Hloop) as (g'&Hso&Hcomp).
  rewrite (so_root _ _ Hso). intros w Hw.
  destruct (substring_seg _ _ Hw) as (a&Ha&Hal'&Heq).
  destruct (decide (w = [])) as [->|Hne].
  { exists 0%nat, []. apply label_here. }
  assert (Hk : 1 <= Z.of_nat (length w)) by (destruct w; [done|cbn; lia]).
  destruct (Hcomp a (Z.of_nat (length w)) Ha Hk ltac:(lia))
    as (c&[Hg Hr]&He).
  pose proof Hg as (nc&Hc1&Hnc&Hj).
  pose proof (so_leaf_end _ _ Hso) as Hle. pose proof (so_size _ _ Hso) as Hsz'.
  destruct (good_range t g' c nc Hso Hc1 Hnc Hj) as (Hh0&Hhd&Hee&_).
  destruct (seg_prefix (text t) (ghd g' c) (Z.of_nat (length w)) (gdep g' c)
              Hh0 ltac:(lia)) as (w'&Hw').
  exists c, w'.
  assert (Hwt : w = seg (text t) a (Z.of_nat (length w))).
  { rewrite Htx'. rewrite Heq at 1. unfold seg.
    rewrite drop_app_le by lia.
    by rewrite take_app_le by (rewrite length_drop; lia). }
  assert (Hlt : Z.of_nat (length (text t)) = Z.of_nat (length s) + 1).
  { rewrite Htx', length_app. cbn. lia. }
  rewrite Hwt. rewrite <- (seg_eqs t (ghd g' c) a) by (done || lia).
  rewrite <- Hw'.
  apply (good_node_path t g' (Z.to_nat (gdep g' c))); [done|done|lia].
Qed.

Lemma finalized_tree_reads_substrings_witness :
  exists t, build_explicit 11 (chars "abab") = Ok t /\
    forall w, substring w (chars "abab") ->
      exists h w', path_label t (root t) h (w ++ w').
Proof.
  apply (finalized_tree_reads_substrings (chars "abab") 11). simpl. lia.
Defined.

(** ** Finalization and suffix indices, for every text *)

(** Every node object is reached from the root along child edges. *)
Lemma every_node_has_path t g n : forall x,
  store_ok t g -> (x < length (nodes t))%nat -> gdep g x <= Z.of_nat n ->
  exists w, path_label t 0%nat x w.
Proof.
  induction n as [|n IH]; intros x Hso Hx Hd.
  - destruct (decide (x = 0%nat)) as [->|Hne]; [exists []; apply label_here|].
    destruct (lookup_lt_is_Some_2 _ _ Hx) as (nx&Hnx).
    pose proof (node_dep_pos t g Hso x nx ltac:(lia) Hnx). lia.
  - destruct (decide (x = 0%nat)) as [->|Hne]; [exists []; apply label_here|].
    destruct (lookup_lt_is_Some_2 _ _ Hx) as (nx&Hnx).
    pose proof (node_dep_pos t g Hso x nx ltac:(lia) Hnx) as Hdp.
    destruct (so_node _ _ Hso x nx ltac:(lia) Hnx)
      as [(nu&key&Hu&_&Hget) _ _ _ _ _ _ _].
    destruct (IH (gpar g x) Hso) as (w&Hw);
      [by apply lookup_lt_Some in Hu|lia|].
    exists (w ++ edge_label t nx).
    apply (label_step _ _ (gpar g x)); [done| |done].
    unfold kids. rewrite Hu. by apply (dict_get_elem key).
Qed.

(** C8. On the finalized tree of every text,
    [set_suffix_index_by_dfs(root, 0)] returns (given enough recursion
    depth). Every leaf is reached from the root, and where the edge labels
    on the way spell [w] the leaf gets the index [len(text) - len(w)],
    [text] being the terminated text; the index of every internal node
    stays -1. *)
Theorem suffix_index_assignment (s : list ascii) (fuel : nat) :
  (2 * length s + 3 <= fuel)%nat ->
  exists t, build_explicit fuel s = Ok t /\
    text t = s ++ [terminator] /\
    exists fuel0, forall fuel', (fuel0 <= fuel')%nat ->
      exists t', set_suffix_index_by_dfs fuel' (Some (root t)) 0 t = Ok t' /\
        (forall h, is_leaf t h -> exists w, path_label t (root t) h w) /\
        (forall h w, is_leaf t h -> path_label t (root t) h w ->
           index_of t' h =
             Some (Z.of_nat (length (text t)) - Z.of_nat (length w))) /\
        (forall h, is_internal t h -> index_of t' h = Some (-1)).
Proof.
  intros Hfuel.
  destruct (built_trees fuel s Hfuel)
    as (t0&g0&t&g&_&_&Hb&_&_&_&(Hso&Htx&_)&Hsz&_&_&Hts).
  pose proof (build_explicit_unindexed _ _ _ Hb) as Hu.
  exists t. split; [done|]. split; [done|].
  destruct (ts_ranked _ Hts) as [rank Hrk].
  exists (S (rank (root t))). intros fuel' Hf.
  assert (exists t', set_suffix_index_by_dfs fuel' (Some (root t)) 0 t = Ok t'
                     /\ same_shape t t') as (t'&Hd&_).
  { apply (dfs_terminates rank fuel' (root t) 0 t t);
      [apply (ts_closed _ Hts)|done|apply same_shape_refl
      |apply (ts_root _ Hts)|lia]. }
  exists t'. split; [done|]. split; [|split].
  - intros h (n&Hn&_). rewrite (so_root _ _ Hso).
    apply (every_node_has_path t g (Z.to_nat (gdep g h))); [done| |lia].
    by apply lookup_lt_Some in Hn.
  - intros h w Hl Hp.
    pose proof (store_ok_lengths_agree t g Hso Hts h _ Hp) as Hlen.
    destruct (dfs_visited _ _ _ _ _ Hd h _ Hlen Hl) as (L'&Hp'&->).
    rewrite <- (path_length_unique t h _ L' Hts Hlen Hp').
    rewrite Htx, length_app. cbn [length]. f_equal. lia.
  - intros h (n&Hn&Hc).
    destruct (dfs_frame _ _ _ _ _ Hd) as [Hs Hi].
    destruct (same_shape_lookup _ _ _ _ Hs Hn) as (n'&Hn'&_).
    unfold index_of. rewrite Hn'. cbn. f_equal.
    rewrite (Hi h n n' Hn Hn' Hc). by apply (Hu h).
Qed.

Lemma suffix_index_assignment_witness :
  exists t, build_explicit 15 (chars "banana") = Ok t /\
    text t = chars "banana" ++ [terminator] /\
    exists fuel0, forall fuel', (fuel0 <= fuel')%nat ->
      exists t', set_suffix_index_by_dfs fuel' (Some (root t)) 0 t = Ok t' /\
        (forall h, is_leaf t h -> exists w, path_label t (root t) h w) /\
        (forall h w, is_leaf t h -> path_label t (root t) h w ->
           index_of t' h =
             Some (Z.of_nat (length (text t)) - Z.of_nat (length w))) /\
        (forall h, is_internal t h -> index_of t' h = Some (-1)).
Proof.
  apply (suffix_index_assignment (chars "banana") 15). simpl. lia.
Defined.

(** C5, as the code has it. [make_explicit] checks nothing and reports no
    error: on the tree built for any text, with or without the terminator
    in it, it returns, and the text has one more terminator at its end,
    the size is one higher and the tree is not what it was. On any tree at
    all, whenever it returns it has done the same. *)
Theorem make_explicit_always_appends (s : list ascii) (fuel : nat) :
  (2 * length s + 3 <= fuel)%nat ->
  (exists t t', SuffixTree_new fuel s = Ok t /\ text t = s /\
     make_explicit fuel t = Ok t' /\
     text t' = s ++ [terminator] /\ size t' = size t + 1 /\ t' <> t) /\
  (forall fuel1 t1 t1', make_explicit fuel1 t1 = Ok t1' ->
     text t1' = text t1 ++ [terminator] /\ size t1' = size t1 + 1 /\
     t1' <> t1).
Proof.
  intros Hfuel.
  assert (Hany : forall fuel1 t1 t1', make_explicit fuel1 t1 = Ok t1' ->
            text t1' = text t1 ++ [terminator] /\ size t1' = size t1 + 1 /\
            t1' <> t1).
  { intros fuel1 t1 t1' H.
    destruct (make_explicit_appends_terminator _ _ _ H) as [Ht Hs].
    repeat split; try done. intros ->. lia. }
  split; [|exact Hany].
  destruct (built_trees fuel s Hfuel) as (t0&g0&t&g&Hnew&Hex&_&_&Htx&_).
  exists t0, t. split; [done|]. split; [done|]. split; [done|].
  destruct (Hany _ _ _ Hex) as (Ht&Hs&Hne). by rewrite Htx in Ht.
Qed.

Lemma make_explicit_always_appends_witness :
  (terminator ∈ chars "$") /\
  (exists t t', SuffixTree_new 20 (chars "$") = Ok t /\ text t = chars "$" /\
     make_explicit 20 t = Ok t' /\
     text t' = chars "$" ++ [terminator] /\ size t' = size t + 1 /\
     t' <> t) /\
  (forall fuel1 t1 t1', make_explicit fuel1 t1 = Ok t1' ->
     text t1' = text t1 ++ [terminator] /\ size t1' = size t1 + 1 /\
     t1' <> t1).
Proof.
  split; [by left|].
  apply (make_explicit_always_appends (chars "$") 20). simpl. lia.
Defined.
